(** * cgrates: the RADIUS agent's request processors and the tariff-plan loader

    A shallow embedding of [agents/radagent.go] (the two packet handlers and
    [processRequest]) and of the loader ([ProcessFolder], [processFiles],
    [processContent], [removeContent]), with the properties the
    specification states about them.

    Collaborators that live in other packages (the filter service, the field
    templater, the session connection, the data manager, the file system) are
    consulted through a record of operations over an abstract world, so that
    every statement holds for every behaviour of those collaborators. *)

From stdpp Require Import base option list gmap strings sorting.
From Stdlib Require Import ZArith.

Local Open Scope string_scope.
Local Open Scope list_scope.

(** ** Go function results

    A Go call either returns, panics (a nil pointer is dereferenced) or never
    returns (a [for] loop whose condition stays true).  The state reached is
    kept in all three cases; deferred calls run on the first two only. *)

Inductive outcome (A : Type) : Type :=
| Returns (a : A)
| Panics
| Diverges.
Arguments Returns {A} a.
Arguments Panics {A}.
Arguments Diverges {A}.

Definition Run (S A : Type) : Type := S → S * outcome A.

Definition run_ret {S A : Type} (a : A) : Run S A := λ s, (s, Returns a).

Definition run_bind {S A B : Type} (m : Run S A) (k : A → Run S B) : Run S B :=
  λ s, match m s with
       | (s', Returns a) => k a s'
       | (s', Panics) => (s', Panics)
       | (s', Diverges) => (s', Diverges)
       end.

Definition run_panic {S A : Type} : Run S A := λ s, (s, Panics).
Definition run_diverge {S A : Type} : Run S A := λ s, (s, Diverges).

(** [defer m d]: run [m], then the deferred call [d] unless [m] never
    returns; the result (or the panic) of [m] is what the caller sees. *)
Definition run_defer {S A : Type} (m : Run S A) (d : S → S) : Run S A :=
  λ s, match m s with
       | (s', Diverges) => (s', Diverges)
       | (s', o) => (d s', o)
       end.

Global Instance Run_ret {S : Type} : MRet (Run S) := λ A, run_ret.
Global Instance Run_bind {S : Type} : MBind (Run S) := λ A B k m, run_bind m k.

(** Go's [error]: [None] is [nil], [Some msg] an error whose [Error()] is
    [msg]. *)
Definition error : Type := string.

(** [interface{}] values stored in a charging event. *)
Inductive Iface : Type :=
| IInt (n : Z)
| IDuration (ns : Z)
| IString (s : string).

(** ** Constants of package [utils] *)

Module utils.

(** Modelled from the spec: the values of the flag constants, declared in
    package utils; the spec (section 6, flags vocabulary) lists them. *)
Definition MetaDryRun := "*dryrun".
Definition MetaAuthorize := "*authorize".
Definition MetaInitiate := "*initiate".
Definition MetaUpdate := "*update".
Definition MetaTerminate := "*terminate".
Definition MetaMessage := "*message".
Definition MetaCDRs := "*cdrs".
Definition MetaEvent := "*event".
Definition META_NONE := "*none".
Definition MetaRadauth := "*radauth".
Definition MetaAttributes := "*attributes".
Definition MetaThresholds := "*thresholds".
Definition MetaStats := "*stats".
Definition MetaResources := "*resources".
Definition MetaAccounts := "*accounts".
Definition MetaRoutes := "*routes".
Definition MetaRoutesIgnoreErrors := "*routes_ignore_errors".
Definition MetaRoutesEventCost := "*routes_event_cost".
Definition MetaAuth := "*auth".
Definition MetaInit := "*init".
Definition MetaFD := "*fd".
Definition MetaDispatchers := "*dispatchers".
Definition MetaContinue := "*continue".
Definition MetaLog := "*log".
Definition MetaPartial := "*partial".

(** Modelled from the spec: names of sub-tree fields, declared in package
    utils; the spec writes them [Usage], [Error], [RemoteHost] and
    [RADAUTH_FAILED]. *)
Definition Usage := "Usage".
Definition Error := "Error".
Definition RemoteHost := "RemoteHost".
Definition RadauthFailed := "RADAUTH_FAILED".

(** Modelled from the spec: the load options and caching options, declared
    in package utils; the spec names [*remove] (section 4.I) and the cache
    calls they select. *)
Definition MetaStore := "*store".
Definition MetaRemove := "*remove".
Definition MetaReload := "*reload".
Definition MetaLoad := "*load".
Definition MetaClear := "*clear".

(** [utils.FlagsWithParams]: flag name to its parameters. *)
Abbreviation FlagsWithParams := (gmap string (list string)).

Definition HasKey (fWp : FlagsWithParams) (key : string) : bool :=
  match fWp !! key with Some _ => true | None => false end.

Definition ParamsSlice (fWp : FlagsWithParams) (subs : string) : list string :=
  default [] (fWp !! subs).

(** Modelled from the spec: [FlagsWithParams.GetBool], declared in package
    utils.  The spec reads [GetBool] of [*continue] as the flags
    including [*continue] (section 4.E) and [GetBool] of [*partial] as
    the [*partial] flag variant (section 4.I). *)
Definition GetBool (fWp : FlagsWithParams) (key : string) : bool :=
  HasKey fWp key.

Definition SliceFlags (fWp : FlagsWithParams) : list string :=
  (map_to_list fWp).*1.

(** [utils.ErrHasPrefix]: [nil] has no prefix. *)
Definition ErrHasPrefix (err : option error) (prfx : string) : bool :=
  match err with
  | None => false
  | Some msg => String.prefix prfx msg
  end.

End utils.

(** ** The RADIUS agent ([agents/radagent.go]) *)

Module agents.
Import utils.

Definition MetaRadReqType := "*radReqType".
Definition MetaRadAuth := "*radAuth".
Definition MetaRadReplyCode := "*radReplyCode".

(** [radigo.Packet], as far as the agent looks at it. *)
Record Packet : Type := mkPacket {
  Code : string;
  RemoteAddr : string;
  AVPs : list (string * string)
}.

Definition AccessAccept := "AccessAccept".
Definition AccountingResponse := "AccountingResponse".

(** [req.Reply()]: a reply to the same peer, no attribute yet. *)
Definition Packet_Reply (req : Packet) : Packet :=
  {| Code := ""; RemoteAddr := RemoteAddr req; AVPs := [] |}.

Definition Packet_withCode (c : string) (p : Packet) : Packet :=
  {| Code := c; RemoteAddr := RemoteAddr p; AVPs := AVPs p |}.

Record FCTemplate : Type := mkFCTemplate {
  Tag : string;
  Path : string;
  Type_ : string;
  Value : string;
  FieldFilters : list string;
  Mandatory : bool;
  Blocker : bool
}.

(** [config.RequestProcessor]. *)
Record RequestProcessor : Type := mkRequestProcessor {
  ID : string;
  Tenant : string;
  Filters : list string;
  Flags : FlagsWithParams;
  Timezone : string;
  RequestFields : list FCTemplate;
  ReplyFields : list FCTemplate
}.

(** The sub-trees of an [AgentRequest].  [Vars], [CGRReply], [Reply] and
    [Opts] are the maps the handler created once for the packet: every
    processor's agent request points to the same four objects. *)
Record AgentRequest : Type := mkAgentRequest {
  Request : Packet;
  Vars : gmap string string;
  CGRRequest : list (string * Iface);
  CGRReply : gmap string string;
  Reply : list (string * string);
  Opts : list (string * Iface);
  arTenant : string;
  arTimezone : string
}.

Definition setVars (f : gmap string string → gmap string string)
    (ar : AgentRequest) : AgentRequest :=
  {| Request := Request ar; Vars := f (Vars ar); CGRRequest := CGRRequest ar;
     CGRReply := CGRReply ar; Reply := Reply ar; Opts := Opts ar;
     arTenant := arTenant ar; arTimezone := arTimezone ar |}.

Definition setCGRReplyMap (f : gmap string string → gmap string string)
    (ar : AgentRequest) : AgentRequest :=
  {| Request := Request ar; Vars := Vars ar; CGRRequest := CGRRequest ar;
     CGRReply := f (CGRReply ar); Reply := Reply ar; Opts := Opts ar;
     arTenant := arTenant ar; arTimezone := arTimezone ar |}.

Record CGREvent : Type := mkCGREvent {
  evTenant : string;
  evID : string;
  Event : gmap string Iface
}.

(** [cgrEv.Event[k] = v]. *)
Definition setEvent (k : string) (v : Iface) (ev : CGREvent) : CGREvent :=
  {| evTenant := evTenant ev; evID := evID ev; Event := <[k := v]> (Event ev) |}.

Record ArgDispatcher : Type := mkArgDispatcher {
  APIKey : option string;
  RouteID : option string
}.

Record Paginator : Type := mkPaginator {
  Limit : option Z;
  Offset : option Z
}.

(** [utils.ExtractedArgs]: two pointers, either of which may be nil. *)
Record ExtractedArgs : Type := mkExtractedArgs {
  eaArgDispatcher : option ArgDispatcher;
  eaRoutePaginator : option Paginator
}.

Inductive RPCMethod : Type :=
| SessionSv1AuthorizeEvent
| SessionSv1InitiateSession
| SessionSv1UpdateSession
| SessionSv1TerminateSession
| SessionSv1ProcessMessage
| SessionSv1ProcessEvent
| SessionSv1ProcessCDR.

Global Instance RPCMethod_eq_dec : EqDecision RPCMethod.
Proof. solve_decision. Defined.

(** The action RPCs, as opposed to the CDR call. *)
Definition isActionRPC (m : RPCMethod) : bool :=
  match m with SessionSv1ProcessCDR => false | _ => true end.

(** [sessions.V1ProcessMessageArgs]: the agent reads its [Debit] field. *)
Record V1ProcessMessageArgs : Type := mkV1ProcessMessageArgs {
  pmGetAttributes : bool;
  pmAttributeIDs : list string;
  pmProcessThresholds : bool;
  pmThresholdIDs : list string;
  pmProcessStats : bool;
  pmStatIDs : list string;
  pmAllocateResources : bool;
  Debit : bool;
  pmGetRoutes : bool;
  pmRoutesIgnoreErrors : bool;
  pmRoutesMaxCost : bool;
  pmForceDuration : bool
}.

(** What is handed to [connMgr.Call]; for the constructors of package
    sessions other than the message one, the arguments the agent passes, in
    the order of the source. *)
Inductive RPCArgs : Type :=
| V1AuthorizeArgs (attrs : bool) (attributeIDs : list string)
    (thrslds : bool) (thresholdIDs : list string)
    (statQueues : bool) (statIDs : list string)
    (res maxUsage routes routesIgnoreErrs routesEventCost : bool)
    (cgrEv : CGREvent) (argDisp : option ArgDispatcher)
    (routePaginator : Paginator) (forceDuration : bool)
    (opts : gmap string Iface)
| V1InitSessionArgs (attrs : bool) (attributeIDs : list string)
    (thrslds : bool) (thresholdIDs : list string)
    (stats : bool) (statIDs : list string)
    (resrc acnt : bool)
    (cgrEv : CGREvent) (argDisp : option ArgDispatcher)
    (forceDuration : bool) (opts : gmap string Iface)
| V1UpdateSessionArgs (attrs : bool) (attributeIDs : list string)
    (acnts : bool)
    (cgrEv : CGREvent) (argDisp : option ArgDispatcher)
    (forceDuration : bool) (opts : gmap string Iface)
| V1TerminateSessionArgs (acnts resrc thrds : bool)
    (thresholdIDs : list string) (stats : bool) (statIDs : list string)
    (cgrEv : CGREvent) (argDisp : option ArgDispatcher)
    (forceDuration : bool) (opts : gmap string Iface)
| V1ProcessMessage (evArgs : V1ProcessMessageArgs)
    (cgrEv : CGREvent) (argDisp : option ArgDispatcher)
    (routePaginator : Paginator) (opts : gmap string Iface)
| V1ProcessEventArgs (flags : list string)
    (cgrEv : CGREvent) (argDisp : option ArgDispatcher)
| CGREventWithArgDispatcher
    (cgrEv : CGREvent) (argDisp : option ArgDispatcher).

(** A reply of the session service: the granted usage and the fields it
    turns into under [AsNavigableMap]. *)
Record SessionReply : Type := mkSessionReply {
  MaxUsage : Z;
  replyFields : gmap string string
}.

(** The zero value a reply has before the call fills it. *)
Definition newReply : SessionReply :=
  {| MaxUsage := 0; replyFields := ∅ |}.

Inductive FieldsKind : Type := OfRequest | OfReply.

Inductive LogEntry : Type :=
| LogArgsExtractionFailed (e : error)
| LogRadiusMessage (processorID : string)
| LogDryRunEvent (processorID : string) (cgrEv : CGREvent)
| LogRadiusReply
| LogDryRunReply
| LogIgnoringRequest (e : error)
| LogNoProcessorEnabled
| LogErrReplying (e : error).

(** What a run leaves behind, oldest first: the calls that were made,
    each with what it returned, and the log. *)
Inductive Effect : Type :=
| EvProcessRequest (reqProcessor : RequestProcessor)
    (vars : gmap string string)
| EvPass (reqProcessor : RequestProcessor) (pass : bool) (err : option error)
| EvSetFields (k : FieldsKind) (processorID : string) (err : option error)
| EvCall (m : RPCMethod) (args : RPCArgs) (rply : SessionReply)
    (err : option error)
| EvRadauth (pass : bool) (err : option error)
| EvLog (l : LogEntry).


Section WithWorld.

(** Everything outside the agent: the filter and session services, the
    dictionaries, the clock. *)
Context {W : Type}.

(** The collaborators' operations.  Each may read and change the world. *)
Record Env : Type := mkEnv {
  (** [filterS.Pass] *)
  filterS_Pass : W → string → list string → AgentRequest →
                 W * (bool * option error);
  (** [agReq.SetFields]: the agent request as the templates leave it,
      also when one of them fails *)
  SetFields : W → list FCTemplate → AgentRequest →
              W * (AgentRequest * option error);
  (** [config.NMAsCGREvent] *)
  NMAsCGREvent : W → list (string * Iface) → string → W * CGREvent;
  (** [config.NMAsMapInterface] *)
  NMAsMapInterface : list (string * Iface) → gmap string Iface;
  (** [utils.ExtractArgsFromOpts] *)
  ExtractArgsFromOpts : W → gmap string Iface → bool → bool →
                        W * (ExtractedArgs * option error);
  (** [sessions.NewV1ProcessMessageArgs], on its flag arguments *)
  NewV1ProcessMessageArgs :
    bool → list string → bool → list string → bool → list string →
    bool → bool → bool → bool → bool → bool → V1ProcessMessageArgs;
  (** [connMgr.Call] on the session connections *)
  Call : W → RPCMethod → RPCArgs → W * (SessionReply * option error);
  (** the reply that does not convert to a navigable map *)
  replyConvErr : SessionReply → option error;
  (** [radauthReq]: the reply packet as it leaves it, and its result *)
  radauthReq : W → FlagsWithParams → Packet → AgentRequest → Packet →
               W * (Packet * (bool * option error));
  (** [radReplyAppendAttributes] *)
  radReplyAppendAttributes : W → Packet → list (string * string) →
                             W * (Packet * option error);
  (** the tenant [NewAgentRequest] resolves from the processor's tenant
      template, or the default one *)
  resolveTenant : W → string → string → Packet → gmap string string →
                  string;
  (** [utils.RalsErrorPrfx] *)
  RalsErrorPrfx : string;
  DefaultTenant : string;
  DefaultTimezone : string;
  (** [cgrCfg.RadiusAgentCfg().RequestProcessors] *)
  RequestProcessors : list RequestProcessor
}.

Context (env : Env).

(** The state of a run: the world and what was done so far. *)
Record RS : Type := mkRS {
  world : W;
  trace : list Effect
}.

Definition emit (e : Effect) : Run RS unit :=
  λ s, ({| world := world s; trace := trace s ++ [e] |}, Returns tt).

Definition ask {A : Type} (f : W → W * A) : Run RS A :=
  λ s, let '(w, a) := f (world s) in
       ({| world := w; trace := trace s |}, Returns a).

Definition look {A : Type} (f : W → A) : Run RS A :=
  λ s, (s, Returns (f (world s))).

(** Modelled from the spec: [AgentRequest.setCGRReply], defined in
    agents/agentreq.go.  "Call failures populate [*cgrep.Error]"
    (section 4.H) and reply mapping goes on after them (section 7); a
    successful reply is decoded into [*cgrep] with an empty [Error]
    (section 4.E).  The Go function returns an error that its callers
    test: it is the reply's conversion error, which only a reply that
    arrived can have. *)
Definition setCGRReply (rply : option SessionReply) (errRply : option error)
    (ar : AgentRequest) : AgentRequest * option error :=
  match errRply with
  | Some msg => (setCGRReplyMap (λ _, {[ Error := msg ]}) ar, None)
  | None =>
      match rply with
      | None => (setCGRReplyMap (λ _, {[ Error := "" ]}) ar, None)
      | Some r =>
          match replyConvErr env r with
          | Some e => (ar, Some e)
          | None =>
              (setCGRReplyMap (λ _, <[ Error := "" ]> (replyFields r)) ar,
               None)
          end
      end
  end.

(** The loop over the precedence list at the top of [processRequest]:
    the first type the flags have, or the empty string. *)
Definition requestTypes : list string :=
  [ MetaDryRun; MetaAuthorize; MetaInitiate; MetaUpdate; MetaTerminate;
    MetaMessage; MetaCDRs; MetaEvent; META_NONE; MetaRadauth ].

Fixpoint firstFlag (flags : FlagsWithParams) (typs : list string) : string :=
  match typs with
  | [] => ""
  | typ :: typs' => if HasKey flags typ then typ else firstFlag flags typs'
  end.

Definition reqTypeOf (flags : FlagsWithParams) : string :=
  firstFlag flags requestTypes.


Definition call (m : RPCMethod) (args : RPCArgs)
    : Run RS (SessionReply * option error) :=
  '(rply, err) ← ask (λ w, Call env w m args);
  _ ← emit (EvCall m args rply err);
  mret (rply, err).

Definition setFields (k : FieldsKind) (reqProcessor : RequestProcessor)
    (agReq : AgentRequest) : Run RS (AgentRequest * option error) :=
  '(agReq, err) ← ask (λ w, SetFields env w
                              match k with
                              | OfRequest => RequestFields reqProcessor
                              | OfReply => ReplyFields reqProcessor
                              end agReq);
  _ ← emit (EvSetFields k (ID reqProcessor) err);
  mret (agReq, err).

(** What the [switch reqType] of [processRequest] hands on: the agent
    request, the charging event and the reply packet as the case left
    them, and the values to return when the case ends in [return]. *)
Record Switched : Type := mkSwitched {
  swAgReq : AgentRequest;
  swCgrEv : CGREvent;
  swRpl : Packet;
  swReturn : option (bool * option error)
}.

(** [if err = agReq.setCGRReply(rply, err); err != nil { return }] *)
Definition recordReply (rply : option SessionReply) (err : option error)
    (agReq : AgentRequest) (cgrEv : CGREvent) (rpl : Packet) : Switched :=
  let '(agReq', err') := setCGRReply rply err agReq in
  {| swAgReq := agReq'; swCgrEv := cgrEv; swRpl := rpl;
     swReturn := match err' with
                 | Some e => Some (false, Some e)
                 | None => None
                 end |}.

Definition switchReqType (reqType : string) (req : Packet)
    (reqProcessor : RequestProcessor) (agReq : AgentRequest)
    (rpl : Packet) (cgrEv : CGREvent) (opts : gmap string Iface)
    (cgrArgs : ExtractedArgs) : Run RS Switched :=
  let flags := Flags reqProcessor in
  let through :=
    {| swAgReq := agReq; swCgrEv := cgrEv; swRpl := rpl;
       swReturn := None |} in
  if String.eqb reqType META_NONE then mret through
  else if String.eqb reqType MetaDryRun then
    _ ← emit (EvLog (LogDryRunEvent (ID reqProcessor) cgrEv));
    mret through
  else if String.eqb reqType MetaAuthorize then
    match eaRoutePaginator cgrArgs with
    | None => run_panic
    | Some routePaginator =>
        let authArgs := V1AuthorizeArgs
          (HasKey flags MetaAttributes) (ParamsSlice flags MetaAttributes)
          (HasKey flags MetaThresholds) (ParamsSlice flags MetaThresholds)
          (HasKey flags MetaStats) (ParamsSlice flags MetaStats)
          (HasKey flags MetaResources) (HasKey flags MetaAccounts)
          (HasKey flags MetaRoutes) (HasKey flags MetaRoutesIgnoreErrors)
          (HasKey flags MetaRoutesEventCost)
          cgrEv (eaArgDispatcher cgrArgs) routePaginator
          (HasKey flags MetaFD) opts in
        '(rply, err) ← call SessionSv1AuthorizeEvent authArgs;
        mret (recordReply (Some rply) err agReq cgrEv rpl)
    end
  else if String.eqb reqType MetaInitiate then
    let initArgs := V1InitSessionArgs
      (HasKey flags MetaAttributes) (ParamsSlice flags MetaAttributes)
      (HasKey flags MetaThresholds) (ParamsSlice flags MetaThresholds)
      (HasKey flags MetaStats) (ParamsSlice flags MetaStats)
      (HasKey flags MetaResources) (HasKey flags MetaAccounts)
      cgrEv (eaArgDispatcher cgrArgs) (HasKey flags MetaFD) opts in
    '(rply, err) ← call SessionSv1InitiateSession initArgs;
    mret (recordReply (Some rply) err agReq cgrEv rpl)
  else if String.eqb reqType MetaUpdate then
    let updateArgs := V1UpdateSessionArgs
      (HasKey flags MetaAttributes) (ParamsSlice flags MetaAttributes)
      (HasKey flags MetaAccounts)
      cgrEv (eaArgDispatcher cgrArgs) (HasKey flags MetaFD) opts in
    '(rply, err) ← call SessionSv1UpdateSession updateArgs;
    mret (recordReply (Some rply) err agReq cgrEv rpl)
  else if String.eqb reqType MetaTerminate then
    let terminateArgs := V1TerminateSessionArgs
      (HasKey flags MetaAccounts) (HasKey flags MetaResources)
      (HasKey flags MetaThresholds) (ParamsSlice flags MetaThresholds)
      (HasKey flags MetaStats) (ParamsSlice flags MetaStats)
      cgrEv (eaArgDispatcher cgrArgs) (HasKey flags MetaFD) opts in
    '(_, err) ← call SessionSv1TerminateSession terminateArgs;
    mret (recordReply None err agReq cgrEv rpl)
  else if String.eqb reqType MetaMessage then
    match eaRoutePaginator cgrArgs with
    | None => run_panic
    | Some routePaginator =>
        let evArgs := NewV1ProcessMessageArgs env
          (HasKey flags MetaAttributes) (ParamsSlice flags MetaAttributes)
          (HasKey flags MetaThresholds) (ParamsSlice flags MetaThresholds)
          (HasKey flags MetaStats) (ParamsSlice flags MetaStats)
          (HasKey flags MetaResources) (HasKey flags MetaAccounts)
          (HasKey flags MetaRoutes) (HasKey flags MetaRoutesIgnoreErrors)
          (HasKey flags MetaRoutesEventCost) (HasKey flags MetaFD) in
        '(rply, err) ← call SessionSv1ProcessMessage
          (V1ProcessMessage evArgs cgrEv (eaArgDispatcher cgrArgs)
             routePaginator opts);
        let cgrEv' :=
          if ErrHasPrefix err (RalsErrorPrfx env)
          then setEvent Usage (IInt 0) cgrEv
          else if Debit evArgs
               then setEvent Usage (IDuration (MaxUsage rply)) cgrEv
               else cgrEv in
        mret (recordReply (Some rply) err agReq cgrEv' rpl)
    end
  else if String.eqb reqType MetaEvent then
    let evArgs := V1ProcessEventArgs (SliceFlags flags) cgrEv
                    (eaArgDispatcher cgrArgs) in
    let needMaxUsage := HasKey flags MetaAuth || HasKey flags MetaInit
                        || HasKey flags MetaUpdate in
    '(rply, err) ← call SessionSv1ProcessEvent evArgs;
    let cgrEv' :=
      if ErrHasPrefix err (RalsErrorPrfx env)
      then setEvent Usage (IInt 0) cgrEv
      else if needMaxUsage
           then setEvent Usage (IDuration (MaxUsage rply)) cgrEv
           else cgrEv in
    mret (recordReply (Some rply) err agReq cgrEv' rpl)
  else if String.eqb reqType MetaCDRs then mret through
  else if String.eqb reqType MetaRadauth then
    '(rpl', (pass, err)) ← ask (λ w, radauthReq env w flags req agReq rpl);
    _ ← emit (EvRadauth pass err);
    let agReq' :=
      match err with
      | Some msg => setCGRReplyMap (insert Error msg) agReq
      | None =>
          if negb pass
          then setCGRReplyMap (insert Error RadauthFailed) agReq
          else agReq
      end in
    mret {| swAgReq := agReq'; swCgrEv := cgrEv; swRpl := rpl';
            swReturn := None |}
  else
    mret {| swAgReq := agReq; swCgrEv := cgrEv; swRpl := rpl;
            swReturn := Some (false,
              Some ("unknown request type: <" +:+ reqType +:+ ">")) |}.


(** What [processRequest] returns, together with the objects it changed
    through the pointers it was given and the charging event it built
    (none before the request fields are set). *)
Record Processed : Type := mkProcessed {
  processed : bool;
  prErr : option error;
  prAgReq : AgentRequest;
  prRpl : Packet;
  prCgrEv : option CGREvent
}.

(** [processRequest] represents one processor processing the request. *)
Definition processRequest (req : Packet) (reqProcessor : RequestProcessor)
    (agReq : AgentRequest) (rpl : Packet) : Run RS Processed :=
  let flags := Flags reqProcessor in
  _ ← emit (EvProcessRequest reqProcessor (Vars agReq));
  '(pass, err) ← ask (λ w, filterS_Pass env w (arTenant agReq)
                             (Filters reqProcessor) agReq);
  _ ← emit (EvPass reqProcessor pass err);
  if bool_decide (err ≠ None) || negb pass then
    mret {| processed := pass; prErr := err; prAgReq := agReq;
            prRpl := rpl; prCgrEv := None |}
  else
  '(agReq, err) ← setFields OfRequest reqProcessor agReq;
  if bool_decide (err ≠ None) then
    mret {| processed := false; prErr := err; prAgReq := agReq;
            prRpl := rpl; prCgrEv := None |}
  else
  cgrEv ← ask (λ w, NMAsCGREvent env w (CGRRequest agReq) (arTenant agReq));
  let opts := NMAsMapInterface env (Opts agReq) in
  let reqType := reqTypeOf flags in
  '(cgrArgs, err) ← ask (λ w, ExtractArgsFromOpts env w opts
      (HasKey flags MetaDispatchers)
      (String.eqb reqType MetaAuthorize || String.eqb reqType MetaMessage
       || String.eqb reqType MetaEvent));
  _ ← match err with
      | Some e => emit (EvLog (LogArgsExtractionFailed e))
                  (* reset the error and continue the processing *)
      | None => mret tt
      end;
  _ ← (if HasKey flags MetaLog
       then emit (EvLog (LogRadiusMessage (ID reqProcessor)))
       else mret tt);
  sw ← switchReqType reqType req reqProcessor agReq rpl cgrEv opts cgrArgs;
  let agReq := swAgReq sw in
  let cgrEv := swCgrEv sw in
  let rpl := swRpl sw in
  match swReturn sw with
  | Some (p, e) =>
      mret {| processed := p; prErr := e; prAgReq := agReq;
              prRpl := rpl; prCgrEv := Some cgrEv |}
  | None =>
  (* separate request so we can capture the Terminate/Event also here *)
  agReq ← (if HasKey flags MetaCDRs then
             '(_, err) ← call SessionSv1ProcessCDR
                (CGREventWithArgDispatcher cgrEv (eaArgDispatcher cgrArgs));
             mret match err with
                  | Some msg => setCGRReplyMap (insert Error msg) agReq
                  | None => agReq
                  end
           else mret agReq);
  '(agReq, err) ← setFields OfReply reqProcessor agReq;
  if bool_decide (err ≠ None) then
    mret {| processed := false; prErr := err; prAgReq := agReq;
            prRpl := rpl; prCgrEv := Some cgrEv |}
  else
  _ ← (if HasKey flags MetaLog
       then emit (EvLog LogRadiusReply) else mret tt);
  _ ← (if String.eqb reqType MetaDryRun
       then emit (EvLog LogDryRunReply) else mret tt);
  mret {| processed := true; prErr := None; prAgReq := agReq;
          prRpl := rpl; prCgrEv := Some cgrEv |}
  end.


(** [utils.FirstNonEmpty] on two values. *)
Definition FirstNonEmpty (a b : string) : string :=
  if String.eqb a "" then b else a.

(** Modelled from the spec: [NewAgentRequest], defined in
    agents/agentreq.go.  It "creates the sub-trees" (section 4.B) around
    the maps the handler passes: [*req] views the packet, [*vars],
    [*cgrep], [*rep] and [*opts] are the handler's objects, [*cgreq]
    starts empty; the tenant comes from the processor's tenant
    expression, the default tenant standing in. *)
Definition NewAgentRequest (w : W) (req : Packet)
    (vars : gmap string string) (cgrRply : gmap string string)
    (rply : list (string * string)) (opts : list (string * Iface))
    (tntTpl dfltTenant timezone : string) : AgentRequest :=
  {| Request := req; Vars := vars; CGRRequest := [];
     CGRReply := cgrRply; Reply := rply; Opts := opts;
     arTenant := resolveTenant env w tntTpl dfltTenant req vars;
     arTimezone := timezone |}.

(** The variables of a handler that its loop reads and writes. *)
Record Locals : Type := mkLocals {
  reqVars : gmap string string;
  cgrRplyNM : gmap string string;
  rplyNM : list (string * string);
  lOpts : list (string * Iface);
  lRpl : Packet;
  lProcessed : bool;
  lErr : option error
}.

Definition afterProcessor (l : Locals) (r : Processed) : Locals :=
  {| reqVars := Vars (prAgReq r); cgrRplyNM := CGRReply (prAgReq r);
     rplyNM := Reply (prAgReq r); lOpts := Opts (prAgReq r);
     lRpl := prRpl r;
     lProcessed := if processed r then processed r else lProcessed l;
     lErr := prErr r |}.

(** The [for] loop of [handleAuth]. *)
Fixpoint handleAuth_loop (req : Packet)
    (reqProcessors : list RequestProcessor) (l : Locals)
    : Run RS Locals :=
  match reqProcessors with
  | [] => mret l
  | reqProcessor :: rest =>
      agReq ← look (λ w, NewAgentRequest w req (reqVars l) (cgrRplyNM l)
                 (rplyNM l) (lOpts l) (Tenant reqProcessor)
                 (DefaultTenant env)
                 (FirstNonEmpty (Timezone reqProcessor)
                    (DefaultTimezone env)));
      let agReq := setVars (insert MetaRadReqType MetaRadAuth) agReq in
      r ← processRequest req reqProcessor agReq (lRpl l);
      let l := afterProcessor l r in
      if bool_decide (prErr r ≠ None)
         || (processed r && negb (GetBool (Flags reqProcessor) MetaContinue))
      then mret l
      else handleAuth_loop req rest l
  end.

(** The [for] loop of [handleAcct]. *)
Fixpoint handleAcct_loop (req : Packet)
    (reqProcessors : list RequestProcessor) (l : Locals)
    : Run RS Locals :=
  match reqProcessors with
  | [] => mret l
  | reqProcessor :: rest =>
      agReq ← look (λ w, NewAgentRequest w req (reqVars l) (cgrRplyNM l)
                 (rplyNM l) (lOpts l) (Tenant reqProcessor)
                 (DefaultTenant env)
                 (FirstNonEmpty (Timezone reqProcessor)
                    (DefaultTimezone env)));
      r ← processRequest req reqProcessor agReq (lRpl l);
      let l := afterProcessor l r in
      if bool_decide (prErr r ≠ None)
         || (processed r && negb (GetBool (Flags reqProcessor) MetaContinue))
      then mret l
      else handleAcct_loop req rest l
  end.

Definition initLocals (req : Packet) (code : string) : Locals :=
  {| reqVars := {[ RemoteHost := RemoteAddr req ]};
     cgrRplyNM := ∅; rplyNM := []; lOpts := [];
     lRpl := Packet_withCode code (Packet_Reply req);
     lProcessed := false; lErr := None |}.

(** What follows the loop in both handlers: the reply packet, or none
    when the request is ignored. *)
Definition handle_finish (l : Locals)
    : Run RS (option Packet * option error) :=
  match lErr l with
  | Some e =>
      _ ← emit (EvLog (LogIgnoringRequest e));
      mret (None, None)
  | None =>
      if negb (lProcessed l) then
        _ ← emit (EvLog LogNoProcessorEnabled);
        mret (None, None)
      else
        '(rpl, err) ← ask (λ w, radReplyAppendAttributes env w
                                  (lRpl l) (rplyNM l));
        match err with
        | Some e =>
            _ ← emit (EvLog (LogErrReplying e));
            mret (None, Some e)
        | None => mret (Some rpl, None)
        end
  end.

(** [handleAuth] handles RADIUS Authorization request. *)
Definition handleAuth (req : Packet)
    : Run RS (option Packet * option error) :=
  l ← handleAuth_loop req (RequestProcessors env)
        (initLocals req AccessAccept);
  handle_finish l.

(** [handleAcct] handles RADIUS Accounting request. *)
Definition handleAcct (req : Packet)
    : Run RS (option Packet * option error) :=
  l ← handleAcct_loop req (RequestProcessors env)
        (initLocals req AccountingResponse);
  handle_finish l.

End WithWorld.

Arguments Env W : clear implicits.
Arguments RS W : clear implicits.

End agents.

(** ** The tariff-plan loader *)

Module loaders.
Import utils.

(** What [csv.Reader.Read] gives for one line of a file: a record, or an
    error for a line that does not parse.  After the last line it gives
    [io.EOF]. *)
Inductive readResult : Type :=
| Rec (record : list string)
| ReadErr (e : error).

(** An opened file with the lines its reader has not consumed yet. *)
Record openedCSVFile : Type := mkOpenedCSVFile {
  fileName : string;
  csvRdr : list readResult
}.

(** [LoaderData]: field name to decoded value, one logical row. *)
Abbreviation LoaderData := (gmap string string).

(** A Go map that the code ranges over is kept as an association list
    with distinct keys: its order is the order in which the run at hand
    visits the keys, which Go leaves open. *)
Abbreviation readers := (list (string * option openedCSVFile)).

(** [Loader] is one instance loading from a folder. *)
Record Loader : Type := mkLoader {
  enabled : bool;
  dryRun : bool;
  ldrID : string;
  tpInDir : string;
  tpOutDir : string;
  lockFilename : string;
  fieldSep : string;
  dataTpls : gmap string (list agents.FCTemplate);
  flagsTpls : gmap string FlagsWithParams;
  rdrs : list (string * readers);
  bufLoaderData : gmap string (list LoaderData);
  timezone : string;
  cacheConns : list string
}.

Definition withRdrs (f : list (string * readers) → list (string * readers))
    (l : Loader) : Loader :=
  {| enabled := enabled l; dryRun := dryRun l; ldrID := ldrID l;
     tpInDir := tpInDir l; tpOutDir := tpOutDir l;
     lockFilename := lockFilename l; fieldSep := fieldSep l;
     dataTpls := dataTpls l; flagsTpls := flagsTpls l;
     rdrs := f (rdrs l); bufLoaderData := bufLoaderData l;
     timezone := timezone l; cacheConns := cacheConns l |}.

Definition withBuf
    (f : gmap string (list LoaderData) → gmap string (list LoaderData))
    (l : Loader) : Loader :=
  {| enabled := enabled l; dryRun := dryRun l; ldrID := ldrID l;
     tpInDir := tpInDir l; tpOutDir := tpOutDir l;
     lockFilename := lockFilename l; fieldSep := fieldSep l;
     dataTpls := dataTpls l; flagsTpls := flagsTpls l;
     rdrs := rdrs l; bufLoaderData := f (bufLoaderData l);
     timezone := timezone l; cacheConns := cacheConns l |}.

(** Association lists: [m[k]] and [m[k] = v] on a key that is there. *)
Fixpoint assoc {A : Type} (k : string) (m : list (string * A)) : option A :=
  match m with
  | [] => None
  | (k', a) :: m' => if String.eqb k k' then Some a else assoc k m'
  end.

Fixpoint assoc_set {A : Type} (k : string) (a : A) (m : list (string * A))
    : list (string * A) :=
  match m with
  | [] => []
  | (k', a') :: m' =>
      if String.eqb k k' then (k', a) :: m' else (k', a') :: assoc_set k a m'
  end.

(** [ldr.rdrs[loaderType]]; a missing type gives the nil map. *)
Definition rdrsOf (l : Loader) (loaderType : string) : readers :=
  default [] (assoc loaderType (rdrs l)).

(** [ldr.rdrs[loaderType] = rs], on a type that is configured. *)
Definition setRdrsOf (loaderType : string) (rs : readers) (l : Loader)
    : Loader :=
  withRdrs (assoc_set loaderType rs) l.

(** [ldr.rdrs[loaderType][fileName] = v], on a file that is configured. *)
Definition setReader (loaderType fName : string) (v : option openedCSVFile)
    (l : Loader) : Loader :=
  setRdrsOf loaderType (assoc_set fName v (rdrsOf l loaderType)) l.

(** [for k = range m { break }]: a key of the map, the empty string when
    it has none.  A map of one key has one candidate. *)
Definition firstKey {A : Type} (m : gmap string A) : string :=
  match map_to_list m with
  | [] => ""
  | (k, _) :: _ => k
  end.

Inductive CacheMethod : Type :=
| CacheSv1ReloadCache
| CacheSv1LoadCache
| CacheSv1RemoveItem
| CacheSv1Clear.

Inductive LogEntry : Type :=
| LogCannotOpenFiles (ldrType : string) (e : error)
| LogReadingLine (lineNr : nat) (e : error)
| LogLine (lineNr : nat) (e : error).

(** What a folder pass leaves behind, oldest first: the calls that were
    made, those to storage with what they returned, and the log. *)
Inductive Effect : Type :=
| EvProcessFiles (loaderType : string)
| EvStore (loaderType tntID : string) (lDataSet : list LoaderData)
    (err : option error)
| EvRemove (loaderType tntID : string) (err : option error)
| EvCache (m : CacheMethod) (cachePartition : string) (ids : list string)
| EvLog (l : LogEntry).

(** What the [switch loaderType] of [storeLoadedData] and of
    [removeLoadedData] leaves in the function's variables. *)
Record Persisted : Type := mkPersisted {
  ids : list string;
  cachePartition : string;
  persistErr : option error
}.


Section WithWorld.

(** The data manager and the cache service behind their connections. *)
Context {X : Type}.

Record Env : Type := mkEnv {
  (** [LoaderData.UpdateFromCSV]: the row as the templates of the file
      leave it, also when one of them fails *)
  UpdateFromCSV : string → list string → list agents.FCTemplate →
                  LoaderData → LoaderData * option error;
  (** [LoaderData.TenantID] *)
  TenantID : LoaderData → string;
  (** the [switch loaderType] of [storeLoadedData]: the rows of one
      tenant key are turned into profiles of the type through package
      engine and written with the data manager's [Set] calls, or only
      logged when [dryRun] is set *)
  persistProfiles : X → string → bool → option FlagsWithParams →
                    list LoaderData → X * Persisted;
  (** the [switch loaderType] of [removeLoadedData]: the data manager's
      [Remove] calls on the tenant key *)
  removeProfiles : X → string → bool → string → X * Persisted;
  (** [connMgr.Call] on the cache connections *)
  cacheCall : X → CacheMethod → string → list string → X * option error;
  (** why [os.OpenFile] with [O_CREATE] fails on a name, if it does *)
  createErr : X → string → option error;
  (** why [os.Open] fails on a file that is there, if it does *)
  openErr : X → string → option error;
  (** why [os.Rename] fails on a name, if it does *)
  renameErr : X → string → option error;
  (** why [os.Remove] fails on a file that is there, if it does *)
  removeErr : X → string → option error;
  (** why [ioutil.ReadDir] fails on a folder, if it does *)
  readDirErr : X → string → option error;
  (** whether two paths name one folder *)
  sameDir : X → string → string → bool
}.

Context (env : Env).

(** The state of a run: the loader behind the pointer receiver, the
    two folders (file name to the lines a csv reader with [#] comments
    makes of the file), the services, and what was done so far.
    [inDir] is the folder at [tpInDir] and [outDir] the one at
    [tpOutDir]; when the two paths name one folder, the folder is
    [inDir] and [outDir] is not looked at. *)
Record LS : Type := mkLS {
  ldr : Loader;
  ext : X;
  inDir : gmap string (list readResult);
  outDir : gmap string (list readResult);
  trace : list Effect
}.

Definition emit (e : Effect) : Run LS unit :=
  λ s, ({| ldr := ldr s; ext := ext s; inDir := inDir s;
           outDir := outDir s; trace := trace s ++ [e] |}, Returns tt).

Definition ask {A : Type} (f : X → X * A) : Run LS A :=
  λ s, let '(x, a) := f (ext s) in
       ({| ldr := ldr s; ext := x; inDir := inDir s;
           outDir := outDir s; trace := trace s |}, Returns a).

Definition get {A : Type} (f : LS → A) : Run LS A :=
  λ s, (s, Returns (f s)).

Definition modLdr (f : Loader → Loader) (s : LS) : LS :=
  {| ldr := f (ldr s); ext := ext s; inDir := inDir s;
     outDir := outDir s; trace := trace s |}.

Definition modify (f : LS → LS) : Run LS unit :=
  λ s, (f s, Returns tt).

(** [lockFolder] will attempt to lock the folder by creating the lock
    file: [O_CREATE] makes an empty file unless one is there. *)
Definition lockFolder : Run LS (option error) :=
  λ s, let name := lockFilename (ldr s) in
       match createErr env (ext s) name with
       | Some e => (s, Returns (Some e))
       | None =>
           ({| ldr := ldr s; ext := ext s;
               inDir := match inDir s !! name with
                        | Some _ => inDir s
                        | None => <[ name := [] ]> (inDir s)
                        end;
               outDir := outDir s; trace := trace s |}, Returns None)
       end.

(** [unlockFolder]: [os.Remove] on the lock file.  It is only called
    deferred, and the error it returns is dropped there: a lock file
    that cannot be removed stays. *)
Definition unlockFolder (s : LS) : LS :=
  let name := lockFilename (ldr s) in
  match removeErr env (ext s) name with
  | Some _ => s
  | None =>
      {| ldr := ldr s; ext := ext s; inDir := delete name (inDir s);
         outDir := outDir s; trace := trace s |}
  end.

(** [isFolderLocked] *)
Definition isFolderLocked (s : LS) : bool :=
  bool_decide (is_Some (inDir s !! lockFilename (ldr s))).

(** [unreferenceFile] will cleanup an used file by closing and removing
    from referece map. *)
Definition unreferenceFile (loaderType fName : string) (s : LS) : LS :=
  modLdr (setReader loaderType fName None) s.

(** [ioutil.ReadDir] when it does not fail: the names in the folder,
    sorted. *)
Definition ReadDir (dir : gmap string (list readResult)) : list string :=
  merge_sort (λ a b, Is_true (String.leb a b)) (map_to_list dir).*1.

(** [os.Rename] of a file of the input folder to the same name in the
    output folder, when it does not fail: the file takes the place of
    the file of that name there.  Renaming a file to its own path
    leaves it where it is. *)
Definition rename (fName : string) (s : LS) : LS :=
  if sameDir env (ext s) (tpInDir (ldr s)) (tpOutDir (ldr s)) then s
  else
    {| ldr := ldr s; ext := ext s;
       inDir := delete fName (inDir s);
       outDir := match inDir s !! fName with
                 | Some c => <[ fName := c ]> (outDir s)
                 | None => outDir s
                 end;
       trace := trace s |}.

(** The loop of [moveFiles] over the names it has read. *)
Fixpoint moveFiles_loop (filesInDir : list string) : Run LS (option error) :=
  match filesInDir with
  | [] => mret None
  | fName :: rest =>
      lock ← get (λ s, lockFilename (ldr s));
      if String.eqb fName lock then moveFiles_loop rest
      else
        err ← get (λ s, renameErr env (ext s) fName);
        match err with
        | Some e => mret (Some e)
        | None =>
            _ ← modify (rename fName);
            moveFiles_loop rest
        end
  end.

(** [moveFiles]: the error of [ioutil.ReadDir] is dropped, and the
    loop runs over the nil list it gives beside an error. *)
Definition moveFiles : Run LS (option error) :=
  filesInDir ← get (λ s,
    match readDirErr env (ext s) (tpInDir (ldr s)) with
    | Some _ => []
    | None => ReadDir (inDir s)
    end);
  moveFiles_loop filesInDir.

(** The cache calls that end [storeLoadedData] and [removeLoadedData]. *)
Definition callCache (m : CacheMethod) (cachePartition : string)
    (ids : list string) : Run LS (option error) :=
  _ ← emit (EvCache m cachePartition ids);
  ask (λ x, cacheCall env x m cachePartition ids).

Fixpoint removeItems (cachePartition : string) (ids : list string)
    : Run LS (option error) :=
  match ids with
  | [] => mret None
  | id :: rest =>
      err ← callCache CacheSv1RemoveItem cachePartition [id];
      match err with
      | Some e => mret (Some e)
      | None => removeItems cachePartition rest
      end
  end.

Definition invalidateCache (caching : string) (p : Persisted)
    (itemIDs : list string) : Run LS (option error) :=
  conns ← get (λ s, cacheConns (ldr s));
  if bool_decide (length conns ≠ 0) then
    if String.eqb caching META_NONE then mret None
    else if String.eqb caching MetaReload then
      callCache CacheSv1ReloadCache "" (ids p)
    else if String.eqb caching MetaLoad then
      callCache CacheSv1LoadCache "" (ids p)
    else if String.eqb caching MetaRemove then
      removeItems (cachePartition p) itemIDs
    else if String.eqb caching MetaClear then
      callCache CacheSv1Clear "" []
    else mret None
  else mret None.

(** [storeLoadedData], called on the group of one tenant key. *)
Definition storeLoadedData (loaderType : string) (tntID : string)
    (lDataSet : list LoaderData) (caching : string)
    : Run LS (option error) :=
  l ← get ldr;
  p ← ask (λ x, persistProfiles env x loaderType (dryRun l)
                  (flagsTpls l !! loaderType) lDataSet);
  err ← match persistErr p with
        | Some e => mret (Some e)
        | None => invalidateCache caching p (ids p)
        end;
  _ ← emit (EvStore loaderType tntID lDataSet err);
  mret err.

(** [removeLoadedData] will remove the data from database; since we
    remove we only need the tenant and the ID of the profile. *)
Definition removeLoadedData (loaderType : string) (tntID : string)
    (lDataSet : list LoaderData) (caching : string)
    : Run LS (option error) :=
  l ← get ldr;
  p ← ask (λ x, removeProfiles env x loaderType (dryRun l) tntID);
  err ← match persistErr p with
        | Some e => mret (Some e)
        | None => invalidateCache caching p [tntID]
        end;
  _ ← emit (EvRemove loaderType tntID err);
  mret err.


(** One pass of the inner loop of [processContent] and [removeContent],
    [for fName, rdr := range ldr.rdrs[loaderType]]: the readers as the
    pass leaves them, the row, the two flags, the warnings logged, and
    whether the pass met a reader that is nil. *)
Record RowRead : Type := mkRowRead {
  rrRdrs : readers;
  rrData : LoaderData;
  rrHasErrors : bool;
  rrKeepLooping : bool;
  rrLogs : list Effect;
  rrPanic : bool
}.

Fixpoint readRow (tpls : list agents.FCTemplate) (lineNr : nat)
    (rs : readers) (lData : LoaderData) (hasErrors : bool) : RowRead :=
  match rs with
  | [] =>
      {| rrRdrs := []; rrData := lData; rrHasErrors := hasErrors;
         rrKeepLooping := true; rrLogs := []; rrPanic := false |}
  | (fName, None) :: _ =>
      (* rdr.csvRdr on a nil rdr *)
      {| rrRdrs := rs; rrData := lData; rrHasErrors := hasErrors;
         rrKeepLooping := true; rrLogs := []; rrPanic := true |}
  | (fName, Some rdr) :: rest =>
      match csvRdr rdr with
      | [] =>
          (* io.EOF: keepLooping = false; break *)
          {| rrRdrs := rs; rrData := lData; rrHasErrors := hasErrors;
             rrKeepLooping := false; rrLogs := []; rrPanic := false |}
      | line :: more =>
          let rdr' := {| fileName := fileName rdr; csvRdr := more |} in
          let '(lData', hasErrors', logs) :=
            match line with
            | ReadErr e =>
                (lData, true, [EvLog (LogReadingLine lineNr e)])
            | Rec record =>
                if hasErrors
                then (* if any of the readers will give errors, we
                        ignore the line *)
                     (lData, true, [])
                else match UpdateFromCSV env fName record tpls lData with
                     | (ld, Some e) => (ld, true, [EvLog (LogLine lineNr e)])
                     | (ld, None) => (ld, false, [])
                     end
            end in
          let rr := readRow tpls lineNr rest lData' hasErrors' in
          {| rrRdrs := (fName, Some rdr') :: rrRdrs rr;
             rrData := rrData rr; rrHasErrors := rrHasErrors rr;
             rrKeepLooping := rrKeepLooping rr;
             rrLogs := logs ++ rrLogs rr; rrPanic := rrPanic rr |}
      end
  end.

Definition emitAll (es : list Effect) : Run LS unit :=
  λ s, ({| ldr := ldr s; ext := ext s; inDir := inDir s;
           outDir := outDir s; trace := trace s ++ es |}, Returns tt).

(** The type of [storeLoadedData] and [removeLoadedData]. *)
Definition flusher : Type :=
  string → string → list LoaderData → string → Run LS (option error).

(** What follows the row loop: proceed with last element in
    [bufLoaderData]. *)
Definition flushLast (flush : flusher) (loaderType caching : string)
    : Run LS (option error) :=
  buf ← get (λ s, bufLoaderData (ldr s));
  let tntID := firstKey buf in
  err ← flush loaderType tntID (default [] (buf !! tntID)) caching;
  match err with
  | Some e => mret (Some e)
  | None =>
      _ ← modify (modLdr (withBuf (delete tntID)));
      mret None
  end.

(** The part of one row iteration that follows the inner loop, for a row
    that has data: flush the buffered group of another key, then buffer
    the row.  An error of the flush is what the function returns. *)
Definition bufferRow (flush : flusher) (loaderType caching : string)
    (lData : LoaderData) : Run LS (option error) :=
  let tntID := TenantID env lData in
  buf ← get (λ s, bufLoaderData (ldr s));
  err ← (if negb (bool_decide (is_Some (buf !! tntID)))
            && bool_decide (size buf = 1)
         then (* process previous records before going futher *)
           let prevTntID := firstKey buf in
           err ← flush loaderType prevTntID
                   (default [] (buf !! prevTntID)) caching;
           match err with
           | Some e => mret (Some e)
           | None =>
               _ ← modify (modLdr (withBuf (delete prevTntID)));
               mret None
           end
         else mret None);
  match err with
  | Some e => mret (Some e)
  | None =>
      _ ← modify (modLdr (withBuf
             (λ b, <[ tntID := default [] (b !! tntID) ++ [lData] ]> b)));
      mret None
  end.

(** One iteration of the row loop [for keepLooping { ... }]: the error
    that makes the function return, if any, and [keepLooping]. *)
Definition rowIteration (flush : flusher) (loaderType caching : string)
    (lineNr : nat) : Run LS (option error * bool) :=
  l ← get ldr;
  let rr := readRow (default [] (dataTpls l !! loaderType)) lineNr
              (rdrsOf l loaderType) ∅ false in
  _ ← modify (modLdr (setRdrsOf loaderType (rrRdrs rr)));
  _ ← emitAll (rrLogs rr);
  if rrPanic rr then run_panic
  else
    err ← (if bool_decide (size (rrData rr) = 0)
           then (* no data, could be the last line in file *)
                mret None
           else bufferRow flush loaderType caching (rrData rr));
    mret (err, rrKeepLooping rr).

(** The row loop and what follows it.  [fuel] bounds the iterations; the
    loop that uses it up stands for one that never ends. *)
Fixpoint contentLoop (flush : flusher) (fuel : nat)
    (loaderType caching : string) (lineNr : nat)
    : Run LS (option error) :=
  match fuel with
  | 0 => run_diverge
  | S fuel' =>
      let lineNr := S lineNr in
      row ← rowIteration flush loaderType caching lineNr;
      let err : option error := fst row in
      let keepLooping : bool := snd row in
      match err with
      | Some e => mret (Some e)
      | None =>
          if keepLooping
          then contentLoop flush fuel' loaderType caching lineNr
          else flushLast flush loaderType caching
      end
  end.

(** Iterations that suffice when there is a reader: the first reader
    gives a line in each of them but the last. *)
Definition contentFuel (rs : readers) : nat :=
  match rs with
  | (_, Some rdr) :: _ => S (length (csvRdr rdr))
  | _ => 1
  end.

(** [processContent] will process the contect and will store it into
    database. *)
Definition processContent (loaderType caching : string)
    : Run LS (option error) :=
  l ← get ldr;
  contentLoop storeLoadedData (contentFuel (rdrsOf l loaderType))
    loaderType caching 0.

(** [removeContent] will process the content and will remove it from
    database. *)
Definition removeContent (loaderType caching : string)
    : Run LS (option error) :=
  l ← get ldr;
  contentLoop removeLoadedData (contentFuel (rdrsOf l loaderType))
    loaderType caching 0.

(** The loop of [processFiles] over the file names of the type; the
    deferred [unreferenceFile] of each opened file runs when the
    function is left, last opened first. *)
Fixpoint processFiles_loop (loaderType caching loadOption : string)
    (fNames : list string) : Run LS (option error) :=
  match fNames with
  | [] => mret None
  | fName :: rest =>
      opened ← get (λ s,
        match inDir s !! fName with
        | None => inl ("open " +:+ fName +:+ ": no such file or directory")
        | Some content =>
            match openErr env (ext s) fName with
            | Some e => inl e
            | None => inr content
            end
        end);
      match opened with
      | inl e => mret (Some e)
      | inr content =>
          _ ← modify (modLdr (setReader loaderType fName
                 (Some {| fileName := fName; csvRdr := content |})));
          run_defer
            (err ← (* based on load option will store or remove the
                      content *)
                   (if String.eqb loadOption MetaStore
                    then processContent loaderType caching
                    else if String.eqb loadOption MetaRemove
                    then removeContent loaderType caching
                    else mret None);
             match err with
             | Some e => mret (Some e)
             | None =>
                 processFiles_loop loaderType caching loadOption rest
             end)
            (unreferenceFile loaderType fName)
      end
  end.

Definition processFiles (loaderType caching loadOption : string)
    : Run LS (option error) :=
  _ ← emit (EvProcessFiles loaderType);
  l ← get ldr;
  processFiles_loop loaderType caching loadOption
    (rdrsOf l loaderType).*1.

(** The loop of [ProcessFolder] over the loader types. *)
Fixpoint ProcessFolder_loop (caching loadOption : string)
    (ldrTypes : list string) : Run LS unit :=
  match ldrTypes with
  | [] => mret tt
  | ldrType :: rest =>
      err ← processFiles ldrType caching loadOption;
      _ ← match err with
          | Some e => emit (EvLog (LogCannotOpenFiles ldrType e))
                      (* continue *)
          | None => mret tt
          end;
      ProcessFolder_loop caching loadOption rest
  end.

(** [ProcessFolder] will process the content in the folder with
    locking. *)
Definition ProcessFolder (caching loadOption : string)
    : Run LS (option error) :=
  err ← lockFolder;
  match err with
  | Some e => mret (Some e)
  | None =>
      run_defer
        (l ← get ldr;
         _ ← ProcessFolder_loop caching loadOption (rdrs l).*1;
         moveFiles)
        unlockFolder
  end.

End WithWorld.

Arguments Env X : clear implicits.
Arguments LS X : clear implicits.

End loaders.

(** ** What is read off a run *)

Module observe.
Import utils agents.

(** A run from a world, nothing done yet. *)
Definition from {W : Type} (w : W) : RS W := {| world := w; trace := [] |}.

(** The RPC methods called, in order. *)
Definition rpcCalls (tr : list Effect) : list RPCMethod :=
  omap (λ e, match e with EvCall m _ _ _ => Some m | _ => None end) tr.

(** The processors whose filters passed, in order. *)
Definition matched (tr : list Effect) : list RequestProcessor :=
  omap (λ e, match e with
             | EvPass p true None => Some p
             | _ => None
             end) tr.

(** The variables each processor found in [*vars] when it was entered. *)
Definition varsSeen (tr : list Effect) : list (gmap string string) :=
  omap (λ e, match e with EvProcessRequest _ v => Some v | _ => None end) tr.

(** Whether the fields of kind [k] were evaluated. *)
Definition fieldsRun (k : FieldsKind) (tr : list Effect) : bool :=
  existsb (λ e, match e, k with
                | EvSetFields OfRequest _ _, OfRequest => true
                | EvSetFields OfReply _ _, OfReply => true
                | _, _ => false
                end) tr.

(** The trace without the warnings of the argument extraction. *)
Definition isExtractionLog (e : Effect) : bool :=
  match e with
  | EvLog (LogArgsExtractionFailed _) => true
  | _ => false
  end.

Definition withoutExtractionLog (tr : list Effect) : list Effect :=
  filter (λ e, isExtractionLog e = false) tr.

(** The action RPC of a request type, if it has one. *)
Definition actionRPC (reqType : string) : option RPCMethod :=
  if String.eqb reqType MetaAuthorize then Some SessionSv1AuthorizeEvent
  else if String.eqb reqType MetaInitiate then Some SessionSv1InitiateSession
  else if String.eqb reqType MetaUpdate then Some SessionSv1UpdateSession
  else if String.eqb reqType MetaTerminate then Some SessionSv1TerminateSession
  else if String.eqb reqType MetaMessage then Some SessionSv1ProcessMessage
  else if String.eqb reqType MetaEvent then Some SessionSv1ProcessEvent
  else None.

(** The environment in which the argument extraction reports no error
    and is otherwise the same. *)
Definition silentExtraction {W : Type} (env : Env W) : Env W :=
  {| filterS_Pass := filterS_Pass env;
     SetFields := SetFields env;
     NMAsCGREvent := NMAsCGREvent env;
     NMAsMapInterface := NMAsMapInterface env;
     ExtractArgsFromOpts := λ w opts d c,
       let '(w', (args, _)) := ExtractArgsFromOpts env w opts d c in
       (w', (args, None));
     NewV1ProcessMessageArgs := NewV1ProcessMessageArgs env;
     Call := Call env;
     replyConvErr := replyConvErr env;
     radauthReq := radauthReq env;
     radReplyAppendAttributes := radReplyAppendAttributes env;
     resolveTenant := resolveTenant env;
     RalsErrorPrfx := RalsErrorPrfx env;
     DefaultTenant := DefaultTenant env;
     DefaultTimezone := DefaultTimezone env;
     RequestProcessors := RequestProcessors env |}.

(** The processors that let the loop go on after them. *)
Definition hasContinue (q : RequestProcessor) : Prop :=
  GetBool (Flags q) MetaContinue = true.

(** Two states that differ in extraction warnings only. *)
Definition sameButExtractionLog {W : Type} (s1 s2 : RS W) : Prop :=
  world s1 = world s2
  ∧ withoutExtractionLog (trace s1) = withoutExtractionLog (trace s2).

(** A loop over the processors that runs [processRequest] on each and
    stops as the handlers' loops do; [mkAgReq] is the agent request the
    handler hands to it. *)
Definition handlerLoop {W : Type} (env : Env W) (req : Packet)
    (mkAgReq : W → Locals → RequestProcessor → AgentRequest)
    (loop : list RequestProcessor → Locals → Run (RS W) Locals) : Prop :=
  (∀ l s, loop [] l s = (s, Returns l))
  ∧ ∀ p rest l s,
      loop (p :: rest) l s
      = match processRequest env req p (mkAgReq (world s) l p)
                (lRpl l) s with
        | (s', Returns r) =>
            if bool_decide (prErr r ≠ None)
               || (processed r && negb (GetBool (Flags p) MetaContinue))
            then (s', Returns (afterProcessor l r))
            else loop rest (afterProcessor l r) s'
        | (s', Panics) => (s', Panics)
        | (s', Diverges) => (s', Diverges)
        end.

(** The agent request each handler makes for a processor. *)
Definition authAgReq {W : Type} (env : Env W) (req : Packet) (w : W)
    (l : Locals) (p : RequestProcessor) : AgentRequest :=
  setVars (insert MetaRadReqType MetaRadAuth)
    (NewAgentRequest env w req (reqVars l) (cgrRplyNM l) (rplyNM l)
       (lOpts l) (Tenant p) (DefaultTenant env)
       (FirstNonEmpty (Timezone p) (DefaultTimezone env))).

Definition acctAgReq {W : Type} (env : Env W) (req : Packet) (w : W)
    (l : Locals) (p : RequestProcessor) : AgentRequest :=
  NewAgentRequest env w req (reqVars l) (cgrRplyNM l) (rplyNM l)
    (lOpts l) (Tenant p) (DefaultTenant env)
    (FirstNonEmpty (Timezone p) (DefaultTimezone env)).

End observe.

(** ** A small deployment, for running the definitions *)

Module sample.
Import utils agents observe.

(** The world is what the session service answers a call with: an error,
    or none. *)
Definition sampleEnv (procs : list RequestProcessor) : Env (option error) :=
  {| filterS_Pass := λ w _ filters _,
       (w, (negb (existsb (String.eqb "*string:~*req.User-Name:nobody")
                    filters), None));
     SetFields := λ w tpls ar,
       (w, (ar, if existsb (λ t, Mandatory t && String.eqb (Value t) "") tpls
                then Some "MANDATORY_IE_MISSING" else None));
     NMAsCGREvent := λ w nm tnt,
       (w, {| evTenant := tnt; evID := "ev1"; Event := list_to_map nm |});
     NMAsMapInterface := list_to_map;
     ExtractArgsFromOpts := λ w _ dispatcherFlag _,
       (w, ({| eaArgDispatcher := None;
               eaRoutePaginator :=
                 Some {| Limit := None; Offset := None |} |},
            if dispatcherFlag
            then Some "MANDATORY_IE_MISSING: [ArgDispatcher]" else None));
     NewV1ProcessMessageArgs :=
       λ attrs attrIDs thds thdIDs stats statIDs resrc acnts routes
         routesIgnoreErrs routesEventCost forceDuration,
       {| pmGetAttributes := attrs; pmAttributeIDs := attrIDs;
          pmProcessThresholds := thds; pmThresholdIDs := thdIDs;
          pmProcessStats := stats; pmStatIDs := statIDs;
          pmAllocateResources := resrc; Debit := acnts;
          pmGetRoutes := routes; pmRoutesIgnoreErrors := routesIgnoreErrs;
          pmRoutesMaxCost := routesEventCost;
          pmForceDuration := forceDuration |};
     Call := λ w _ _,
       (w, match w with
           | Some e => (newReply, Some e)
           | None => ({| MaxUsage := 3600000000000;
                         replyFields := {[ "MaxUsage" := "1h0m0s" ]} |},
                      None)
           end);
     replyConvErr := λ _, None;
     radauthReq := λ w _ _ _ rpl, (w, (rpl, (true, None)));
     radReplyAppendAttributes := λ w rpl nm,
       (w, ({| Code := Code rpl; RemoteAddr := RemoteAddr rpl;
               AVPs := AVPs rpl ++ nm |}, None));
     resolveTenant := λ _ tntTpl dflt _ _,
       if String.eqb tntTpl "" then dflt else tntTpl;
     RalsErrorPrfx := "RALS_ERROR";
     DefaultTenant := "cgrates.org";
     DefaultTimezone := "UTC";
     RequestProcessors := procs |}.

Definition sampleReq : Packet :=
  {| Code := "AccountingRequest"; RemoteAddr := "127.0.0.1:1813";
     AVPs := [("User-Name", "1001"); ("Acct-Status-Type", "Start")] |}.

Definition processor (id : string) (filters flags : list string)
    (requestFields : list FCTemplate) : RequestProcessor :=
  {| ID := id; Tenant := ""; Filters := filters;
     Flags := list_to_map ((λ f, (f, [])) <$> flags);
     Timezone := ""; RequestFields := requestFields; ReplyFields := [] |}.

Definition sampleAgReq : AgentRequest :=
  NewAgentRequest (sampleEnv []) None sampleReq
    {[ RemoteHost := RemoteAddr sampleReq ]} ∅ [] [] "" "cgrates.org" "UTC".

Definition sampleRpl : Packet :=
  Packet_withCode AccountingResponse (Packet_Reply sampleReq).


Definition usageField : FCTemplate :=
  {| Tag := "Usage"; Path := "*cgreq.Usage"; Type_ := "*constant";
     Value := "10s"; FieldFilters := []; Mandatory := false;
     Blocker := false |}.


Definition terminate : RequestProcessor :=
  processor "Terminate" [] [MetaTerminate; MetaCDRs] [usageField].

Definition noActionNoMatch : RequestProcessor :=
  processor "NoAction" ["*string:~*req.User-Name:nobody"] [] [].

Definition noAction : RequestProcessor :=
  processor "NoAction" [] [] [usageField].

Definition message : RequestProcessor :=
  processor "Message" [] [MetaMessage; MetaAccounts] [usageField].

Definition logOnly : RequestProcessor :=
  processor "Log" [] [META_NONE; MetaContinue; MetaLog] [].

(** The answer of a rating service without funds. *)
Definition noCredit : option error := Some "RALS_ERROR:*insufficient_credit".

(** A terminate processor behind dispatchers: the sample extraction has
    no dispatcher arguments to give it. *)
Definition dispatched : RequestProcessor :=
  processor "Dispatched" [] [MetaTerminate; MetaDispatchers; MetaLog]
    [usageField].

(** The variable of [*vars] that a path names, if it names one. *)
Definition varOfPath (path : string) : option string :=
  if String.prefix "*vars." path
  then Some (String.substring 6 (String.length path - 6) path)
  else None.

(** The sample deployment with templates that write: a template whose
    path is in [*vars] puts its value there. *)
Definition writeVars (tpls : list FCTemplate) (ar : AgentRequest)
    : AgentRequest :=
  foldl (λ ar t, match varOfPath (Path t) with
                 | Some k => setVars (insert k (Value t)) ar
                 | None => ar
                 end) ar tpls.

Definition writingEnv (procs : list RequestProcessor)
    : Env (option error) :=
  {| filterS_Pass := filterS_Pass (sampleEnv procs);
     SetFields := λ w tpls ar,
       (w, (writeVars tpls ar, (SetFields (sampleEnv procs) w tpls ar).2.2));
     NMAsCGREvent := NMAsCGREvent (sampleEnv procs);
     NMAsMapInterface := NMAsMapInterface (sampleEnv procs);
     ExtractArgsFromOpts := ExtractArgsFromOpts (sampleEnv procs);
     NewV1ProcessMessageArgs := NewV1ProcessMessageArgs (sampleEnv procs);
     Call := Call (sampleEnv procs);
     replyConvErr := replyConvErr (sampleEnv procs);
     radauthReq := radauthReq (sampleEnv procs);
     radReplyAppendAttributes := radReplyAppendAttributes (sampleEnv procs);
     resolveTenant := resolveTenant (sampleEnv procs);
     RalsErrorPrfx := RalsErrorPrfx (sampleEnv procs);
     DefaultTenant := DefaultTenant (sampleEnv procs);
     DefaultTimezone := DefaultTimezone (sampleEnv procs);
     RequestProcessors := procs |}.

Definition sourceField : FCTemplate :=
  {| Tag := "Source"; Path := "*vars.Source"; Type_ := "*constant";
     Value := "radius"; FieldFilters := []; Mandatory := false;
     Blocker := false |}.

(** A processor that tags the request and lets the next one run. *)
Definition tagSource : RequestProcessor :=
  processor "Tag" [] [META_NONE; MetaContinue] [sourceField].

End sample.

(** ** What is read off a folder pass *)

Module loaderObserve.
Import utils loaders.

(** The stores a run made: type, tenant key and rows. *)
Definition stores (tr : list Effect)
    : list (string * string * list LoaderData) :=
  omap (λ e, match e with
             | EvStore t k g _ => Some (t, k, g)
             | _ => None
             end) tr.

(** The loader types a run attempted. *)
Definition attempted (tr : list Effect) : list string :=
  omap (λ e, match e with EvProcessFiles t => Some t | _ => None end) tr.

(** The error of a call to storage that failed. *)
Definition flushError (e : Effect) : option error :=
  match e with
  | EvStore _ _ _ err => err
  | EvRemove _ _ err => err
  | _ => None
  end.

(** No call to storage failed. *)
Definition noFailure (evs : list Effect) : Prop :=
  Forall (λ e, flushError e = None) evs.

(** The run made of [evs] with outcome [o] stopped at the first call to
    storage that failed, and returned its error. *)
Definition stopsAtFailure (evs : list Effect) (o : outcome (option error))
    : Prop :=
  noFailure evs
  ∨ ∃ pre e err,
      evs = pre ++ [e] ∧ flushError e = Some err ∧ noFailure pre
      ∧ o = Returns (Some err).

(** The loader types attempted after the first call to storage that
    failed. *)
Fixpoint attemptedAfterFailure (evs : list Effect) : list string :=
  match evs with
  | [] => []
  | e :: evs' =>
      match flushError e with
      | Some _ => attempted evs'
      | None => attemptedAfterFailure evs'
      end
  end.

(** The buffer holds at most one tenant key. *)
Definition oneKey {X : Type} (s : LS X) : Prop :=
  (size (bufLoaderData (ldr s)) ≤ 1)%nat.

(** The states between the row iterations of a content pass that starts
    in [s0]: those reached by iterations that neither return nor end the
    loop. *)
Inductive betweenRows {X : Type} (env : Env X) (flush : flusher)
    (loaderType caching : string) (s0 : LS X) : nat → LS X → Prop :=
| between_first : betweenRows env flush loaderType caching s0 0 s0
| between_next lineNr s s' :
    betweenRows env flush loaderType caching s0 lineNr s →
    rowIteration env flush loaderType caching (S lineNr) s
    = (s', Returns (None, true)) →
    betweenRows env flush loaderType caching s0 (S lineNr) s'.

(** What a pass never changes in the loader: the lock file name, the
    loader types with their file names, and the paths of the two
    folders. *)
Definition shape (l : Loader) : list (string * list string) :=
  (λ tr : string * readers, (tr.1, tr.2.*1)) <$> rdrs l.

Definition sameConfig {X : Type} (s s' : LS X) : Prop :=
  lockFilename (ldr s') = lockFilename (ldr s)
  ∧ shape (ldr s') = shape (ldr s)
  ∧ tpInDir (ldr s') = tpInDir (ldr s)
  ∧ tpOutDir (ldr s') = tpOutDir (ldr s).

(** A computation that adds [evs] to the trace and ends in [o], with
    [Q evs o], from every state. *)
Definition traces {X A : Type} (m : Run (LS X) A)
    (Q : list Effect → outcome A → Prop) : Prop :=
  ∀ s, ∃ evs, trace (m s).1 = trace s ++ evs ∧ Q evs (m s).2.

(** A computation that leaves the loader and the two folders as they
    are: the calls to storage and to the cache. *)
Definition keepsLoader {X A : Type} (m : Run (LS X) A) : Prop :=
  ∀ s, ldr (m s).1 = ldr s ∧ inDir (m s).1 = inDir s
       ∧ outDir (m s).1 = outDir s.

(** A computation that keeps the configuration of the loader. *)
Definition keepsConfig {X A : Type} (m : Run (LS X) A) : Prop :=
  ∀ s, sameConfig s (m s).1.

(** The two functions a content pass flushes with. *)
Definition isFlusher {X : Type} (env : Env X) (flush : flusher) : Prop :=
  flush = storeLoadedData env ∨ flush = removeLoadedData env.

End loaderObserve.

Module sampleLoader.
Import utils loaders loaderObserve.

(** The world is the list of loader types whose storage is down. *)
Definition sampleEnv : Env (list string) :=
  {| UpdateFromCSV := λ fName record _ ld,
       if String.eqb fName "Attributes.csv" then
         match record with
         | [tnt; id] => (<[ "Tenant" := tnt ]> (<[ "ID" := id ]> ld), None)
         | _ => (ld, Some "wrong number of fields")
         end
       else
         match record with
         | [v] => (<[ fName := v ]> ld, None)
         | _ => (ld, Some "wrong number of fields")
         end;
     TenantID := λ ld,
       default "" (ld !! "Tenant") +:+ ":" +:+ default "" (ld !! "ID");
     persistProfiles := λ x loaderType _ _ _,
       (x, {| ids := []; cachePartition := "";
              persistErr := if existsb (String.eqb loaderType) x
                            then Some "DB_DOWN" else None |});
     removeProfiles := λ x loaderType _ _,
       (x, {| ids := []; cachePartition := "";
              persistErr := if existsb (String.eqb loaderType) x
                            then Some "DB_DOWN" else None |});
     cacheCall := λ x _ _ _, (x, None);
     createErr := λ _ _, None;
     openErr := λ _ _, None;
     renameErr := λ _ _, None;
     removeErr := λ _ _, None;
     readDirErr := λ _ _, None;
     sameDir := λ _, String.eqb |}.

Definition sampleLoader (rs : list (string * readers)) : Loader :=
  {| enabled := true; dryRun := false; ldrID := "sample";
     tpInDir := "/var/spool/cgrates/loader/in";
     tpOutDir := "/var/spool/cgrates/loader/out";
     lockFilename := ".cgr.lck"; fieldSep := ",";
     dataTpls := ∅; flagsTpls := ∅; rdrs := rs; bufLoaderData := ∅;
     timezone := "UTC"; cacheConns := [] |}.

Definition start (x : list string) (l : Loader)
    (files : list (string * list readResult)) : LS (list string) :=
  {| ldr := l; ext := x; inDir := list_to_map files; outDir := ∅;
     trace := [] |}.

(** Two loader types, one file each. *)
Definition twoTypes : Loader :=
  sampleLoader [ (MetaAttributes, [("Attributes.csv", None)]);
                 (MetaThresholds, [("Thresholds.csv", None)]) ].

Definition twoTypesFiles : list (string * list readResult) :=
  [ ("Attributes.csv", [Rec ["cgrates.org"; "ATTR_1"]]);
    ("Thresholds.csv", [Rec ["THD_1"]]) ].

(** One loader type with its two files open: the first gives a record,
    the second a line that does not parse. *)
Definition twoReaders : Loader :=
  sampleLoader
    [ (MetaAttributes,
       [ ("Attributes.csv",
          Some {| fileName := "Attributes.csv";
                  csvRdr := [Rec ["cgrates.org"; "ATTR_1"]] |});
         ("Weights.csv",
          Some {| fileName := "Weights.csv";
                  csvRdr := [ReadErr "record on line 1: wrong number of fields"] |}) ]) ].

End sampleLoader.
(** ** What a folder pass keeps *)

Module loaderInvariants.
Import utils loaders loaderObserve.

(** A computation that ends, from every state, in a state that [R]
    relates to the one it started in. *)
Definition keeps {X A : Type} (R : LS X → LS X → Prop) (m : Run (LS X) A)
    : Prop :=
  ∀ s, R s (m s).1.

(** A computation that returns or panics: no loop of it goes on for
    ever. *)
Definition halts {X A : Type} (m : Run (LS X) A) : Prop :=
  ∀ s, (m s).2 ≠ Diverges.

(** The readers are what they were. *)
Definition sameRdrs {X : Type} (s s' : LS X) : Prop :=
  rdrs (ldr s') = rdrs (ldr s).

Global Instance sameRdrs_preorder {X : Type} : PreOrder (@sameRdrs X).
Proof.
  split; [by intros s|]. intros s1 s2 s3 H1 H2. unfold sameRdrs in *.
  congruence.
Qed.

(** The file of a loader type is open: its reader is not nil. *)
Definition isOpen (l : Loader) (loaderType fName : string) : Prop :=
  ∃ rdr, assoc fName (rdrsOf l loaderType) = Some (Some rdr).

(** Every file that is open in the end was open at the start. *)
Definition opensNothing {X : Type} (s s' : LS X) : Prop :=
  ∀ loaderType fName,
    isOpen (ldr s') loaderType fName → isOpen (ldr s) loaderType fName.

Global Instance opensNothing_preorder {X : Type} : PreOrder (@opensNothing X).
Proof.
  split; [by intros s t f Ho|]. intros s1 s2 s3 H1 H2 t f Ho.
  by apply H1, H2.
Qed.

(** The loader types attempted are those that were. *)
Definition sameAttempted {X : Type} (s s' : LS X) : Prop :=
  attempted (trace s') = attempted (trace s).

Global Instance sameAttempted_preorder {X : Type} : PreOrder (@sameAttempted X).
Proof.
  split; [by intros s|]. intros s1 s2 s3 H1 H2. unfold sameAttempted in *.
  congruence.
Qed.

(** The stores made are those that were. *)
Definition sameStores {X : Type} (s s' : LS X) : Prop :=
  stores (trace s') = stores (trace s).

Global Instance sameStores_preorder {X : Type} : PreOrder (@sameStores X).
Proof.
  split; [by intros s|]. intros s1 s2 s3 H1 H2. unfold sameStores in *.
  congruence.
Qed.

(** [stopsAtFailure] for a function that returns its error beside
    other values. *)
Definition stopsWith {A : Type} (errOf : A → option error)
    (evs : list Effect) (o : outcome A) : Prop :=
  noFailure evs
  ∨ ∃ pre e err a,
      evs = pre ++ [e] ∧ flushError e = Some err ∧ noFailure pre
      ∧ o = Returns a ∧ errOf a = Some err.

(** A computation none of whose calls to storage fails. *)
Definition quiet {X A : Type} (m : Run (LS X) A) : Prop :=
  traces m (λ evs _, noFailure evs).

(** The two folders and the services are what they were. *)
Definition sameFolders {X : Type} (s s' : LS X) : Prop :=
  inDir s' = inDir s ∧ outDir s' = outDir s.

Global Instance sameFolders_preorder {X : Type} : PreOrder (@sameFolders X).
Proof.
  split; [by intros s|]. intros s1 s2 s3 [H1 H2] [H3 H4].
  split; congruence.
Qed.

(** A reader that is open and has a line left. *)
Definition hasLine (p : string * option openedCSVFile) : Prop :=
  ∃ rdr line more, p.2 = Some rdr ∧ csvRdr rdr = line :: more.

(** A reader after one [Read] that gave a line. *)
Definition advance (p : string * option openedCSVFile)
    : string * option openedCSVFile :=
  (p.1, (λ rdr, {| fileName := fileName rdr; csvRdr := tail (csvRdr rdr) |})
          <$> p.2).

(** The content pass that [processFiles] selects by the load option:
    its [switch loadOption]. *)
Definition selected {X : Type} (env : Env X)
    (loaderType caching loadOption : string) : Run (LS X) (option error) :=
  if String.eqb loadOption MetaStore
  then processContent env loaderType caching
  else if String.eqb loadOption MetaRemove
  then removeContent env loaderType caching
  else mret None.

End loaderInvariants.

Module sampleFolder.
Import utils loaders loaderObserve sampleLoader.

(** The sample services on a file system where the file of the
    thresholds cannot be renamed. *)
Definition renameDown : Env (list string) :=
  {| UpdateFromCSV := UpdateFromCSV sampleEnv;
     TenantID := TenantID sampleEnv;
     persistProfiles := persistProfiles sampleEnv;
     removeProfiles := removeProfiles sampleEnv;
     cacheCall := cacheCall sampleEnv;
     createErr := createErr sampleEnv;
     openErr := openErr sampleEnv;
     renameErr := λ _ fName,
       if String.eqb fName "Thresholds.csv"
       then Some "rename Thresholds.csv: permission denied" else None;
     removeErr := removeErr sampleEnv;
     readDirErr := readDirErr sampleEnv;
     sameDir := sameDir sampleEnv |}.

(** The sample services on a file system where the lock file cannot be
    removed. *)
Definition removeDown : Env (list string) :=
  {| UpdateFromCSV := UpdateFromCSV sampleEnv;
     TenantID := TenantID sampleEnv;
     persistProfiles := persistProfiles sampleEnv;
     removeProfiles := removeProfiles sampleEnv;
     cacheCall := cacheCall sampleEnv;
     createErr := createErr sampleEnv;
     openErr := openErr sampleEnv;
     renameErr := renameErr sampleEnv;
     removeErr := λ _ fName, Some ("remove " +:+ fName
                                   +:+ ": permission denied");
     readDirErr := readDirErr sampleEnv;
     sameDir := sameDir sampleEnv |}.


(** The sample services with templates for [Attributes.csv] that
    decode the tenant of a record and then fail on a record without
    identifier. *)
Definition partialDecode : Env (list string) :=
  {| UpdateFromCSV := λ fName record tpls ld,
       match record with
       | [tnt] =>
           if String.eqb fName "Attributes.csv"
           then (<[ "Tenant" := tnt ]> ld, Some "NOT_FOUND:ID")
           else UpdateFromCSV sampleEnv fName record tpls ld
       | _ => UpdateFromCSV sampleEnv fName record tpls ld
       end;
     TenantID := TenantID sampleEnv;
     persistProfiles := persistProfiles sampleEnv;
     removeProfiles := removeProfiles sampleEnv;
     cacheCall := cacheCall sampleEnv;
     createErr := createErr sampleEnv;
     openErr := openErr sampleEnv;
     renameErr := renameErr sampleEnv;
     removeErr := removeErr sampleEnv;
     readDirErr := readDirErr sampleEnv;
     sameDir := sameDir sampleEnv |}.

(** One loader type whose file is open, as [processFiles] leaves it
    for the content pass, with a record that has no identifier. *)
Definition halfRecord : Loader :=
  sampleLoader
    [ (MetaAttributes,
       [ ("Attributes.csv",
          Some {| fileName := "Attributes.csv";
                  csvRdr := [Rec ["cgrates.org"]] |}) ]) ].


(** One loader type without a file. *)
Definition noFiles : Loader := sampleLoader [ (MetaAttributes, []) ].

End sampleFolder.

(** ** The CSV file exporter ([ees.FileCSVee]) *)

Module ees.
Import utils.

(** A value with an error beside it, as Go returns them. *)
Inductive result (A : Type) : Type :=
| Ok (a : A)
| Err (e : error).
Arguments Ok {A} a.
Arguments Err {A} e.

(** The values kept in the [utils.MapStorage] of an export, by their
    dynamic type: a type assertion on another type, or on a missing
    key, panics.  An [int64] and a [time.Duration] wrap at 64 bits, an
    [int] at the size the platform gives it; a [float64] is known by
    its bits; a [time.Time] by the nanoseconds since the zero time. *)
Inductive DCVal : Type :=
| DCInt (n : Z)
| DCInt64 (n : Z)
| DCFloat64 (bits : Z)
| DCTime (t : Z)
| DCDuration (d : Z)
| DCStringSet (ss : gset string)
| DCString (s : string).

Abbreviation MapStorage := (gmap string DCVal).

(** Two's complement on [bits] bits. *)
Definition wrap (bits : Z) (z : Z) : Z :=
  ((z + 2 ^ (bits - 1)) mod 2 ^ bits - 2 ^ (bits - 1))%Z.

Definition wrap64 (z : Z) : Z := wrap 64 z.

(** [dc[k].(int)] and the like: [None] is the panic of the assertion. *)
Definition asInt (v : option DCVal) : option Z :=
  match v with Some (DCInt n) => Some n | _ => None end.
Definition asInt64 (v : option DCVal) : option Z :=
  match v with Some (DCInt64 n) => Some n | _ => None end.
Definition asFloat64 (v : option DCVal) : option Z :=
  match v with Some (DCFloat64 b) => Some b | _ => None end.
Definition asTime (v : option DCVal) : option Z :=
  match v with Some (DCTime t) => Some t | _ => None end.
Definition asDuration (v : option DCVal) : option Z :=
  match v with Some (DCDuration d) => Some d | _ => None end.
Definition asStringSet (v : option DCVal) : option (gset string) :=
  match v with Some (DCStringSet ss) => Some ss | _ => None end.

(** [config.EventExporterCfg], as far as the exporter reads it. *)
Record EventExporterCfg : Type := mkEventExporterCfg {
  ecID : string;
  ExportPath : string;
  FieldSep : string;
  ContentFields : list agents.FCTemplate;
  HeaderFields : list agents.FCTemplate;
  TrailerFields : list agents.FCTemplate
}.

(** A [csv.Writer] on the file of the exporter, by the field the
    exporter sets: its delimiter.  What it writes is the business of
    packages csv, bufio and os. *)
Record Writer : Type := mkWriter {
  Comma : Z
}.

(** [FileCSVee] implements the [EventExporter] interface for .csv
    files.  [file] is the path of the file that was created, [None] for
    the nil pointer; [locked] is the embedded mutex. *)
Record FileCSVee : Type := mkFileCSVee {
  id : string;
  cfgIdx : nat;
  file : option string;
  csvWriter : option Writer;
  locked : bool;
  dc : MapStorage
}.

Definition withDC (f : MapStorage → MapStorage) (x : FileCSVee)
    : FileCSVee :=
  {| id := id x; cfgIdx := cfgIdx x; file := file x;
     csvWriter := csvWriter x; locked := locked x; dc := f (dc x) |}.

Definition withLocked (b : bool) (x : FileCSVee) : FileCSVee :=
  {| id := id x; cfgIdx := cfgIdx x; file := file x;
     csvWriter := csvWriter x; locked := b; dc := dc x |}.

Definition withWriter (w : option Writer) (x : FileCSVee) : FileCSVee :=
  {| id := id x; cfgIdx := cfgIdx x; file := file x;
     csvWriter := w; locked := locked x; dc := dc x |}.

Definition withFile (f : option string) (x : FileCSVee) : FileCSVee :=
  {| id := id x; cfgIdx := cfgIdx x; file := f;
     csvWriter := csvWriter x; locked := locked x; dc := dc x |}.

Inductive LogEntry : Type :=
| LogComposedTrailer (id : string) (e : error)
| LogClosingFile (id : string) (e : error).

(** What a run leaves behind, oldest first. *)
Inductive Effect : Type :=
| EvSetFields (fields : list agents.FCTemplate) (dcSeen : MapStorage)
    (err : option error)
| EvWrite (record : list string) (err : option error)
| EvCreate (path : string) (err : option error)
| EvFlush
| EvClose (err : option error)
| EvLog (l : LogEntry).

(** [rune(s[0])]: the first byte of the string. *)
Definition firstByte (s : string) : option Z :=
  match s with
  | EmptyString => None
  | String a _ => Some (Z.of_nat (Ascii.nat_of_ascii a))
  end.

Section WithWorld.

(** The world outside the exporter; the requests of package ees and the
    elements of their ordered maps. *)
Context {W R E : Type}.

Record Env : Type := mkEnv {
  (** the keys of the counters, named in package utils *)
  ExportID : string;
  NumberOfEvents : string;
  NegativeExports : string;
  PositiveExports : string;
  FirstEventATime : string;
  LastEventATime : string;
  FirstExpOrderID : string;
  LastExpOrderID : string;
  TotalCost : string;
  TotalDuration : string;
  TotalSMSUsage : string;
  TotalMMSUsage : string;
  TotalGenericUsage : string;
  TotalDataUsage : string;
  (** the fields of an event, named in package utils *)
  AnswerTime : string;
  OrderID : string;
  Cost : string;
  ToR : string;
  Usage : string;
  (** the types of record, named in package utils *)
  VOICE : string;
  SMS : string;
  MMS : string;
  GENERIC : string;
  DATA : string;
  Underline : string;
  CSVSuffix : string;
  CSV_SEP : Z;
  (** [strconv.IntSize]: the bits of an [int] *)
  IntSize : Z;
  (** [path.Join] of a folder and a name *)
  path_Join : string → string → string;
  (** [cgrCfg.EEsCfg().Exporters] and [cgrCfg.GeneralCfg()] *)
  Exporters : list EventExporterCfg;
  DefaultTimezone : string;
  DefaultTenant : string;
  (** [NewEventExporterRequest], on the event's fields (nil for a
      header or a trailer), the tenant and the timezone; the counters it
      is given are those of the exporter, the same map *)
  NewEventExporterRequest : option (gmap string Iface) → string → string →
                            R;
  (** [eeReq.SetFields]: the request and the counters as the templates
      leave them, also when one of them fails *)
  SetFields : W → list agents.FCTemplate → R → MapStorage →
              W * (R * MapStorage * option error);
  (** the elements of [eeReq.cnt], [eeReq.hdr] and [eeReq.trl], first to
      last *)
  cntElements : R → list E;
  hdrElements : R → list E;
  trlElements : R → list E;
  (** [FieldAsString] of the three maps on the path of an element *)
  cntFieldAsString : R → E → result string;
  hdrFieldAsString : R → E → result string;
  trlFieldAsString : R → E → result string;
  (** the typed readers of [utils.CGREvent] *)
  FieldAsTime : agents.CGREvent → string → string → result Z;
  FieldAsInt64 : agents.CGREvent → string → result Z;
  FieldAsFloat64 : agents.CGREvent → string → result Z;
  FieldAsString : agents.CGREvent → string → result string;
  FieldAsDuration : agents.CGREvent → string → result Z;
  (** the sum of two [float64] *)
  addFloat64 : Z → Z → Z;
  (** [utils.UUIDSha1Prefix] *)
  UUIDSha1Prefix : W → W * string;
  (** [os.Create] of a path: the error it returns, if any *)
  osCreate : W → string → W * option error;
  (** [csv.Writer.Write] of a record with a delimiter: what it returns,
      an error for a delimiter it does not take or for what could not
      be written *)
  csvWrite : W → Z → list string → W * option error;
  (** [csv.Writer.Flush]: it returns nothing *)
  csvFlush : W → W;
  (** [Close] of the file of a path: the error it returns, if any *)
  fileClose : W → string → W * option error
}.

Context (env : Env).

(** The state of a run: the exporter behind the pointer receiver, the
    world, and what was done so far. *)
Record ES : Type := mkES {
  fCsv : FileCSVee;
  world : W;
  trace : list Effect
}.

Definition emit (e : Effect) : Run ES unit :=
  λ s, ({| fCsv := fCsv s; world := world s; trace := trace s ++ [e] |},
        Returns tt).

Definition ask {A : Type} (f : W → W * A) : Run ES A :=
  λ s, let '(w, a) := f (world s) in
       ({| fCsv := fCsv s; world := w; trace := trace s |}, Returns a).

Definition get {A : Type} (f : ES → A) : Run ES A :=
  λ s, (s, Returns (f s)).

Definition modExp (f : FileCSVee → FileCSVee) : Run ES unit :=
  λ s, ({| fCsv := f (fCsv s); world := world s; trace := trace s |},
        Returns tt).

(** [x.(T)] on what [asT] made of it. *)
Definition assert {A : Type} (v : option A) : Run ES A :=
  match v with
  | Some a => mret a
  | None => run_panic
  end.

(** [fCsv.dc[k]] and [fCsv.dc[k] = v]. *)
Definition dcGet (k : string) : Run ES (option DCVal) :=
  get (λ s, dc (fCsv s) !! k).

Definition dcSet (k : string) (v : DCVal) : Run ES unit :=
  modExp (withDC (insert k v)).

(** [fCsv.cgrCfg.EEsCfg().Exporters[fCsv.cfgIdx]] *)
Definition exporterCfg : Run ES EventExporterCfg :=
  idx ← get (λ s, cfgIdx (fCsv s));
  assert (Exporters env !! idx).

(** [fCsv.Lock()]: a mutex that is held stays held in a run of one
    goroutine, and the call does not return. *)
Definition Lock : Run ES unit :=
  get (λ s, locked (fCsv s)) ≫= λ held : bool,
  if held then run_diverge else modExp (withLocked true).

(** [fCsv.Unlock()], as a deferred call. *)
Definition Unlock (s : ES) : ES :=
  {| fCsv := withLocked false (fCsv s); world := world s;
     trace := trace s |}.

(** [eeReq.SetFields] on the counters of the exporter. *)
Definition setFields (fields : list agents.FCTemplate) (eeReq : R)
    : Run ES (R * option error) :=
  dcSeen ← get (λ s, dc (fCsv s));
  set ← ask (λ w, SetFields env w fields eeReq dcSeen);
  let eeReq' : R := set.1.1 in
  let dc' : MapStorage := set.1.2 in
  let err : option error := set.2 in
  _ ← modExp (withDC (λ _, dc'));
  _ ← emit (EvSetFields fields dcSeen err);
  mret (eeReq', err).

(** The loops over the elements of an ordered map: the strings of the
    elements, up to the first that has none. *)
Fixpoint fieldsAsStrings (fieldAsString : E → result string)
    (els : list E) (csvRecord : list string) : result (list string) :=
  match els with
  | [] => Ok csvRecord
  | el :: els' =>
      match fieldAsString el with
      | Err e => Err e
      | Ok strVal => fieldsAsStrings fieldAsString els' (csvRecord ++ [strVal])
      end
  end.

(** [fCsv.csvWriter.Write(csvRecord)], on a writer that may be nil. *)
Definition write (csvRecord : list string) : Run ES (option error) :=
  w ← get (λ s, csvWriter (fCsv s));
  assert w ≫= λ w : Writer,
  err ← ask (λ x, csvWrite env x (Comma w) csvRecord);
  _ ← emit (EvWrite csvRecord err);
  mret err.

(** The counters [ExportEvent] brings up to date once the record is
    composed, one [if ...; err == nil] each, in the order of the
    source. *)
Definition updateATime (cgrEv : agents.CGREvent) : Run ES unit :=
  match FieldAsTime env cgrEv (AnswerTime env) (DefaultTimezone env) with
  | Err _ => mret tt
  | Ok aTime =>
      v ← dcGet (FirstEventATime env);
      assert (asTime v) ≫= λ first : Z,
      _ ← (if (first =? 0)%Z || (first <? aTime)%Z
           then dcSet (FirstEventATime env) (DCTime aTime)
           else mret tt);
      v ← dcGet (LastEventATime env);
      assert (asTime v) ≫= λ last : Z,
      if (last <? aTime)%Z
      then dcSet (LastEventATime env) (DCTime aTime)
      else mret tt
  end.

Definition updateOrderID (cgrEv : agents.CGREvent) : Run ES unit :=
  match FieldAsInt64 env cgrEv (OrderID env) with
  | Err _ => mret tt
  | Ok oID =>
      v ← dcGet (FirstExpOrderID env);
      assert (asInt64 v) ≫= λ first : Z,
      _ ← (if (oID <? first)%Z || (first =? 0)%Z
           then dcSet (FirstExpOrderID env) (DCInt64 oID)
           else mret tt);
      v ← dcGet (LastExpOrderID env);
      assert (asInt64 v) ≫= λ last : Z,
      if (last <? oID)%Z
      then dcSet (LastExpOrderID env) (DCInt64 oID)
      else mret tt
  end.

Definition updateCost (cgrEv : agents.CGREvent) : Run ES unit :=
  match FieldAsFloat64 env cgrEv (Cost env) with
  | Err _ => mret tt
  | Ok cost =>
      v ← dcGet (TotalCost env);
      assert (asFloat64 v) ≫= λ total : Z,
      dcSet (TotalCost env) (DCFloat64 (addFloat64 env total cost))
  end.

(** [fCsv.dc[k] = fCsv.dc[k].(time.Duration) + usage] *)
Definition addUsage (k : string) (usage : Z) : Run ES unit :=
  v ← dcGet k;
  assert (asDuration v) ≫= λ total : Z,
  dcSet k (DCDuration (wrap64 (total + usage))).

Definition updateUsage (cgrEv : agents.CGREvent) : Run ES unit :=
  match FieldAsString env cgrEv (ToR env) with
  | Err _ => mret tt
  | Ok tor =>
      match FieldAsDuration env cgrEv (Usage env) with
      | Err _ => mret tt
      | Ok usage =>
          if String.eqb tor (VOICE env) then
            addUsage (TotalDuration env) usage
          else if String.eqb tor (SMS env) then
            addUsage (TotalSMSUsage env) usage
          else if String.eqb tor (MMS env) then
            addUsage (TotalMMSUsage env) usage
          else if String.eqb tor (GENERIC env) then
            addUsage (TotalGenericUsage env) usage
          else if String.eqb tor (DATA env) then
            addUsage (TotalDataUsage env) usage
          else mret tt
      end
  end.

(** [fCsv.dc[k].(utils.StringSet).Add(id)] *)
Definition addExport (k : string) (evID : string) : Run ES unit :=
  v ← dcGet k;
  assert (asStringSet v) ≫= λ ss : gset string,
  dcSet k (DCStringSet ({[ evID ]} ∪ ss)).

(** What [ExportEvent] does between [Lock] and the deferred [Unlock]. *)
Definition exportLocked (cgrEv : agents.CGREvent)
    : Run ES (option error) :=
  v ← dcGet (NumberOfEvents env);
  assert (asInt v) ≫= λ n : Z,
  _ ← dcSet (NumberOfEvents env) (DCInt (wrap (IntSize env) (n + 1)));
  let req := agents.Event cgrEv in
  let eeReq := NewEventExporterRequest env (Some req)
                 (agents.evTenant cgrEv) (DefaultTimezone env) in
  cfg ← exporterCfg;
  set ← setFields (ContentFields cfg) eeReq;
  let eeReq : R := set.1 in
  let err : option error := set.2 in
  match err with
  | Some e =>
      _ ← addExport (NegativeExports env) (agents.evID cgrEv);
      mret (Some e)
  | None =>
      match fieldsAsStrings (cntFieldAsString env eeReq)
              (cntElements env eeReq) [] with
      | Err e => mret (Some e)
      | Ok csvRecord =>
          _ ← updateATime cgrEv;
          _ ← updateOrderID cgrEv;
          _ ← updateCost cgrEv;
          _ ← updateUsage cgrEv;
          _ ← addExport (PositiveExports env) (agents.evID cgrEv);
          _ ← write csvRecord;
          mret None
      end
  end.

(** [ExportEvent] implements [EventExporter]. *)
Definition ExportEvent (cgrEv : agents.CGREvent) : Run ES (option error) :=
  _ ← Lock;
  run_defer (exportLocked cgrEv) Unlock.

(** Compose and cache the header. *)
Definition composeHeader : Run ES (option error) :=
  cfg ← exporterCfg;
  if bool_decide (length (HeaderFields cfg) = 0) then mret None
  else
    let eeReq := NewEventExporterRequest env None (DefaultTenant env)
                   (DefaultTimezone env) in
    cfg ← exporterCfg;
    set ← setFields (HeaderFields cfg) eeReq;
    let eeReq : R := set.1 in
    let err : option error := set.2 in
    match err with
    | Some e => mret (Some e)
    | None =>
        match fieldsAsStrings (hdrFieldAsString env eeReq)
                (hdrElements env eeReq) [] with
        | Err e => mret (Some e)
        | Ok csvRecord => write csvRecord
        end
    end.

(** Compose and cache the trailer. *)
Definition composeTrailer : Run ES (option error) :=
  cfg ← exporterCfg;
  if bool_decide (length (TrailerFields cfg) = 0) then mret None
  else
    let eeReq := NewEventExporterRequest env None (DefaultTenant env)
                   (DefaultTimezone env) in
    cfg ← exporterCfg;
    set ← setFields (TrailerFields cfg) eeReq;
    let eeReq : R := set.1 in
    let err : option error := set.2 in
    match err with
    | Some e => mret (Some e)
    | None =>
        match fieldsAsStrings (trlFieldAsString env eeReq)
                (trlElements env eeReq) [] with
        | Err e => mret (Some e)
        | Ok csvRecord => write csvRecord
        end
    end.

(** [fCsv.csvWriter.Flush()], on a writer that may be nil. *)
Definition flush : Run ES unit :=
  w ← get (λ s, csvWriter (fCsv s));
  assert w ≫= λ _ : Writer,
  _ ← ask (λ x, (csvFlush env x, tt));
  emit EvFlush.

(** [fCsv.file.Close()]: [Close] on the nil file gives [os.ErrInvalid]. *)
Definition close : Run ES (option error) :=
  f ← get (λ s, file (fCsv s));
  err ← match f with
        | None => mret (Some "invalid argument")
        | Some p => ask (λ x, fileClose env x p)
        end;
  _ ← emit (EvClose err);
  mret err.

(** [OnEvicted] implements [EventExporter], doing the cleanup before
    exit. *)
Definition OnEvicted : Run ES unit :=
  (* verify if we need to add the trailer *)
  err ← composeTrailer;
  ident ← get (λ s, id (fCsv s));
  _ ← match err with
      | Some e => emit (EvLog (LogComposedTrailer ident e))
      | None => mret tt
      end;
  _ ← flush;
  err ← close;
  match err with
  | Some e => emit (EvLog (LogClosingFile ident e))
  | None => mret tt
  end.

(** [init] will create all the necessary dependencies, including
    opening the file. *)
Definition init : Run ES (option error) :=
  (* create the file *)
  cfg ← exporterCfg;
  ident ← get (λ s, id (fCsv s));
  uuid ← ask (UUIDSha1Prefix env);
  let p := path_Join env (ExportPath cfg)
             (ident +:+ Underline env +:+ uuid +:+ CSVSuffix env) in
  err ← ask (λ x, osCreate env x p);
  _ ← emit (EvCreate p err);
  match err with
  | Some e =>
      _ ← modExp (withFile None);
      mret (Some e)
  | None =>
      _ ← modExp (withFile (Some p));
      _ ← modExp (withWriter (Some {| Comma := CSV_SEP env |}));
      cfg ← exporterCfg;
      _ ← match firstByte (FieldSep cfg) with
          | Some b => modExp (withWriter (Some {| Comma := b |}))
          | None => mret tt
          end;
      composeHeader
  end.

(** [ID] returns the identificator of this exporter. *)
Definition ID (x : FileCSVee) : string := id x.

(** [NewFileCSVee]: the exporter is returned beside the error of
    [init]; a nil [dc] cannot take the export's identifier. *)
Definition NewFileCSVee (idx : nat) (dcArg : option MapStorage) (w : W)
    : ES * outcome (option error) :=
  let blank :=
    {| fCsv := {| id := ""; cfgIdx := idx; file := None;
                  csvWriter := None; locked := false; dc := ∅ |};
       world := w; trace := [] |} in
  match Exporters env !! idx with
  | None => (blank, Panics)
  | Some cfg =>
      match dcArg with
      | None => (blank, Panics)
      | Some dc0 =>
          init {| fCsv := {| id := ecID cfg; cfgIdx := idx; file := None;
                             csvWriter := None; locked := false;
                             dc := <[ ExportID env := DCString (ecID cfg) ]>
                                     dc0 |};
                  world := w; trace := [] |}
      end
  end.

End WithWorld.

Arguments Env W R E : clear implicits.
Arguments ES W : clear implicits.

End ees.

(** ** What is read off a run of the exporter *)

Module eesObserve.
Import utils ees.

Section WithWorld.
Context {W R E : Type}.

(** A computation that ends, from every state, in a state that [Rel]
    relates to the one it started in. *)
Definition ekeeps {A : Type} (Rel : ES W → ES W → Prop)
    (m : Run (ES W) A) : Prop :=
  ∀ s, Rel s (m s).1.

(** A computation that returns or panics. *)
Definition ehalts {A : Type} (m : Run (ES W) A) : Prop :=
  ∀ s, (m s).2 ≠ Diverges.

(** The keys of the counters. *)
Definition counters (env : Env W R E) : list string :=
  [ ExportID env; NumberOfEvents env; NegativeExports env;
    PositiveExports env; FirstEventATime env; LastEventATime env;
    FirstExpOrderID env; LastExpOrderID env; TotalCost env;
    TotalDuration env; TotalSMSUsage env; TotalMMSUsage env;
    TotalGenericUsage env; TotalDataUsage env ].

(** The keys are what they are in package utils: names that differ. *)
Definition distinctCounters (env : Env W R E) : Prop :=
  NoDup (counters env).

(** The templates [fields] read the counters and leave them as they
    are. *)
Definition readsCounters (env : Env W R E)
    (fields : list agents.FCTemplate) : Prop :=
  ∀ w eeReq dc0, (SetFields env w fields eeReq dc0).2.1.2 = dc0.

(** So do the templates of the content of every exporter configured. *)
Definition contentReadsCounters (env : Env W R E) : Prop :=
  ∀ cfg, cfg ∈ Exporters env → readsCounters env (ContentFields cfg).

(** Nothing has changed but the counters under the keys [ks]. *)
Definition sameButDC (ks : list string) (s s' : ES W) : Prop :=
  trace s' = trace s ∧ world s' = world s
  ∧ id (fCsv s') = id (fCsv s) ∧ cfgIdx (fCsv s') = cfgIdx (fCsv s)
  ∧ file (fCsv s') = file (fCsv s)
  ∧ csvWriter (fCsv s') = csvWriter (fCsv s)
  ∧ locked (fCsv s') = locked (fCsv s)
  ∧ ∀ k, k ∉ ks → dc (fCsv s') !! k = dc (fCsv s) !! k.

(** The counters that [ExportEvent] brings up to date from the fields
    of the event. *)
Definition metricKeys (env : Env W R E) : list string :=
  [ FirstEventATime env; LastEventATime env; FirstExpOrderID env;
    LastExpOrderID env; TotalCost env; TotalDuration env;
    TotalSMSUsage env; TotalMMSUsage env; TotalGenericUsage env;
    TotalDataUsage env ].

(** What holds at the start holds at the end. *)
Definition preserves (I : ES W → Prop) (s s' : ES W) : Prop := I s → I s'.

(** The first order identifier exported is not above the last. *)
Definition ordered (env : Env W R E) (s : ES W) : Prop :=
  ∃ first last,
    dc (fCsv s) !! FirstExpOrderID env = Some (DCInt64 first)
    ∧ dc (fCsv s) !! LastExpOrderID env = Some (DCInt64 last)
    ∧ (first ≤ last)%Z.


(** The calls to [SetFields] of a run, each with the counters it was
    given. *)
Definition setFieldsCalls (tr : list Effect)
    : list (MapStorage * option error) :=
  omap (λ e, match e with
             | EvSetFields _ dcSeen err => Some (dcSeen, err)
             | _ => None
             end) tr.

(** The records handed to the writer, each with what [Write] said. *)
Definition writes (tr : list Effect) : list (list string * option error) :=
  omap (λ e, match e with
             | EvWrite record err => Some (record, err)
             | _ => None
             end) tr.

(** The identifiers exported, or not, so far. *)
Definition exportsUnder (k : string) (s : ES W) : option (gset string) :=
  asStringSet (dc (fCsv s) !! k).

(** The types of record whose usage is totalled, each with the counter
    of its total, in the order of the [switch] of [ExportEvent]. *)
Definition usageTotals (env : Env W R E) : list (string * string) :=
  [ (VOICE env, TotalDuration env); (SMS env, TotalSMSUsage env);
    (MMS env, TotalMMSUsage env); (GENERIC env, TotalGenericUsage env);
    (DATA env, TotalDataUsage env) ].

(** The types of record are what they are in package utils: names that
    differ. *)
Definition distinctToRs (env : Env W R E) : Prop :=
  NoDup (usageTotals env).*1.

(** The exporter is what it was, its counters apart. *)
Definition sameExporter (s s' : ES W) : Prop :=
  id (fCsv s') = id (fCsv s) ∧ cfgIdx (fCsv s') = cfgIdx (fCsv s)
  ∧ file (fCsv s') = file (fCsv s)
  ∧ csvWriter (fCsv s') = csvWriter (fCsv s)
  ∧ locked (fCsv s') = locked (fCsv s).

(** What composing the header or the trailer from [fields] leaves, on
    an exporter that has a writer: it returns, having handed at most
    one record to the writer, and then with what [Write] returned. *)
Definition composed (env : Env W R E) (fields : list agents.FCTemplate)
    (s : ES W) (r : ES W * outcome (option error)) : Prop :=
  ∃ s1 err evs,
    r = (s1, Returns err)
    ∧ trace s1 = trace s ++ evs
    ∧ sameExporter s s1
    ∧ (fields = [] → evs = [] ∧ err = None)
    ∧ (writes evs = [] ∨ ∃ record, writes evs = [(record, err)])
    ∧ (readsCounters env fields → dc (fCsv s1) = dc (fCsv s)).

End WithWorld.

Global Instance sameButDC_preorder {W : Type} (ks : list string) :
  PreOrder (@sameButDC W ks).
Proof.
  split.
  - by intros s.
  - intros s1 s2 s3 (H1 & H2 & H3 & H4 & H5 & H6 & H7 & H8)
      (H1' & H2' & H3' & H4' & H5' & H6' & H7' & H8').
    repeat split; try congruence.
    intros k Hk. by rewrite H8', H8.
Qed.

Global Instance sameExporter_preorder {W : Type} :
  PreOrder (@sameExporter W).
Proof.
  split.
  - by intros s.
  - intros s1 s2 s3 (H1 & H2 & H3 & H4 & H5) (H1' & H2' & H3' & H4' & H5').
    repeat split; congruence.
Qed.

Global Instance preserves_preorder {W : Type} (I : ES W → Prop) :
  PreOrder (preserves I).
Proof.
  split; [intros s H; exact H|]. intros s1 s2 s3 H1 H2 H. by apply H2, H1.
Qed.

End eesObserve.

(** ** A sample exporter *)

Module sampleExporter.
Import utils ees eesObserve.

(** A request of the sample: the fields of the event and the strings
    composed so far. *)
Record Request : Type := mkRequest {
  rqEvent : option (gmap string Iface);
  rqStrings : list (result string)
}.

Definition ifaceString (v : Iface) : string :=
  match v with
  | IString s => s
  | IInt _ => "<int>"
  | IDuration _ => "<duration>"
  end.

(** The string a template of the sample composes: a constant, or the
    field of the event that its value names. *)
Definition compose (rq : option (gmap string Iface))
    (t : agents.FCTemplate) : result string :=
  if String.eqb (agents.Type_ t) "*constant" then Ok (agents.Value t)
  else
    match rq ≫= (λ ev, ev !! agents.Value t) with
    | Some v => Ok (ifaceString v)
    | None => Err ("NOT_FOUND:" +:+ agents.Value t)
    end.

Definition fieldOf (ev : agents.CGREvent) (k : string) : option Iface :=
  agents.Event ev !! k.

(** The sample services: a template whose field is missing and that is
    mandatory fails [SetFields], one that is not mandatory fails
    [FieldAsString]; the world counts the names drawn for files. *)
Definition sampleEnvWith (create : nat → string → nat * option error)
    (exporters : list EventExporterCfg)
    : Env nat Request (result string) :=
  {| ExportID := "ExportID";
     NumberOfEvents := "NumberOfEvents";
     NegativeExports := "NegativeExports";
     PositiveExports := "PositiveExports";
     FirstEventATime := "FirstEventATime";
     LastEventATime := "LastEventATime";
     FirstExpOrderID := "FirstExpOrderID";
     LastExpOrderID := "LastExpOrderID";
     TotalCost := "TotalCost";
     TotalDuration := "TotalDuration";
     TotalSMSUsage := "TotalSMSUsage";
     TotalMMSUsage := "TotalMMSUsage";
     TotalGenericUsage := "TotalGenericUsage";
     TotalDataUsage := "TotalDataUsage";
     AnswerTime := "AnswerTime";
     OrderID := "OrderID";
     Cost := "Cost";
     ToR := "ToR";
     Usage := "Usage";
     VOICE := "*voice";
     SMS := "*sms";
     MMS := "*mms";
     GENERIC := "*generic";
     DATA := "*data";
     Underline := "_";
     CSVSuffix := ".csv";
     CSV_SEP := 44;
     IntSize := 64;
     path_Join := λ dir name, dir +:+ "/" +:+ name;
     Exporters := exporters;
     DefaultTimezone := "UTC";
     DefaultTenant := "cgrates.org";
     NewEventExporterRequest := λ rq _ _,
       {| rqEvent := rq; rqStrings := [] |};
     SetFields := λ w fields eeReq dc0,
       let composed := compose (rqEvent eeReq) <$> fields in
       let failed :=
         omap (λ t, match compose (rqEvent eeReq) t with
                    | Err e => if agents.Mandatory t then Some e else None
                    | Ok _ => None
                    end) fields in
       (w, ({| rqEvent := rqEvent eeReq; rqStrings := composed |}, dc0,
            head failed));
     cntElements := rqStrings;
     hdrElements := rqStrings;
     trlElements := rqStrings;
     cntFieldAsString := λ _ el, el;
     hdrFieldAsString := λ _ el, el;
     trlFieldAsString := λ _ el, el;
     FieldAsTime := λ ev k _,
       match fieldOf ev k with
       | Some (IInt t) => Ok t
       | Some _ => Err "cannot convert to time"
       | None => Err "NOT_FOUND"
       end;
     FieldAsInt64 := λ ev k,
       match fieldOf ev k with
       | Some (IInt n) => Ok n
       | Some _ => Err "cannot convert to int64"
       | None => Err "NOT_FOUND"
       end;
     FieldAsFloat64 := λ ev k,
       match fieldOf ev k with
       | Some (IInt n) => Ok n
       | Some _ => Err "cannot convert to float64"
       | None => Err "NOT_FOUND"
       end;
     FieldAsString := λ ev k,
       match fieldOf ev k with
       | Some v => Ok (ifaceString v)
       | None => Err "NOT_FOUND"
       end;
     FieldAsDuration := λ ev k,
       match fieldOf ev k with
       | Some (IDuration d) => Ok d
       | Some _ => Err "cannot convert to duration"
       | None => Err "NOT_FOUND"
       end;
     addFloat64 := Z.add;
     UUIDSha1Prefix := λ w, (S w, "0a1b2c3");
     osCreate := create;
     csvWrite := λ w _ _, (w, None);
     csvFlush := λ w, w;
     fileClose := λ w _, (w, None) |}.

(** A folder where files can be created, and one where they cannot. *)
Definition sampleEnv : list EventExporterCfg →
                       Env nat Request (result string) :=
  sampleEnvWith (λ w _, (w, None)).

Definition diskFull : list EventExporterCfg →
                      Env nat Request (result string) :=
  sampleEnvWith (λ w _, (w, Some "no space left on device")).

Definition field (tag type value : string) (mandatory : bool)
    : agents.FCTemplate :=
  {| agents.Tag := tag; agents.Path := "*exp." +:+ tag;
     agents.Type_ := type; agents.Value := value;
     agents.FieldFilters := []; agents.Mandatory := mandatory;
     agents.Blocker := false |}.

(** An exporter of two columns, with a header and no trailer. *)
Definition cdrs : EventExporterCfg :=
  {| ecID := "CSVExporter"; ExportPath := "/var/spool/cgrates/ees";
     FieldSep := ",";
     ContentFields := [ field "Account" "*variable" "Account" true;
                        field "Destination" "*variable" "Destination"
                          false ];
     HeaderFields := [ field "Account" "*constant" "Account" false;
                       field "Destination" "*constant" "Destination"
                         false ];
     TrailerFields := [] |}.

(** The counters at their zero values. *)
Definition zeroCounters : MapStorage :=
  list_to_map
    [ ("NumberOfEvents", DCInt 0);
      ("NegativeExports", DCStringSet ∅);
      ("PositiveExports", DCStringSet ∅);
      ("FirstEventATime", DCTime 0);
      ("LastEventATime", DCTime 0);
      ("FirstExpOrderID", DCInt64 0);
      ("LastExpOrderID", DCInt64 0);
      ("TotalCost", DCFloat64 0);
      ("TotalDuration", DCDuration 0);
      ("TotalSMSUsage", DCDuration 0);
      ("TotalMMSUsage", DCDuration 0);
      ("TotalGenericUsage", DCDuration 0);
      ("TotalDataUsage", DCDuration 0) ].

(** The exporter that [NewFileCSVee] makes of the sample. *)
Definition fresh (dc0 : option MapStorage) : ES nat :=
  (NewFileCSVee (sampleEnv [cdrs]) 0 dc0 0).1.

Definition call : agents.CGREvent :=
  {| agents.evTenant := "cgrates.org"; agents.evID := "ev1";
     agents.Event :=
       list_to_map
         [ ("Account", IString "1001"); ("Destination", IString "1002");
           ("AnswerTime", IInt 1600000000); ("OrderID", IInt 7);
           ("Cost", IInt 12); ("ToR", IString "*voice");
           ("Usage", IDuration 60) ] |}.

(** An event without the mandatory field, and one without the other. *)
Definition noAccount : agents.CGREvent :=
  {| agents.evTenant := "cgrates.org"; agents.evID := "ev2";
     agents.Event := list_to_map [ ("Destination", IString "1002") ] |}.

Definition noDestination : agents.CGREvent :=
  {| agents.evTenant := "cgrates.org"; agents.evID := "ev3";
     agents.Event := list_to_map [ ("Account", IString "1001") ] |}.

End sampleExporter.


Module RadiusAgentProps.
Import utils agents observe.

Ltac unfold_monad :=
  unfold agents.setFields, agents.call, agents.emit, agents.ask,
    agents.look, from;
  unfold mbind, mret, Run_bind, Run_ret, run_bind, run_ret, run_panic.

Ltac simp_run :=
  cbn [fst snd world trace processed prErr prAgReq prRpl prCgrEv
       swAgReq swCgrEv swRpl swReturn] in *.

(** Decide the comparisons of two string literals. *)
Ltac eval_eqb :=
  repeat match goal with
  | |- context [String.eqb ?a ?b] =>
      let v := eval vm_compute in (String.eqb a b) in
      lazymatch v with
      | true => change (String.eqb a b) with true
      | false => change (String.eqb a b) with false
      end
  end; cbv iota.

(** One case split of a symbolic run: on a string comparison, or on the
    innermost scrutinee. *)
Ltac case_step :=
  first
  [ match goal with
    | |- context [String.eqb ?a ?b] =>
        destruct (String.eqb_spec a b); [subst a; eval_eqb|]
    end
  | match goal with
    | |- context [match ?x with _ => _ end] =>
      lazymatch x with
      | context [match _ with _ => _ end] => fail
      | _ => destruct x eqn:?
      end
    end ]; simp_run.

Lemma isErr_Some (e : error) (D : Decision (Some e ≠ None)) :
  @bool_decide _ D = true.
Proof. by apply bool_decide_eq_true_2. Qed.

Lemma isErr_None (D : Decision (@None error ≠ None)) :
  @bool_decide _ D = false.
Proof. apply bool_decide_eq_false_2. by intros []. Qed.

(** Case splits of a symbolic run of [processRequest], the switch kept
    as a whole. *)
Ltac pr_step :=
  first
  [ match goal with
    | |- context [bool_decide (?x ≠ None)] =>
        is_var x; destruct x; rewrite ?isErr_Some, ?isErr_None
    | |- context [negb ?x] => is_var x; destruct x
    end
  | match goal with
    | |- context [match ?x with _ => _ end] =>
      lazymatch x with
      | context [match _ with _ => _ end] => fail
      | _ => destruct x eqn:?
      end
    end ]; cbn [orb andb negb]; simp_run.

Lemma matched_app (a b : list Effect) :
  matched (a ++ b) = matched a ++ matched b.
Proof. apply omap_app. Qed.

Lemma varsSeen_app (a b : list Effect) :
  varsSeen (a ++ b) = varsSeen a ++ varsSeen b.
Proof. apply omap_app. Qed.

Lemma rpcCalls_app (a b : list Effect) :
  rpcCalls (a ++ b) = rpcCalls a ++ rpcCalls b.
Proof. apply omap_app. Qed.

Lemma fieldsRun_app (k : FieldsKind) (a b : list Effect) :
  fieldsRun k (a ++ b) = fieldsRun k a || fieldsRun k b.
Proof. apply existsb_app. Qed.

Lemma withoutExtractionLog_app (a b : list Effect) :
  withoutExtractionLog (a ++ b)
  = withoutExtractionLog a ++ withoutExtractionLog b.
Proof. apply filter_app. Qed.

Lemma withoutExtractionLog_cons (e : Effect) (l : list Effect) :
  withoutExtractionLog (e :: l)
  = if isExtractionLog e then withoutExtractionLog l
    else e :: withoutExtractionLog l.
Proof.
  unfold withoutExtractionLog. rewrite filter_cons.
  destruct (isExtractionLog e); by case_decide.
Qed.

Lemma withoutExtractionLog_nil : withoutExtractionLog [] = [].
Proof. done. Qed.

(** Read the observations off a trace that is a concatenation of known
    events and of segments with known observations. *)
Ltac observe_one f e :=
  let v := eval cbn in (f e) in change (f e) with v.

Ltac observe_pass :=
  rewrite ?matched_app, ?varsSeen_app, ?rpcCalls_app, ?fieldsRun_app,
    ?withoutExtractionLog_app;
  repeat match goal with
    | H : matched _ = _ |- _ => rewrite H
    | H : varsSeen _ = _ |- _ => rewrite H
    | H : fieldsRun _ _ = _ |- _ => rewrite H
    | H : withoutExtractionLog _ = _ |- _ => rewrite H
    end;
  repeat match goal with
    | |- context [matched (?e :: ?l)] => observe_one matched (e :: l)
    | |- context [matched []] => observe_one matched (@nil Effect)
    | |- context [varsSeen (?e :: ?l)] => observe_one varsSeen (e :: l)
    | |- context [varsSeen []] => observe_one varsSeen (@nil Effect)
    | |- context [rpcCalls (?e :: ?l)] => observe_one rpcCalls (e :: l)
    | |- context [rpcCalls []] => observe_one rpcCalls (@nil Effect)
    | |- context [fieldsRun ?k (?e :: ?l)] =>
        observe_one (fieldsRun k) (e :: l)
    | |- context [fieldsRun ?k []] => observe_one (fieldsRun k) (@nil Effect)
    end;
  rewrite ?withoutExtractionLog_cons, ?withoutExtractionLog_nil;
  cbn [app orb isExtractionLog];
  rewrite ?app_nil_r, ?orb_false_r, ?orb_true_r.

Ltac observe := observe_pass; repeat (progress observe_pass).

Ltac unfold_types :=
  cbv [META_NONE MetaDryRun MetaAuthorize MetaInitiate MetaUpdate
       MetaTerminate MetaMessage MetaCDRs MetaEvent MetaRadauth].

Lemma usage_set (k : string) (v : Iface) (ev : CGREvent) :
  Event (setEvent k v ev) !! k = Some v.
Proof. apply lookup_insert_eq. Qed.

Section WithEnv.
Context {W : Type} (env : Env W).

(** The switch reads the world and adds to the trace: two runs from
    the same world add the same events and end alike.  What the events
    are, by request type. *)
Lemma switchReqType_run reqType req p agReq rpl cgrEv opts cgrArgs
    (s1 s2 : RS W) :
  world s1 = world s2 →
  let r1 := switchReqType env reqType req p agReq rpl cgrEv opts cgrArgs s1 in
  let r2 := switchReqType env reqType req p agReq rpl cgrEv opts cgrArgs s2 in
  ∃ evs,
    trace r1.1 = trace s1 ++ evs ∧ trace r2.1 = trace s2 ++ evs
    ∧ world r1.1 = world r2.1 ∧ r1.2 = r2.2
    ∧ r1.2 ≠ Diverges
    ∧ matched evs = [] ∧ varsSeen evs = []
    ∧ fieldsRun OfRequest evs = false ∧ fieldsRun OfReply evs = false
    ∧ withoutExtractionLog evs = evs
    ∧ (rpcCalls evs = []
       ∨ ∃ m, actionRPC reqType = Some m ∧ rpcCalls evs = [m])
    ∧ (∀ sw m, r1.2 = Returns sw → swReturn sw = None →
               actionRPC reqType = Some m → rpcCalls evs = [m])
    ∧ (∀ sw b e, r1.2 = Returns sw → swReturn sw = Some (b, e) →
                 b = false ∧ e ≠ None).
Proof.
  destruct s1 as [w t1], s2 as [w2 t2]; cbn [world]; intros <-.
  unfold switchReqType, recordReply, setCGRReply, actionRPC.
  unfold_monad. unfold_types. cbn [world trace].
  repeat case_step.
  all: try (exfalso; discriminate).
  all: rewrite <- ?app_assoc;
    first [ eexists; split; [reflexivity|]
          | exists []; split; [symmetry; apply app_nil_r|] ];
    rewrite ?app_nil_r.
  all: repeat (split; [first [reflexivity | discriminate]|]).
  all: split; [first [left; reflexivity
                     | right; eexists; split; reflexivity]|].
  all: split; [intros sw m Hsw Hret Hact; simplify_eq/=; done|].
  all: intros sw' b' e' Hsw Hret; simplify_eq/=; done.
Qed.

(** A type outside the precedence list takes the default case. *)
Lemma switchReqType_unknown reqType req p agReq rpl cgrEv opts cgrArgs
    (s : RS W) :
  reqType ∉ requestTypes →
  switchReqType env reqType req p agReq rpl cgrEv opts cgrArgs s
  = (s, Returns {| swAgReq := agReq; swCgrEv := cgrEv; swRpl := rpl;
                   swReturn := Some (false,
                     Some ("unknown request type: <" +:+ reqType
                           +:+ ">")) |}).
Proof.
  unfold requestTypes. rewrite !not_elem_of_cons.
  intros (?&?&?&?&?&?&?&?&?&?&_).
  unfold switchReqType. unfold_monad.
  repeat match goal with
  | |- context [String.eqb ?a ?b] =>
      destruct (String.eqb_spec a b); [congruence|]
  end.
  reflexivity.
Qed.

(** What the message and event cases do to [Usage]. *)
Lemma switchReqType_usage reqType req p agReq rpl cgrEv opts cgrArgs
    (s : RS W) :
  let r := switchReqType env reqType req p agReq rpl cgrEv opts cgrArgs s in
  ∀ evs, trace r.1 = trace s ++ evs →
  ∀ m args rply err, In (EvCall m args rply err) evs →
  ∃ sw, r.2 = Returns sw
    ∧ (ErrHasPrefix err (RalsErrorPrfx env) = true →
       m = SessionSv1ProcessMessage ∨ m = SessionSv1ProcessEvent →
       swReturn sw = None
       ∧ Event (swCgrEv sw) !! Usage = Some (IInt 0))
    ∧ (ErrHasPrefix err (RalsErrorPrfx env) = false →
       ∀ evArgs c a pg op,
         args = V1ProcessMessage evArgs c a pg op →
         Debit evArgs = true →
         Event (swCgrEv sw) !! Usage = Some (IDuration (MaxUsage rply)))
    ∧ (ErrHasPrefix err (RalsErrorPrfx env) = false →
       m = SessionSv1ProcessEvent →
       HasKey (Flags p) MetaAuth || HasKey (Flags p) MetaInit
         || HasKey (Flags p) MetaUpdate = true →
       Event (swCgrEv sw) !! Usage = Some (IDuration (MaxUsage rply))).
Proof.
  destruct s as [w t]. cbn zeta.
  unfold switchReqType, recordReply, setCGRReply.
  unfold_monad. unfold_types. cbn [world trace].
  repeat case_step.
  all: intros evs Hevs; rewrite <- ?app_assoc in Hevs;
    first [ apply app_inv_head in Hevs
          | rewrite <- (app_nil_r t) in Hevs at 1;
            apply app_inv_head in Hevs ];
    subst evs; cbn [In app]; intros m args rply err Hin;
    destruct_or?; try done; simplify_eq.
  all: eexists; split; [reflexivity|]; cbn [swReturn swCgrEv].
  all: repeat split; intros; destruct_or?; simplify_eq;
    try done; try congruence; try apply usage_set.
Qed.

(** The switch from a state is the switch from its world, with the
    events appended to the state's trace. *)
Lemma switchReqType_frame reqType req p agReq rpl cgrEv opts cgrArgs
    (s : RS W) :
  switchReqType env reqType req p agReq rpl cgrEv opts cgrArgs s
  = let r := switchReqType env reqType req p agReq rpl cgrEv opts cgrArgs
               (from (world s)) in
    ({| world := world r.1; trace := trace s ++ trace r.1 |}, r.2).
Proof.
  destruct (switchReqType_run reqType req p agReq rpl cgrEv opts cgrArgs
              s (from (world s)) eq_refl)
    as (evs & H1 & H2 & Hw & Ho & _).
  cbn zeta.
  destruct (switchReqType env reqType req p agReq rpl cgrEv opts cgrArgs s)
    as [[w1 t1] o1].
  destruct (switchReqType env reqType req p agReq rpl cgrEv opts cgrArgs
              (from (world s))) as [[w2 t2] o2].
  cbn in *. by subst.
Qed.

Ltac frame_switch :=
  match goal with
  | |- context [switchReqType env ?rt ?rq ?pp ?ag ?rp ?ce ?op ?ca
                  {| world := ?w; trace := ?t |}] =>
      lazymatch t with
      | [] => fail
      | _ => rewrite (switchReqType_frame rt rq pp ag rp ce op ca
                        {| world := w; trace := t |});
             cbn [world trace from]
      end
  end.

Lemma processRequest_frame req p agReq rpl (s : RS W) :
  processRequest env req p agReq rpl s
  = let r := processRequest env req p agReq rpl (from (world s)) in
    ({| world := world r.1; trace := trace s ++ trace r.1 |}, r.2).
Proof.
  destruct s as [w t]. cbn zeta.
  unfold processRequest. unfold_monad. cbn [world trace].
  repeat first [frame_switch | pr_step].
  all: cbn [app]; rewrite <- ?app_assoc; cbn [app]; try reflexivity.
Qed.

(** Run [processRequest] symbolically, the switch summarised by
    [switchReqType_run] and [switchReqType_usage]. *)
Ltac run_processRequest :=
  unfold processRequest; unfold_monad; cbn [world trace];
  repeat pr_step;
  try match goal with
    | H : switchReqType _ ?rt ?rq ?pp ?ag ?rp ?ce ?op ?ca ?s0 = (?s', ?o)
      |- _ =>
        let L := fresh "L" in
        let U := fresh "U" in
        pose proof (switchReqType_run rt rq pp ag rp ce op ca s0 s0
                      eq_refl) as L;
        pose proof (switchReqType_usage rt rq pp ag rp ce op ca s0) as U;
        cbn zeta in L, U; rewrite H in L, U;
        destruct L as (evs&L&_&_&_&?&?&?&?&?&?&?&?&?);
        specialize (U evs L);
        destruct s'; cbn [fst snd world trace] in *; subst; clear H
    end;
  rewrite <- ?app_assoc.

Lemma processRequest_trace req p agReq rpl (s : RS W) :
  let r := processRequest env req p agReq rpl s in
  ∃ evs, trace r.1 = trace s ++ evs
    ∧ r.2 ≠ Diverges
    ∧ varsSeen evs = [Vars agReq]
    ∧ (matched evs = [] ∨ matched evs = [p])
    ∧ (∀ x, r.2 = Returns x → prErr x = None →
         (processed x = true ↔ matched evs = [p])).
Proof.
  destruct s as [w t]. cbn zeta.
  unfold processRequest. unfold_monad. cbn [world trace].
  repeat pr_step.
  all: try match goal with
    | H : switchReqType _ ?rt ?rq ?pp ?ag ?rp ?ce ?op ?ca ?s0 = (?s', ?o)
      |- _ =>
        let L := fresh in
        pose proof (switchReqType_run rt rq pp ag rp ce op ca s0 s0
                      eq_refl) as L;
        cbn zeta in L; rewrite H in L;
        destruct L as (evs&L&_&_&_&?&?&?&?&?&?&?&?&?);
        destruct s'; cbn [fst snd world trace] in *; subst; clear H
    end.

  all: rewrite <- ?app_assoc;
    (eexists; split; [reflexivity|]).
  all: repeat match goal with b : bool |- _ => destruct b end.
  all: observe.
  all: repeat split; try done; auto.
  all: intros; simplify_eq/=; try done.
  all: match goal with
    | H : ∀ sw b e, Returns ?a = Returns sw → _, H' : swReturn ?a = _
      |- _ => by destruct (H _ _ _ eq_refl H')
    end.
Qed.


(** The loop over the precedence list stops at the first type that the
    flags have. *)
Lemma firstFlag_first (flags : FlagsWithParams) (typs : list string) :
  (∃ before after,
      typs = before ++ firstFlag flags typs :: after
      ∧ HasKey flags (firstFlag flags typs) = true
      ∧ Forall (λ t, HasKey flags t = false) before)
  ∨ (firstFlag flags typs = ""
     ∧ Forall (λ t, HasKey flags t = false) typs).
Proof.
  induction typs as [|typ typs IH]; cbn [firstFlag].
  - right. split; [done|constructor].
  - destruct (HasKey flags typ) eqn:Htyp.
    + left. exists [], typs. by repeat split.
    + destruct IH as [(before & after & Heq & Hhas & Hnot)|[Hnone Hnot]].
      * left. exists (typ :: before), after.
        split; [by rewrite Heq at 1|]. split; [done|by constructor].
      * right. split; [done|by constructor].
Qed.

(** C2 (amended).  The request type of a processor is the first of
    [*dryrun], [*authorize], [*initiate], [*update], [*terminate],
    [*message], [*cdrs], [*event], [*none], [*radauth] that its flags
    have.  When the flags have none of them and the processor got as
    far as the flags (its filters passed and its request fields were
    set), [processRequest] returns the unknown-request-type error,
    reports the processor as not processed, and has called nothing. *)
Theorem processRequest_request_type w req p agReq rpl :
  let r := processRequest env req p agReq rpl (from w) in
  let tr := trace r.1 in
  let reqType := reqTypeOf (Flags p) in
  ((∃ typ, typ ∈ requestTypes ∧ HasKey (Flags p) typ = true) →
   ∃ before after,
     requestTypes = before ++ reqType :: after
     ∧ HasKey (Flags p) reqType = true
     ∧ Forall (λ t, HasKey (Flags p) t = false) before)
  ∧ ((∀ typ, typ ∈ requestTypes → HasKey (Flags p) typ = false) →
     In (EvSetFields OfRequest (ID p) None) tr →
     ∃ x, r.2 = Returns x
       ∧ processed x = false
       ∧ prErr x = Some "unknown request type: <>"
       ∧ rpcCalls tr = []
       ∧ fieldsRun OfReply tr = false).
Proof.
  cbn zeta. split.
  - intros (typ & Hin & Hhas).
    destruct (firstFlag_first (Flags p) requestTypes)
      as [?|[_ Hnot]]; [done|].
    rewrite Forall_forall in Hnot. specialize (Hnot _ Hin). congruence.
  - intros Hnone.
    assert (reqTypeOf (Flags p) = "") as Hrt.
    { destruct (firstFlag_first (Flags p) requestTypes)
        as [(before & after & Heq & Hhas & _)|[? _]]; [|done].
      rewrite Hnone in Hhas; [done|].
      eapply (eq_ind_r (λ l, firstFlag (Flags p) requestTypes ∈ l));
        [|exact Heq].
      apply elem_of_app. right. left. }
    unfold from, processRequest. rewrite !Hrt. unfold_monad.
    cbn [world trace].
    assert ("" ∉ requestTypes) as Hout.
    { unfold requestTypes. unfold_types. rewrite !not_elem_of_cons.
      repeat split; try discriminate. apply not_elem_of_nil. }
    repeat first
      [ rewrite (switchReqType_unknown "" _ _ _ _ _ _ _ _ Hout)
      | pr_step ].
    all: cbn [app In]; intros Hin; destruct_or?; simplify_eq.
    all: eexists; repeat split; reflexivity.
Qed.

(** C8.  When the [ProcessMessage] or [ProcessEvent] call returns an
    error with the RALS prefix, [Usage] of the charging event is set to
    0 and the reply fields are still evaluated; without such an error,
    [Usage] is set to the reply's [MaxUsage] for a message whose
    arguments have [Debit] set, and for an event when the flags have
    one of [*auth], [*init], [*update]. *)
Theorem processRequest_usage w req p agReq rpl m args rply err :
  let r := processRequest env req p agReq rpl (from w) in
  let tr := trace r.1 in
  In (EvCall m args rply err) tr →
  m = SessionSv1ProcessMessage ∨ m = SessionSv1ProcessEvent →
  ∃ x cgrEv,
    r.2 = Returns x ∧ prCgrEv x = Some cgrEv
    ∧ (ErrHasPrefix err (RalsErrorPrfx env) = true →
       Event cgrEv !! Usage = Some (IInt 0)
       ∧ fieldsRun OfReply tr = true)
    ∧ (ErrHasPrefix err (RalsErrorPrfx env) = false →
       ∀ evArgs c a pg op,
         args = V1ProcessMessage evArgs c a pg op →
         Debit evArgs = true →
         Event cgrEv !! Usage = Some (IDuration (MaxUsage rply)))
    ∧ (ErrHasPrefix err (RalsErrorPrfx env) = false →
       m = SessionSv1ProcessEvent →
       HasKey (Flags p) MetaAuth || HasKey (Flags p) MetaInit
         || HasKey (Flags p) MetaUpdate = true →
       Event cgrEv !! Usage = Some (IDuration (MaxUsage rply))).
Proof.
  cbn zeta. unfold from. run_processRequest.
  all: rewrite ?in_app_iff; cbn [In]; intros Hin Hm.
  all: destruct_or?; simplify_eq; try done.
  all: match goal with
       | U : ∀ m args rply err, In _ ?evs → _, H : In _ ?evs |- _ =>
           destruct (U _ _ _ _ H) as (sw & Hsw & Hrals & Hmsg & Hev);
           simplify_eq
       end.
  all: eexists _, _; split; [reflexivity|]; split; [reflexivity|].
  all: observe.
  all: split;
    [ intros Hp; pose proof (Hrals Hp ltac:(auto)) as [Hret Hus];
      split; [exact Hus|first [done|congruence]] |].
  all: split; [intros; eapply Hmsg; eauto | intros; eapply Hev; eauto].
Qed.

(** The switch leaves [*vars] alone. *)
Lemma switchReqType_vars reqType req p agReq rpl cgrEv opts cgrArgs
    (s : RS W) sw :
  (switchReqType env reqType req p agReq rpl cgrEv opts cgrArgs s).2
  = Returns sw →
  Vars (swAgReq sw) = Vars agReq.
Proof.
  destruct s as [w t].
  unfold switchReqType, recordReply, setCGRReply.
  unfold_monad. unfold_types. cbn [world trace].
  repeat case_step.
  all: intros; simplify_eq/=; done.
Qed.

(** A processor puts a variable into [*vars] only through its field
    templates. *)
Lemma processRequest_vars_absent (k : string) req p agReq rpl (s : RS W) x :
  (∀ w tpls ar,
     tpls = RequestFields p ∨ tpls = ReplyFields p →
     Vars ar !! k = None →
     Vars (SetFields env w tpls ar).2.1 !! k = None) →
  (processRequest env req p agReq rpl s).2 = Returns x →
  Vars agReq !! k = None →
  Vars (prAgReq x) !! k = None.
Proof.
  intros Hfields. destruct s as [w t].
  unfold processRequest. unfold_monad. cbn [world trace].
  repeat pr_step.
  all: intros; simplify_eq/=; try done.
  all: repeat match goal with
    | H : SetFields env ?w ?tpls ?ar = _ |- _ =>
        let V := fresh "V" in
        pose proof (Hfields w tpls ar) as V; rewrite H in V;
        cbn [fst snd] in V; clear H
    | H : switchReqType env ?rt ?rq ?pp ?ag ?rp ?ce ?op ?ca ?s0 = _ |- _ =>
        let V := fresh "V" in
        pose proof (switchReqType_vars rt rq pp ag rp ce op ca s0) as V;
        rewrite H in V; specialize (V _ eq_refl); clear H
    end.
  all: cbn [setCGRReplyMap Vars] in *.
  all: repeat match goal with
    | V : _ ∨ _ → _ |- _ =>
        first [ specialize (V (or_introl eq_refl))
              | specialize (V (or_intror eq_refl)) ]
    end.
  all: repeat match goal with
    | V : Vars ?a = Vars ?b |- _ => rewrite V in *; clear V
    end.
  all: eauto.
Qed.

(** The run of a processor whose filters pass and whose request fields
    are set, up to the switch on its request type. *)
Lemma processRequest_after_extraction w req p agReq rpl w1 w2 agReq' w3
    cgrEv w4 args err :
  let flags := Flags p in
  let reqType := reqTypeOf flags in
  let opts := NMAsMapInterface env (Opts agReq') in
  filterS_Pass env w (arTenant agReq) (Filters p) agReq
  = (w1, (true, None)) →
  SetFields env w1 (RequestFields p) agReq = (w2, (agReq', None)) →
  NMAsCGREvent env w2 (CGRRequest agReq') (arTenant agReq') = (w3, cgrEv) →
  ExtractArgsFromOpts env w3 opts (HasKey flags MetaDispatchers)
    (String.eqb reqType MetaAuthorize || String.eqb reqType MetaMessage
     || String.eqb reqType MetaEvent)
  = (w4, (args, err)) →
  let sw := switchReqType env reqType req p agReq' rpl cgrEv opts args
              (from w4) in
  ∃ rest,
    trace (processRequest env req p agReq rpl (from w)).1
    = [ EvProcessRequest p (Vars agReq); EvPass p true None;
        EvSetFields OfRequest (ID p) None ]
      ++ match err with
         | Some e => [EvLog (LogArgsExtractionFailed e)]
         | None => []
         end
      ++ (if HasKey flags MetaLog
          then [EvLog (LogRadiusMessage (ID p))] else [])
      ++ trace sw.1 ++ rest.
Proof.
  cbv zeta. intros Hpass Hset Hev Hargs.
  unfold processRequest. unfold_monad. cbn [world trace].
  rewrite Hpass. cbv beta iota zeta. cbn [world trace fst snd app].
  rewrite isErr_None. cbn [orb negb]. cbv beta iota zeta.
  cbn [world trace fst snd app].
  rewrite Hset. cbv beta iota zeta. cbn [world trace fst snd app].
  rewrite isErr_None. cbv beta iota zeta. cbn [world trace fst snd app].
  rewrite Hev. cbv beta iota zeta. cbn [world trace fst snd app].
  rewrite Hargs. cbv beta iota zeta. cbn [world trace fst snd app].
  destruct err as [e|]; destruct (HasKey (Flags p) MetaLog);
    cbn [world trace app].
  all: rewrite switchReqType_frame; cbn zeta; cbn [world trace];
    unfold from.
  all: destruct (switchReqType env _ req p agReq' rpl cgrEv _ args
                   {| world := w4; trace := [] |}) as [[w5 t5] [sw| |]];
    cbn [fst snd world trace app].
  all: try (exists []; by rewrite app_nil_r).
  all: repeat pr_step.
  all: rewrite <- ?app_assoc; cbn [app];
    repeat f_equal; try (eexists; reflexivity).
  all: try (exists []; by rewrite app_nil_r).
Qed.
End WithEnv.

Section LoopSteps.
Context {W : Type} (env : Env W).

(** One iteration of the loop of each handler. *)
Lemma handleAuth_loop_cons req p rest l (s : RS W) :
  handleAuth_loop env req (p :: rest) l s
  = match processRequest env req p
            (setVars (insert MetaRadReqType MetaRadAuth)
               (NewAgentRequest env (world s) req (reqVars l)
                  (cgrRplyNM l) (rplyNM l) (lOpts l) (Tenant p)
                  (DefaultTenant env)
                  (FirstNonEmpty (Timezone p) (DefaultTimezone env))))
            (lRpl l) s with
    | (s', Returns r) =>
        if bool_decide (prErr r ≠ None)
           || (processed r && negb (GetBool (Flags p) MetaContinue))
        then (s', Returns (afterProcessor l r))
        else handleAuth_loop env req rest (afterProcessor l r) s'
    | (s', Panics) => (s', Panics)
    | (s', Diverges) => (s', Diverges)
    end.
Proof.
  cbn [handleAuth_loop]. unfold_monad.
  destruct processRequest as [s' [r| |]]; try reflexivity.
  by destruct (_ || _).
Qed.

Lemma handleAcct_loop_cons req p rest l (s : RS W) :
  handleAcct_loop env req (p :: rest) l s
  = match processRequest env req p
            (NewAgentRequest env (world s) req (reqVars l)
               (cgrRplyNM l) (rplyNM l) (lOpts l) (Tenant p)
               (DefaultTenant env)
               (FirstNonEmpty (Timezone p) (DefaultTimezone env)))
            (lRpl l) s with
    | (s', Returns r) =>
        if bool_decide (prErr r ≠ None)
           || (processed r && negb (GetBool (Flags p) MetaContinue))
        then (s', Returns (afterProcessor l r))
        else handleAcct_loop env req rest (afterProcessor l r) s'
    | (s', Panics) => (s', Panics)
    | (s', Diverges) => (s', Diverges)
    end.
Proof.
  cbn [handleAcct_loop]. unfold_monad.
  destruct processRequest as [s' [r| |]]; try reflexivity.
  by destruct (_ || _).
Qed.

Lemma handleAuth_loop_handlerLoop req :
  handlerLoop env req (authAgReq env req) (handleAuth_loop env req).
Proof. split; [done|]. intros. apply handleAuth_loop_cons. Qed.

Lemma handleAcct_loop_handlerLoop req :
  handlerLoop env req (acctAgReq env req) (handleAcct_loop env req).
Proof. split; [done|]. intros. apply handleAcct_loop_cons. Qed.
End LoopSteps.

Section Handlers.
Context {W : Type} (env : Env W).

Ltac frame_switch :=
  match goal with
  | |- context [switchReqType env ?rt ?rq ?pp ?ag ?rp ?ce ?op ?ca
                  {| world := ?w; trace := ?t |}] =>
      lazymatch t with
      | [] => fail
      | _ => rewrite (switchReqType_frame env rt rq pp ag rp ce op ca
                        {| world := w; trace := t |});
             cbn [world trace from]
      end
  end.

(** An error of the argument extraction leaves one warning in the log
    and changes nothing else in the run of a processor. *)
Lemma processRequest_silent w req p agReq rpl :
  let r1 := processRequest env req p agReq rpl (from w) in
  let r2 := processRequest (silentExtraction env) req p agReq rpl
              (from w) in
  r1.2 = r2.2 ∧ world r1.1 = world r2.1
  ∧ withoutExtractionLog (trace r1.1) = trace r2.1.
Proof.
  cbn zeta. unfold from, processRequest.
  change (@switchReqType W (silentExtraction env))
    with (@switchReqType W env).
  unfold_monad.
  cbn [silentExtraction filterS_Pass SetFields NMAsCGREvent
       NMAsMapInterface ExtractArgsFromOpts Call world trace].
  repeat first
    [ frame_switch
    | match goal with
      | |- context [switchReqType env ?rt ?rq ?pp ?ag ?rp ?ce ?op ?ca
                      (from ?w0)] =>
          let L := fresh "L" in
          pose proof (switchReqType_run env rt rq pp ag rp ce op ca
                        (from w0) (from w0) eq_refl) as L;
          cbn zeta in L;
          destruct (switchReqType env rt rq pp ag rp ce op ca
                      (from w0)) as [[? ?] ?];
          destruct L as (evs&L&_&_&_&?&?&?&?&?&?&?&?&?);
          cbn [fst snd world trace app] in *; subst
      end
    | pr_step ].
  all: unfold from in *; cbn [trace world app] in *.
  all: rewrite <- ?app_assoc; simplify_eq.
  all: observe.
  all: repeat split; try done.
Qed.
(** What follows the loop adds no call and no processor to the trace. *)
Lemma handle_finish_trace l (s : RS W) :
  let r := handle_finish env l s in
  matched (trace r.1) = matched (trace s)
  ∧ varsSeen (trace r.1) = varsSeen (trace s).
Proof.
  destruct s as [w t]. cbn zeta. unfold handle_finish. unfold_monad.
  cbn [world trace].
  repeat pr_step.
  all: observe; by rewrite ?app_nil_r.
Qed.

(** In a run of a loop, every processor whose filters passed, but the
    last of them, has [*continue]. *)
Lemma handlerLoop_matched req mkAgReq loop :
  handlerLoop env req mkAgReq loop →
  ∀ procs l (s : RS W),
  ∃ evs, trace (loop procs l s).1 = trace s ++ evs
    ∧ ∀ ms m, matched evs = ms ++ [m] → Forall hasContinue ms.
Proof.
  intros [Hnil Hcons].
  induction procs as [|p rest IH]; intros l s.
  - rewrite Hnil. exists []. split; [by rewrite app_nil_r|].
    intros ms m Hm. by destruct ms.
  - rewrite Hcons.
    destruct (processRequest_trace env req p (mkAgReq (world s) l p)
                (lRpl l) s) as (evs1 & Htr & _ & _ & Hm1 & Hproc).
    destruct (processRequest env req p (mkAgReq (world s) l p)
                (lRpl l) s) as [s1 o1].
    cbn [fst snd] in *.
    assert (∀ ms m, matched evs1 = ms ++ [m] → Forall hasContinue ms)
      as Hone.
    { intros ms m Hm. destruct Hm1 as [Hm1|Hm1]; rewrite Hm1 in Hm.
      - by destruct ms.
      - destruct ms as [|? [|]]; simplify_eq; constructor. }
    destruct o1 as [x| |]; try (by exists evs1).
    destruct (bool_decide (prErr x ≠ None)) eqn:Herr;
      cbn [orb]; [by exists evs1|].
    apply bool_decide_eq_false_1 in Herr.
    assert (prErr x = None) as Hnone.
    { destruct (prErr x); [exfalso; by apply Herr|done]. }
    destruct (processed x) eqn:Hp; cbn [andb].
    + destruct (GetBool (Flags p) MetaContinue) eqn:Hc; cbn [negb];
        [|by exists evs1].
      destruct (IH (afterProcessor l x) s1) as (evs2 & Htr2 & Hm2).
      exists (evs1 ++ evs2).
      split; [by rewrite Htr2, Htr, app_assoc|].
      intros ms m. rewrite matched_app.
      destruct Hm1 as [Hm1|Hm1]; rewrite Hm1; cbn [app]; [by apply Hm2|].
      destruct ms as [|q ms]; [constructor|].
      cbn [app]. intros [= <- Hms]. constructor; [done|].
      by eapply Hm2.
    + destruct (IH (afterProcessor l x) s1) as (evs2 & Htr2 & Hm2).
      exists (evs1 ++ evs2).
      split; [by rewrite Htr2, Htr, app_assoc|].
      intros ms m. rewrite matched_app.
      destruct Hm1 as [Hm1|Hm1]; rewrite Hm1; cbn [app]; [by apply Hm2|].
      destruct (Hproc x eq_refl Hnone) as [_ Hback].
      specialize (Hback Hm1). congruence.
Qed.
(** What every processor of a loop finds in [*vars], from what the
    handler's agent request holds and the loop's variables keep over
    the processors it runs. *)
Lemma handlerLoop_varsSeen_in req mkAgReq loop
    (P : gmap string string → Prop) (I : Locals → Prop) :
  handlerLoop env req mkAgReq loop →
  (∀ w l p, I l → P (Vars (mkAgReq w l p))) →
  ∀ procs,
  (∀ w l p s x, p ∈ procs → I l →
     (processRequest env req p (mkAgReq w l p) (lRpl l) s).2 = Returns x →
     I (afterProcessor l x)) →
  ∀ l (s : RS W), I l →
  ∃ evs, trace (loop procs l s).1 = trace s ++ evs
    ∧ Forall P (varsSeen evs).
Proof.
  intros [Hnil Hcons] HP.
  induction procs as [|p rest IH]; intros HI l s Hl.
  - rewrite Hnil. exists []. split; [by rewrite app_nil_r|constructor].
  - rewrite Hcons.
    pose proof (HI (world s) l p s) as Hnext.
    destruct (processRequest_trace env req p (mkAgReq (world s) l p)
                (lRpl l) s) as (evs1 & Htr & _ & Hv & _).
    destruct (processRequest env req p (mkAgReq (world s) l p)
                (lRpl l) s) as [s1 o1].
    cbn [fst snd] in *.
    assert (Forall P (varsSeen evs1)) as Hone.
    { rewrite Hv. constructor; [by apply HP|constructor]. }
    destruct o1 as [x| |]; try (by exists evs1).
    destruct (_ || _); [by exists evs1|].
    destruct (IH (λ w l p s x Hp, HI w l p s x (list_elem_of_further _ _ _ Hp))
                (afterProcessor l x) s1) as (evs2 & Htr2 & Hv2).
    { apply Hnext; [by left|done..]. }
    exists (evs1 ++ evs2). split; [by rewrite Htr2, Htr, app_assoc|].
    rewrite varsSeen_app. by apply Forall_app.
Qed.

(** What the first processor of a loop finds in [*vars]. *)
Lemma handlerLoop_varsSeen_first req mkAgReq loop :
  handlerLoop env req mkAgReq loop →
  ∀ p rest l (s : RS W),
  ∃ evs seen, trace (loop (p :: rest) l s).1 = trace s ++ evs
    ∧ varsSeen evs = Vars (mkAgReq (world s) l p) :: seen.
Proof.
  intros [Hnil Hcons] p rest l s. rewrite Hcons.
  destruct (processRequest_trace env req p (mkAgReq (world s) l p)
              (lRpl l) s) as (evs1 & Htr & _ & Hv & _).
  destruct (processRequest env req p (mkAgReq (world s) l p)
              (lRpl l) s) as [s1 o1].
  cbn [fst snd] in *.
  destruct o1 as [x| |]; try (by exists evs1, []).
  destruct (_ || _); [by exists evs1, []|].
  destruct (handlerLoop_matched req mkAgReq loop (conj Hnil Hcons)
              rest (afterProcessor l x) s1) as (evs2 & Htr2 & _).
  exists (evs1 ++ evs2), (varsSeen evs2).
  split; [by rewrite Htr2, Htr, app_assoc|].
  by rewrite varsSeen_app, Hv.
Qed.

(** Without the errors of the argument extraction, a loop ends alike
    and leaves the same trace but for the warnings. *)
Lemma handlerLoop_silent req mkAgReq loop1 loop2 :
  handlerLoop env req mkAgReq loop1 →
  handlerLoop (silentExtraction env) req mkAgReq loop2 →
  ∀ procs l (s1 s2 : RS W),
    sameButExtractionLog s1 s2 →
    (loop1 procs l s1).2 = (loop2 procs l s2).2
    ∧ sameButExtractionLog (loop1 procs l s1).1 (loop2 procs l s2).1.
Proof.
  intros [Hnil1 Hcons1] [Hnil2 Hcons2].
  induction procs as [|p rest IH]; intros l s1 s2 [Hw Ht].
  - rewrite Hnil1, Hnil2. by repeat split.
  - rewrite Hcons1, Hcons2.
    rewrite (processRequest_frame env _ _ _ _ s1).
    rewrite (processRequest_frame (silentExtraction env) _ _ _ _ s2).
    rewrite <- Hw. cbn zeta.
    destruct (processRequest_silent (world s1) req p
                (mkAgReq (world s1) l p) (lRpl l)) as (Ho & Hw' & Ht').
    destruct (processRequest env req p (mkAgReq (world s1) l p)
                (lRpl l) (from (world s1))) as [[w1 t1] o1].
    destruct (processRequest (silentExtraction env) req p
                (mkAgReq (world s1) l p) (lRpl l) (from (world s1)))
      as [[w2 t2] o2].
    cbn [fst snd world trace] in *. subst w2 o2 t2.
    assert (sameButExtractionLog
              {| world := w1; trace := trace s1 ++ t1 |}
              {| world := w1;
                 trace := trace s2 ++ withoutExtractionLog t1 |}) as Hsim.
    { split; [done|]. cbn [trace].
      rewrite !withoutExtractionLog_app, Ht.
      f_equal. unfold withoutExtractionLog.
      by rewrite list_filter_filter_l. }
    destruct o1 as [x| |]; [|done..].
    destruct (_ || _); [done|].
    by apply IH.
Qed.
Lemma handle_finish_silent l (s1 s2 : RS W) :
  sameButExtractionLog s1 s2 →
  (handle_finish env l s1).2 = (handle_finish (silentExtraction env) l s2).2
  ∧ sameButExtractionLog (handle_finish env l s1).1
      (handle_finish (silentExtraction env) l s2).1.
Proof.
  destruct s1 as [w t1], s2 as [w2 t2]. intros [Hw Ht].
  cbn [world trace] in *. subst w2.
  unfold handle_finish, sameButExtractionLog. unfold_monad.
  cbn [silentExtraction radReplyAppendAttributes world trace].
  repeat pr_step.
  all: rewrite ?withoutExtractionLog_app, ?Ht; done.
Qed.

(** A handler is its loop and what follows it. *)
Lemma handler_matched req loop code (s : RS W) :
  (∃ evs, trace (loop (RequestProcessors env) (initLocals req code) s).1
          = trace s ++ evs
     ∧ ∀ ms m, matched evs = ms ++ [m] → Forall hasContinue ms) →
  trace s = [] →
  ∀ ms m,
    matched (trace (run_bind
                      (loop (RequestProcessors env) (initLocals req code))
                      (handle_finish env) s).1) = ms ++ [m] →
    Forall hasContinue ms.
Proof.
  intros (evs & Htr & Hm) Hs ms m. unfold run_bind.
  pose proof handle_finish_trace as Hfin.
  destruct (loop _ _ s) as [s1 [l1| |]]; cbn [fst snd] in *.
  - destruct (Hfin l1 s1) as [-> _].
    rewrite Htr, Hs. apply Hm.
  - rewrite Htr, Hs. apply Hm.
  - rewrite Htr, Hs. apply Hm.
Qed.

Lemma handler_varsSeen req loop code (P : gmap string string → Prop)
    (s : RS W) :
  (∃ evs, trace (loop (RequestProcessors env) (initLocals req code) s).1
          = trace s ++ evs
     ∧ Forall P (varsSeen evs)) →
  trace s = [] →
  Forall P (varsSeen (trace (run_bind
                      (loop (RequestProcessors env) (initLocals req code))
                      (handle_finish env) s).1)).
Proof.
  intros (evs & Htr & Hm) Hs. unfold run_bind.
  pose proof handle_finish_trace as Hfin.
  destruct (loop _ _ s) as [s1 [l1| |]]; cbn [fst snd] in *.
  - destruct (Hfin l1 s1) as [_ ->]. by rewrite Htr, Hs.
  - by rewrite Htr, Hs.
  - by rewrite Htr, Hs.
Qed.

Lemma handler_varsSeen_first req loop code v (s : RS W) :
  (∃ evs seen,
     trace (loop (RequestProcessors env) (initLocals req code) s).1
     = trace s ++ evs
     ∧ varsSeen evs = v :: seen) →
  trace s = [] →
  ∃ seen,
    varsSeen (trace (run_bind
                       (loop (RequestProcessors env) (initLocals req code))
                       (handle_finish env) s).1) = v :: seen.
Proof.
  intros (evs & seen & Htr & Hm) Hs. unfold run_bind. exists seen.
  pose proof handle_finish_trace as Hfin.
  destruct (loop _ _ s) as [s1 [l1| |]]; cbn [fst snd] in *.
  - destruct (Hfin l1 s1) as [_ ->]. by rewrite Htr, Hs.
  - by rewrite Htr, Hs.
  - by rewrite Htr, Hs.
Qed.

Lemma handler_silent req loop1 loop2 code (s : RS W) :
  (∀ procs l s1 s2,
     sameButExtractionLog s1 s2 →
     (loop1 procs l s1).2 = (loop2 procs l s2).2
     ∧ sameButExtractionLog (loop1 procs l s1).1 (loop2 procs l s2).1) →
  let h1 := run_bind (loop1 (RequestProcessors env) (initLocals req code))
              (handle_finish env) s in
  let h2 := run_bind (loop2 (RequestProcessors env) (initLocals req code))
              (handle_finish (silentExtraction env)) s in
  h1.2 = h2.2 ∧ sameButExtractionLog h1.1 h2.1.
Proof.
  intros Hloop. cbn zeta. unfold run_bind.
  destruct (Hloop (RequestProcessors env) (initLocals req code) s s)
    as [Ho Hs]; [done|].
  destruct (loop1 _ _ s) as [s1 o1], (loop2 _ _ s) as [s2 o2].
  cbn [fst snd] in *. subst o2.
  destruct o1 as [l1| |]; [|done..].
  by apply handle_finish_silent.
Qed.

(** C5 (amended).  Before each processor runs, the auth handler sets
    the variable [*radReqType] of [*vars] to [*radAuth].  The
    accounting handler seeds nothing: its first processor finds
    [RemoteHost] alone in [*vars], and unless the request or reply
    fields of a configured processor write [*radReqType], no processor
    of the accounting handler finds it there, whatever the packet
    holds. *)
Theorem radReqType_seeding w req :
  Forall (λ v, v !! MetaRadReqType = Some MetaRadAuth)
    (varsSeen (trace (handleAuth env req (from w)).1))
  ∧ (∀ p rest,
       RequestProcessors env = p :: rest →
       ∃ seen,
         varsSeen (trace (handleAcct env req (from w)).1)
         = {[ RemoteHost := RemoteAddr req ]} :: seen)
  ∧ ((∀ p w' tpls ar,
        p ∈ RequestProcessors env →
        tpls = RequestFields p ∨ tpls = ReplyFields p →
        Vars ar !! MetaRadReqType = None →
        Vars (SetFields env w' tpls ar).2.1 !! MetaRadReqType = None) →
     Forall (λ v, v !! MetaRadReqType = None)
       (varsSeen (trace (handleAcct env req (from w)).1))).
Proof.
  split; [|split].
  - apply handler_varsSeen; [|done].
    apply (handlerLoop_varsSeen_in req (authAgReq env req) _
             (λ v, v !! MetaRadReqType = Some MetaRadAuth) (λ _, True));
      [apply handleAuth_loop_handlerLoop| | |done].
    + intros w' l p _. apply lookup_insert_eq.
    + done.
  - intros p rest Hprocs.
    apply handler_varsSeen_first; [|done].
    rewrite Hprocs.
    apply (handlerLoop_varsSeen_first req (acctAgReq env req)).
    apply handleAcct_loop_handlerLoop.
  - intros Hfields.
    apply handler_varsSeen; [|done].
    apply (handlerLoop_varsSeen_in req (acctAgReq env req) _
             (λ v, v !! MetaRadReqType = None)
             (λ l, reqVars l !! MetaRadReqType = None));
      [apply handleAcct_loop_handlerLoop| | |done].
    + by intros w' l p Hl.
    + intros w' l p s x Hp Hl Hx. cbn [afterProcessor reqVars].
      apply (processRequest_vars_absent env MetaRadReqType _ _ _ _ _ _
               (λ w0 tpls ar, Hfields p w0 tpls ar Hp) Hx).
      exact Hl.
Qed.

(** C6.  In both handler loops, after a processor that reports itself
    processed without error the iteration goes on with the remaining
    processors if and only if its flags include [*continue]; hence in
    the run of a handler every processor whose filters passed, but the
    last of them, has [*continue]. *)
Theorem continue_flag_only w req p rest l (s : RS W) :
  (∀ s' r,
     processRequest env req p (authAgReq env req (world s) l p)
       (lRpl l) s = (s', Returns r) →
     processed r = true → prErr r = None →
     handleAuth_loop env req (p :: rest) l s
     = if GetBool (Flags p) MetaContinue
       then handleAuth_loop env req rest (afterProcessor l r) s'
       else (s', Returns (afterProcessor l r)))
  ∧ (∀ s' r,
     processRequest env req p (acctAgReq env req (world s) l p)
       (lRpl l) s = (s', Returns r) →
     processed r = true → prErr r = None →
     handleAcct_loop env req (p :: rest) l s
     = if GetBool (Flags p) MetaContinue
       then handleAcct_loop env req rest (afterProcessor l r) s'
       else (s', Returns (afterProcessor l r)))
  ∧ (∀ ms m,
       matched (trace (handleAuth env req (from w)).1) = ms ++ [m] →
       Forall hasContinue ms)
  ∧ (∀ ms m,
       matched (trace (handleAcct env req (from w)).1) = ms ++ [m] →
       Forall hasContinue ms).
Proof.
  repeat split.
  - intros s' r Hr Hp He. rewrite (handleAuth_loop_cons env).
    fold (authAgReq env req (world s) l p). rewrite Hr, Hp, He.
    rewrite isErr_None. cbn [orb andb].
    by destruct (GetBool (Flags p) MetaContinue).
  - intros s' r Hr Hp He. rewrite (handleAcct_loop_cons env).
    fold (acctAgReq env req (world s) l p). rewrite Hr, Hp, He.
    rewrite isErr_None. cbn [orb andb].
    by destruct (GetBool (Flags p) MetaContinue).
  - apply handler_matched; [|done].
    apply (handlerLoop_matched req (authAgReq env req)).
    apply handleAuth_loop_handlerLoop.
  - apply handler_matched; [|done].
    apply (handlerLoop_matched req (acctAgReq env req)).
    apply handleAcct_loop_handlerLoop.
Qed.

(** C10.  When the extraction of the dispatcher and paginator arguments
    fails in a processor whose filters passed and whose request fields
    were set, the error is logged and dropped: the warning is the next
    event of the run, and the run goes on into the switch on the
    request type with the arguments that were extracted.  The processor
    ends as it does without the error and each handler answers the
    packet as it does without it: the runs differ in the warnings
    only. *)
Theorem extraction_error_swallowed w req p agReq rpl w1 w2 agReq' w3 cgrEv
    w4 args e :
  let flags := Flags p in
  let reqType := reqTypeOf flags in
  let opts := NMAsMapInterface env (Opts agReq') in
  filterS_Pass env w (arTenant agReq) (Filters p) agReq
  = (w1, (true, None)) →
  SetFields env w1 (RequestFields p) agReq = (w2, (agReq', None)) →
  NMAsCGREvent env w2 (CGRRequest agReq') (arTenant agReq') = (w3, cgrEv) →
  ExtractArgsFromOpts env w3 opts (HasKey flags MetaDispatchers)
    (String.eqb reqType MetaAuthorize || String.eqb reqType MetaMessage
     || String.eqb reqType MetaEvent)
  = (w4, (args, Some e)) →
  let r1 := processRequest env req p agReq rpl (from w) in
  let r2 := processRequest (silentExtraction env) req p agReq rpl
              (from w) in
  let sw := switchReqType env reqType req p agReq' rpl cgrEv opts args
              (from w4) in
  (∃ rest,
     trace r1.1
     = [ EvProcessRequest p (Vars agReq); EvPass p true None;
         EvSetFields OfRequest (ID p) None;
         EvLog (LogArgsExtractionFailed e) ]
       ++ (if HasKey flags MetaLog
           then [EvLog (LogRadiusMessage (ID p))] else [])
       ++ trace sw.1 ++ rest)
  ∧ (r1.2 = r2.2 ∧ world r1.1 = world r2.1
     ∧ withoutExtractionLog (trace r1.1) = trace r2.1)
  ∧ (∀ w0,
       let h1 := handleAuth env req (from w0) in
       let h2 := handleAuth (silentExtraction env) req (from w0) in
       h1.2 = h2.2 ∧ sameButExtractionLog h1.1 h2.1)
  ∧ (∀ w0,
       let h1 := handleAcct env req (from w0) in
       let h2 := handleAcct (silentExtraction env) req (from w0) in
       h1.2 = h2.2 ∧ sameButExtractionLog h1.1 h2.1).
Proof.
  intros flags reqType opts Hpass Hset Hev Hargs. cbv zeta.
  split; [|split; [apply processRequest_silent|split]].
  - destruct (processRequest_after_extraction env w req p agReq rpl w1 w2
                agReq' w3 cgrEv w4 args (Some e) Hpass Hset Hev Hargs)
      as [rest Hrest].
    exists rest. exact Hrest.
  - intros w0.
    apply (handler_silent req (handleAuth_loop env req)
             (handleAuth_loop (silentExtraction env) req)).
    apply (handlerLoop_silent req (authAgReq env req));
      [apply handleAuth_loop_handlerLoop|].
    exact (handleAuth_loop_handlerLoop (silentExtraction env) req).
  - intros w0.
    apply (handler_silent req (handleAcct_loop env req)
             (handleAcct_loop (silentExtraction env) req)).
    apply (handlerLoop_silent req (acctAgReq env req));
      [apply handleAcct_loop_handlerLoop|].
    exact (handleAcct_loop_handlerLoop (silentExtraction env) req).
Qed.
End Handlers.

(** *** The theorems at the sample deployment *)

Section AtSample.
Import sample.



(** C2, as stated, fails: a processor without any action flag whose
    filters do not match returns no error. *)
Lemma request_type_counterexample :
  let r := processRequest (sampleEnv []) sampleReq noActionNoMatch
             sampleAgReq sampleRpl (from None) in
  (∀ typ, typ ∈ requestTypes →
          HasKey (Flags noActionNoMatch) typ = false)
  ∧ ∃ x, r.2 = Returns x ∧ prErr x = None ∧ processed x = false.
Proof.
  split.
  - intros typ _.
    change (Flags noActionNoMatch) with (∅ : FlagsWithParams).
    unfold HasKey. by rewrite lookup_empty.
  - vm_compute. eexists. repeat split.
Qed.

Lemma processRequest_request_type_witness :
  let r := processRequest (sampleEnv []) sampleReq noAction
             sampleAgReq sampleRpl (from None) in
  ∃ x, r.2 = Returns x
    ∧ processed x = false
    ∧ prErr x = Some "unknown request type: <>"
    ∧ rpcCalls (trace r.1) = []
    ∧ fieldsRun OfReply (trace r.1) = false.
Proof.
  apply (proj2 (processRequest_request_type (sampleEnv []) None sampleReq
                  noAction sampleAgReq sampleRpl)).
  - intros typ _.
    change (Flags noAction) with (∅ : FlagsWithParams).
    unfold HasKey. by rewrite lookup_empty.
  - vm_compute. right. right. left. reflexivity.
Defined.

(** C5, as stated, fails: the processor of an accounting request with
    [Acct-Status-Type] [Start] finds [RemoteHost] in [*vars] and no
    [*radReqType]. *)
Lemma acct_seeding_counterexample :
  let r := handleAcct (sampleEnv [terminate]) sampleReq (from None) in
  In ("Acct-Status-Type", "Start") (AVPs sampleReq)
  ∧ varsSeen (trace r.1) = [ {[ RemoteHost := RemoteAddr sampleReq ]} ]
  ∧ ({[ RemoteHost := RemoteAddr sampleReq ]} : gmap string string)
      !! MetaRadReqType = None.
Proof. vm_compute. repeat split. tauto. Qed.

Lemma radReqType_seeding_witness :
  let env := writingEnv [tagSource; terminate] in
  Forall (λ v, v !! MetaRadReqType = Some MetaRadAuth)
    (varsSeen (trace (handleAuth env sampleReq (from None)).1))
  ∧ (∃ seen,
       varsSeen (trace (handleAcct env sampleReq (from None)).1)
       = {[ RemoteHost := RemoteAddr sampleReq ]} :: seen)
  ∧ Forall (λ v, v !! MetaRadReqType = None)
      (varsSeen (trace (handleAcct env sampleReq (from None)).1))
  ∧ varsSeen (trace (handleAcct env sampleReq (from None)).1)
    = [ {[ RemoteHost := RemoteAddr sampleReq ]};
        <[ "Source" := "radius" ]>
          {[ RemoteHost := RemoteAddr sampleReq ]} ].
Proof.
  destruct (radReqType_seeding (writingEnv [tagSource; terminate]) None
              sampleReq) as (Hauth & Hfirst & Hacct).
  split; [exact Hauth|]. split; [exact (Hfirst _ _ eq_refl)|].
  split; [|vm_compute; reflexivity].
  apply Hacct. intros p w' tpls ar Hp Htpls Hnone.
  cbn [RequestProcessors writingEnv] in Hp.
  rewrite !elem_of_cons, elem_of_nil in Hp.
  destruct Hp as [->|[->|[]]]; destruct Htpls as [->| ->];
    cbn [SetFields writingEnv fst snd]; try exact Hnone.
  cbn. by rewrite lookup_insert_ne.
Defined.

Lemma continue_flag_only_witness :
  Forall hasContinue [logOnly].
Proof.
  apply (proj1 (proj2 (proj2
           (continue_flag_only (sampleEnv [logOnly; terminate]) None
              sampleReq logOnly [] (initLocals sampleReq AccessAccept)
              (from None))))
           [logOnly] terminate).
  vm_compute. reflexivity.
Defined.

Lemma processRequest_usage_witness :
  let r := processRequest (sampleEnv []) sampleReq message
             sampleAgReq sampleRpl (from noCredit) in
  ∃ x cgrEv,
    r.2 = Returns x ∧ prCgrEv x = Some cgrEv
    ∧ Event cgrEv !! Usage = Some (IInt 0)
    ∧ fieldsRun OfReply (trace r.1) = true.
Proof.
  cbn zeta.
  edestruct (processRequest_usage (sampleEnv []) noCredit sampleReq
               message sampleAgReq sampleRpl SessionSv1ProcessMessage)
    as (x & cgrEv & Hx & Hev & Hrals & _).
  - vm_compute. do 3 right. left. reflexivity.
  - left. reflexivity.
  - exists x, cgrEv. split; [exact Hx|]. split; [exact Hev|].
    apply Hrals. reflexivity.
Defined.

Lemma extraction_error_swallowed_witness :
  let env := sampleEnv [dispatched] in
  let e := "MANDATORY_IE_MISSING: [ArgDispatcher]" in
  let r1 := processRequest env sampleReq dispatched sampleAgReq sampleRpl
              (from None) in
  let r2 := processRequest (silentExtraction env) sampleReq dispatched
              sampleAgReq sampleRpl (from None) in
  (∃ rest,
     trace r1.1
     = [ EvProcessRequest dispatched (Vars sampleAgReq);
         EvPass dispatched true None;
         EvSetFields OfRequest (ID dispatched) None;
         EvLog (LogArgsExtractionFailed e) ]
       ++ [EvLog (LogRadiusMessage (ID dispatched))]
       ++ trace (switchReqType env MetaTerminate sampleReq dispatched
                   sampleAgReq sampleRpl
                   {| evTenant := "cgrates.org"; evID := "ev1";
                      Event := ∅ |}
                   ∅
                   {| eaArgDispatcher := None;
                      eaRoutePaginator :=
                        Some {| Limit := None; Offset := None |} |}
                   (from None)).1
       ++ rest)
  ∧ (r1.2 = r2.2 ∧ world r1.1 = world r2.1
     ∧ withoutExtractionLog (trace r1.1) = trace r2.1)
  ∧ rpcCalls (trace r1.1)
    = [SessionSv1TerminateSession]
  ∧ ∃ x, r1.2 = Returns x ∧ processed x = true ∧ prErr x = None.
Proof.
  cbv zeta.
  destruct (extraction_error_swallowed (sampleEnv [dispatched]) None
              sampleReq dispatched sampleAgReq sampleRpl
              None None sampleAgReq None
              {| evTenant := "cgrates.org"; evID := "ev1"; Event := ∅ |}
              None
              {| eaArgDispatcher := None;
                 eaRoutePaginator :=
                   Some {| Limit := None; Offset := None |} |}
              "MANDATORY_IE_MISSING: [ArgDispatcher]"
              eq_refl eq_refl eq_refl eq_refl)
    as (Hlogged & Hsame & _).
  split; [exact Hlogged|]. split; [exact Hsame|].
  split; [vm_compute; reflexivity|].
  vm_compute. eexists. repeat split.
Defined.
End AtSample.

End RadiusAgentProps.

(** ** The loader: properties *)

Module LoaderProps.
Import utils loaders loaderObserve loaderInvariants.

Ltac unfold_monad :=
  unfold loaders.emit, loaders.emitAll, loaders.ask, loaders.get,
    loaders.modify;
  unfold mbind, mret, Run_bind, Run_ret, run_bind, run_ret, run_panic,
    run_diverge.

Ltac simp_state :=
  cbn [fst snd ldr ext inDir outDir trace modLdr] in *.

(** A key of a map that is not empty. *)
Lemma firstKey_lookup {A : Type} (m : gmap string A) :
  m ≠ ∅ → is_Some (m !! firstKey m).
Proof.
  intros Hm. unfold firstKey.
  destruct (map_to_list m) as [|[k a] l] eqn:Hl.
  - by apply map_to_list_empty_iff in Hl.
  - exists a. apply elem_of_map_to_list. rewrite Hl. left.
Qed.

Lemma firstKey_singleton {A : Type} (k : string) (a : A) :
  firstKey ({[ k := a ]} : gmap string A) = k.
Proof. unfold firstKey. by rewrite map_to_list_singleton. Qed.

(** A map of one key is a singleton. *)
Lemma size_one_singleton {A : Type} (m : gmap string A) :
  size m = 1 → ∃ a, m = {[ firstKey m := a ]}.
Proof.
  intros Hsize.
  destruct (firstKey_lookup m) as [a Ha].
  { intros ->. by rewrite map_size_empty in Hsize. }
  exists a.
  assert (delete (firstKey m) m = ∅) as Hrest.
  { apply map_size_empty_inv. rewrite map_size_delete_Some by eauto.
    by rewrite Hsize. }
  apply map_eq. intros i. destruct (decide (i = firstKey m)) as [->|Hi].
  - by rewrite lookup_singleton_eq.
  - rewrite lookup_singleton_ne by done.
    rewrite <- (lookup_delete_ne m (firstKey m) i) by done.
    by rewrite Hrest.
Qed.


(** *** Association lists and the readers of a type *)

Lemma assoc_set_keys {A : Type} (k : string) (a : A) (m : list (string * A)) :
  (assoc_set k a m).*1 = m.*1.
Proof.
  induction m as [|[k' a'] m IH]; [done|]. cbn [assoc_set].
  destruct (String.eqb k k'); cbn; [done|by rewrite IH].
Qed.

Lemma assoc_assoc_set {A : Type} (k : string) (a : A) (m : list (string * A)) :
  k ∈ m.*1 → assoc k (assoc_set k a m) = Some a.
Proof.
  induction m as [|[k' a'] m IH]; cbn [assoc assoc_set fmap list_fmap].
  - by intros ?%elem_of_nil.
  - intros Hin. destruct (String.eqb_spec k k') as [->|Hne]; cbn [assoc].
    + by rewrite String.eqb_refl.
    + destruct (String.eqb_spec k k'); [done|].
      apply IH. apply elem_of_cons in Hin as [?|?]; [done|done].
Qed.

Lemma assoc_assoc_set_ne {A : Type} (k k' : string) (a : A)
    (m : list (string * A)) :
  k ≠ k' → assoc k' (assoc_set k a m) = assoc k' m.
Proof.
  intros Hne. induction m as [|[k0 a0] m IH]; [done|]. cbn [assoc_set].
  destruct (String.eqb_spec k k0) as [->|?]; cbn [assoc].
  - by destruct (String.eqb_spec k' k0).
  - by rewrite IH.
Qed.

Lemma assoc_Some_key {A : Type} (k : string) (a : A) (m : list (string * A)) :
  assoc k m = Some a → k ∈ m.*1.
Proof.
  induction m as [|[k' a'] m IH]; [done|]. cbn [assoc fmap list_fmap].
  destruct (String.eqb_spec k k') as [->|?]; intros ?.
  - left.
  - right. by apply IH.
Qed.

Lemma assoc_key_Some {A : Type} (k : string) (m : list (string * A)) :
  k ∈ m.*1 → is_Some (assoc k m).
Proof.
  induction m as [|[k' a'] m IH]; cbn [assoc fmap list_fmap].
  - by intros ?%elem_of_nil.
  - intros Hin. destruct (String.eqb_spec k k') as [->|?]; [by eexists|].
    apply IH. by apply elem_of_cons in Hin as [?|?].
Qed.

(** Setting the readers of a type to readers of the same files keeps the
    shape. *)
Lemma shape_setRdrsOf loaderType (rs : readers) (l : Loader) :
  rs.*1 = (rdrsOf l loaderType).*1 →
  shape (setRdrsOf loaderType rs l) = shape l.
Proof.
  unfold shape, setRdrsOf, rdrsOf, withRdrs. cbn [rdrs].
  induction (rdrs l) as [|[t rs'] m IH]; [done|].
  cbn [assoc assoc_set]. destruct (String.eqb_spec loaderType t) as [->|?].
  - cbn. intros ->. done.
  - cbn. intros Hrs. by rewrite IH.
Qed.

Lemma shape_withBuf f (l : Loader) : shape (withBuf f l) = shape l.
Proof. done. Qed.

Lemma shape_setReader loaderType fName v (l : Loader) :
  shape (setReader loaderType fName v l) = shape l.
Proof. apply shape_setRdrsOf. apply assoc_set_keys. Qed.

(** The keys of a type are read off the shape. *)
Lemma shape_rdrsOf_keys loaderType (l l' : Loader) :
  shape l' = shape l →
  (rdrsOf l' loaderType).*1 = (rdrsOf l loaderType).*1.
Proof.
  unfold shape, rdrsOf.
  generalize (rdrs l) (rdrs l'). intros m m'. revert m.
  induction m' as [|[t rs] m' IH]; intros [|[t0 rs0] m]; try done.
  cbn [fmap list_fmap assoc fst snd]. intros [= -> Hrs Hm].
  destruct (String.eqb loaderType t0); [done|by apply IH].
Qed.

Lemma shape_types (l l' : Loader) :
  shape l' = shape l → (rdrs l').*1 = (rdrs l).*1.
Proof.
  unfold shape. intros Hs.
  apply (f_equal (fmap fst)) in Hs.
  by rewrite <- !list_fmap_compose in Hs.
Qed.

Lemma rdrsOf_setRdrsOf loaderType (rs : readers) (l : Loader) :
  rdrsOf l loaderType ≠ [] →
  rdrsOf (setRdrsOf loaderType rs l) loaderType = rs.
Proof.
  unfold rdrsOf, setRdrsOf, withRdrs. cbn [rdrs]. intros Hne.
  destruct (assoc loaderType (rdrs l)) as [old|] eqn:Hold; [|done].
  by rewrite assoc_assoc_set by (by eapply assoc_Some_key).
Qed.

Lemma rdrsOf_setReader loaderType fName v (l : Loader) :
  fName ∈ (rdrsOf l loaderType).*1 →
  assoc fName (rdrsOf (setReader loaderType fName v l) loaderType) = Some v.
Proof.
  intros Hin. unfold setReader.
  rewrite rdrsOf_setRdrsOf.
  - by apply assoc_assoc_set.
  - intros Hnil. rewrite Hnil in Hin. by apply elem_of_nil in Hin.
Qed.

Section WithEnv.
Context {X : Type} (env : Env X).

(** *** Storage calls leave the loader and the folders alone *)

Lemma keepsLoader_ret {A : Type} (a : A) :
  keepsLoader (mret a : Run (LS X) A).
Proof. by intros s. Qed.

Lemma keepsLoader_bind {A B : Type} (m : Run (LS X) A) (k : A → Run (LS X) B) :
  keepsLoader m → (∀ a, keepsLoader (k a)) → keepsLoader (m ≫= k).
Proof.
  intros Hm Hk s. unfold mbind, Run_bind, run_bind.
  destruct (Hm s) as (H1 & H2 & H3).
  destruct (m s) as [s1 [a| |]]; cbn [fst snd] in *; [|done..].
  destruct (Hk a s1) as (H4 & H5 & H6).
  repeat split; congruence.
Qed.

Lemma keepsLoader_emit e : keepsLoader (X:=X) (loaders.emit e).
Proof. by intros s. Qed.

Lemma keepsLoader_ask {A : Type} (f : X → X * A) : keepsLoader (loaders.ask f).
Proof. intros s. unfold loaders.ask. by destruct (f (ext s)). Qed.

Lemma keepsLoader_get {A : Type} (f : LS X → A) : keepsLoader (loaders.get f).
Proof. by intros s. Qed.

Ltac keeps_with known :=
  repeat first
    [ known
    | apply keepsLoader_ret
    | apply keepsLoader_emit
    | apply keepsLoader_ask
    | apply keepsLoader_get
    | apply keepsLoader_bind; [|intros ?]
    | match goal with
      | |- keepsLoader (if ?b then _ else _) => destruct b
      | |- keepsLoader (match ?x with _ => _ end) => destruct x
      end ].

Lemma callCache_keepsLoader m cachePartition ids :
  keepsLoader (callCache env m cachePartition ids).
Proof. unfold callCache. keeps_with fail. Qed.

Lemma removeItems_keepsLoader cachePartition ids :
  keepsLoader (removeItems env cachePartition ids).
Proof.
  induction ids as [|id ids IH]; cbn [removeItems].
  - apply keepsLoader_ret.
  - keeps_with ltac:(first [apply callCache_keepsLoader | exact IH]).
Qed.

Lemma invalidateCache_keepsLoader caching p itemIDs :
  keepsLoader (invalidateCache env caching p itemIDs).
Proof.
  unfold invalidateCache.
  keeps_with ltac:(first [ apply callCache_keepsLoader
                         | apply removeItems_keepsLoader ]).
Qed.

Lemma storeLoadedData_keepsLoader loaderType tntID lDataSet caching :
  keepsLoader (storeLoadedData env loaderType tntID lDataSet caching).
Proof.
  unfold storeLoadedData. keeps_with ltac:(apply invalidateCache_keepsLoader).
Qed.

Lemma removeLoadedData_keepsLoader loaderType tntID lDataSet caching :
  keepsLoader (removeLoadedData env loaderType tntID lDataSet caching).
Proof.
  unfold removeLoadedData. keeps_with ltac:(apply invalidateCache_keepsLoader).
Qed.

Lemma isFlusher_keepsLoader flush loaderType tntID lDataSet caching :
  isFlusher env flush →
  keepsLoader (flush loaderType tntID lDataSet caching).
Proof.
  intros [->| ->];
    [apply storeLoadedData_keepsLoader|apply removeLoadedData_keepsLoader].
Qed.

(** *** The buffer of a content pass *)

(** Buffering a row, by cases: the key is buffered already; another key
    is buffered and its group is flushed first; nothing is buffered. *)
Lemma bufferRow_same_key flush loaderType caching lData (s : LS X) g :
  bufLoaderData (ldr s) !! TenantID env lData = Some g →
  bufferRow env flush loaderType caching lData s
  = (modLdr (withBuf (insert (TenantID env lData) (g ++ [lData]))) s,
     Returns None).
Proof.
  intros Hg. unfold bufferRow. unfold_monad. simp_state.
  rewrite Hg. rewrite bool_decide_eq_true_2 by eauto. cbn [negb andb].
  unfold modLdr, withBuf. cbn. by rewrite Hg.
Qed.

Lemma bufferRow_other_key flush loaderType caching lData (s : LS X) k g :
  isFlusher env flush →
  bufLoaderData (ldr s) = {[ k := g ]} →
  TenantID env lData ≠ k →
  bufferRow env flush loaderType caching lData s
  = match flush loaderType k g caching s with
    | (s1, Returns None) =>
        (modLdr (withBuf (λ _, {[ TenantID env lData := [lData] ]})) s1,
         Returns None)
    | (s1, Returns (Some e)) => (s1, Returns (Some e))
    | (s1, Panics) => (s1, Panics)
    | (s1, Diverges) => (s1, Diverges)
    end.
Proof.
  intros Hflush Hbuf Hk.
  destruct (isFlusher_keepsLoader flush loaderType k g caching Hflush s)
    as (Hl & _ & _).
  unfold bufferRow. unfold_monad. simp_state.
  rewrite Hbuf, firstKey_singleton, lookup_singleton_eq.
  rewrite lookup_singleton_ne by done.
  rewrite bool_decide_eq_false_2 by (by intros [? ?]).
  rewrite map_size_singleton, bool_decide_eq_true_2 by done.
  cbn [negb andb default from_option id].
  destruct (flush loaderType k g caching s) as [s1 [[e|]| |]];
    cbn [fst snd] in *; try reflexivity.
  unfold modLdr, withBuf. cbn. rewrite Hl, Hbuf.
  rewrite delete_singleton_eq, lookup_empty. cbn.
  by rewrite insert_empty.
Qed.

Lemma bufferRow_empty flush loaderType caching lData (s : LS X) :
  bufLoaderData (ldr s) = ∅ →
  bufferRow env flush loaderType caching lData s
  = (modLdr (withBuf (λ _, {[ TenantID env lData := [lData] ]})) s,
     Returns None).
Proof.
  intros Hbuf. unfold bufferRow. unfold_monad. simp_state.
  rewrite Hbuf, lookup_empty, map_size_empty.
  rewrite (bool_decide_eq_false_2 (0 = 1)) by done.
  cbn [negb andb]. rewrite ?andb_false_r.
  unfold modLdr, withBuf. cbn. rewrite Hbuf, lookup_empty. cbn.
  by rewrite insert_empty.
Qed.

(** The buffer of at most one key is empty or a singleton. *)
Lemma oneKey_cases (s : LS X) :
  oneKey s →
  bufLoaderData (ldr s) = ∅
  ∨ ∃ k g, bufLoaderData (ldr s) = {[ k := g ]}.
Proof.
  unfold oneKey. intros Hs.
  destruct (size (bufLoaderData (ldr s))) as [|[|n]] eqn:Hsize; [| |lia].
  - left. by apply map_size_empty_inv.
  - right. destruct (size_one_singleton _ Hsize) as [g Hg]. eauto.
Qed.

Lemma oneKey_withBuf_singleton (s : LS X) k g :
  oneKey (modLdr (withBuf (λ _, {[ k := g ]})) s).
Proof. unfold oneKey. cbn. by rewrite map_size_singleton. Qed.

Lemma oneKey_keepsLoader (s s' : LS X) :
  ldr s' = ldr s → oneKey s → oneKey s'.
Proof. unfold oneKey. by intros ->. Qed.

Lemma bufferRow_oneKey flush loaderType caching lData (s : LS X) :
  isFlusher env flush →
  oneKey s → oneKey (bufferRow env flush loaderType caching lData s).1.
Proof.
  intros Hflush Hs.
  destruct (oneKey_cases s Hs) as [Hbuf|(k & g & Hbuf)].
  - rewrite bufferRow_empty by done. apply oneKey_withBuf_singleton.
  - destruct (decide (TenantID env lData = k)) as [Hk|Hk].
    + rewrite (bufferRow_same_key _ _ _ _ _ g)
        by (by rewrite Hbuf, Hk, lookup_singleton_eq).
      unfold oneKey. cbn. rewrite Hbuf, Hk, insert_singleton_eq.
      by rewrite map_size_singleton.
    + rewrite (bufferRow_other_key _ _ _ _ _ k g) by done.
      destruct (isFlusher_keepsLoader flush loaderType k g caching Hflush s)
        as (Hl & _ & _).
      destruct (flush loaderType k g caching s) as [s1 [[e|]| |]];
        cbn [fst snd] in *;
        first [apply oneKey_withBuf_singleton
              |by apply (oneKey_keepsLoader s)].
Qed.

Lemma flushLast_oneKey flush loaderType caching (s : LS X) :
  isFlusher env flush →
  oneKey s → oneKey (flushLast flush loaderType caching s).1.
Proof.
  intros Hflush Hs. unfold flushLast. unfold_monad. simp_state.
  match goal with
  | |- context [flush ?t ?k ?g ?c s] =>
      destruct (isFlusher_keepsLoader flush t k g c Hflush s) as (Hl & _ & _);
      destruct (flush t k g c s) as [s1 [[e|]| |]]
  end; cbn [fst snd] in *; try (by apply (oneKey_keepsLoader s)).
  unfold oneKey in *. cbn. rewrite Hl.
  etransitivity; [|exact Hs].
  rewrite map_size_delete. destruct (_ !! _); unfold id; lia.
Qed.

Lemma rowIteration_oneKey flush loaderType caching lineNr (s : LS X) :
  isFlusher env flush →
  oneKey s → oneKey (rowIteration env flush loaderType caching lineNr s).1.
Proof.
  intros Hflush Hs. unfold rowIteration. unfold_monad. simp_state.
  match goal with
  | |- context [readRow env ?tpls ?n ?rs ?d ?h] =>
      generalize (readRow env tpls n rs d h)
  end.
  intros rr.
  match goal with
  | |- context [if rrPanic rr then _ else _] =>
      set (s1 := {| ldr := setRdrsOf loaderType (rrRdrs rr) (ldr s);
                    ext := ext s; inDir := inDir s; outDir := outDir s;
                    trace := trace s ++ rrLogs rr |})
  end.
  assert (oneKey s1) as Hs1 by exact Hs.
  destruct (rrPanic rr); [exact Hs1|].
  destruct (bool_decide _); [exact Hs1|].
  pose proof (bufferRow_oneKey flush loaderType caching (rrData rr) s1
                Hflush Hs1) as Hb.
  by destruct (bufferRow env flush loaderType caching (rrData rr) s1)
    as [s2 [err| |]].
Qed.

Lemma betweenRows_oneKey flush loaderType caching (s0 : LS X) lineNr s :
  isFlusher env flush → oneKey s0 →
  betweenRows env flush loaderType caching s0 lineNr s → oneKey s.
Proof.
  intros Hflush Hs0 Hreach.
  induction Hreach as [|lineNr s s' _ IH Hstep]; [done|].
  pose proof (rowIteration_oneKey flush loaderType caching (S lineNr) s
                Hflush IH) as Hnext.
  by rewrite Hstep in Hnext.
Qed.

Lemma contentLoop_oneKey flush fuel loaderType caching lineNr (s : LS X) :
  isFlusher env flush →
  oneKey s →
  oneKey (contentLoop env flush fuel loaderType caching lineNr s).1.
Proof.
  intros Hflush. revert lineNr s.
  induction fuel as [|fuel IH]; intros lineNr s Hs; [done|].
  cbn [contentLoop]. unfold mbind, Run_bind, run_bind.
  pose proof (rowIteration_oneKey flush loaderType caching (S lineNr) s
                Hflush Hs) as Hrow.
  destruct (rowIteration env flush loaderType caching (S lineNr) s)
    as [s1 [[[e|] keep]| |]]; cbn [fst snd] in *; try done.
  destruct keep; [by apply IH|by apply flushLast_oneKey].
Qed.

(** X11 ([Loader.processContent], [Loader.removeContent]:
    [bufLoaderData]).  During a content pass, storing or removing, the buffer
    [bufLoaderData] holds at most one tenant key at every point between
    the row iterations and at the end of the pass; and a row whose tenant
    key differs from the buffered one has the buffered group flushed to
    storage first, the buffer emptied, and only then is buffered under
    its key: when the flush fails, the function returns and the row is
    not buffered. *)
Theorem buffer_holds_one_key flush loaderType caching (s0 : LS X) :
  isFlusher env flush →
  oneKey s0 →
  (∀ lineNr s,
     betweenRows env flush loaderType caching s0 lineNr s → oneKey s)
  ∧ (∀ fuel, oneKey (contentLoop env flush fuel loaderType caching 0 s0).1)
  ∧ oneKey (processContent env loaderType caching s0).1
  ∧ oneKey (removeContent env loaderType caching s0).1
  ∧ (∀ s lData k g,
       bufLoaderData (ldr s) = {[ k := g ]} →
       TenantID env lData ≠ k →
       bufferRow env flush loaderType caching lData s
       = match flush loaderType k g caching s with
         | (s1, Returns None) =>
             (modLdr (withBuf (λ _, {[ TenantID env lData := [lData] ]})) s1,
              Returns None)
         | (s1, Returns (Some e)) => (s1, Returns (Some e))
         | (s1, Panics) => (s1, Panics)
         | (s1, Diverges) => (s1, Diverges)
         end).
Proof.
  intros Hflush Hs0. repeat split.
  - intros lineNr s. by apply betweenRows_oneKey.
  - intros fuel. by apply contentLoop_oneKey.
  - unfold processContent. unfold_monad.
    apply contentLoop_oneKey; [by left|done].
  - unfold removeContent. unfold_monad.
    apply contentLoop_oneKey; [by right|done].
  - intros s lData k g. by apply bufferRow_other_key.
Qed.



(** *** What a pass keeps of the loader *)

Lemma sameConfig_refl (s : LS X) : sameConfig s s.
Proof. done. Qed.

Lemma sameConfig_trans (s1 s2 s3 : LS X) :
  sameConfig s1 s2 → sameConfig s2 s3 → sameConfig s1 s3.
Proof.
  intros (H1 & H2 & H3 & H4) (H5 & H6 & H7 & H8).
  repeat split; congruence.
Qed.

Lemma sameConfig_ldr (s s' : LS X) : ldr s' = ldr s → sameConfig s s'.
Proof. intros Hl. unfold sameConfig. by rewrite Hl. Qed.

Lemma keepsLoader_keepsConfig {A : Type} (m : Run (LS X) A) :
  keepsLoader m → keepsConfig m.
Proof. intros Hm s. apply sameConfig_ldr. apply Hm. Qed.

Lemma keepsConfig_ret {A : Type} (a : A) :
  keepsConfig (mret a : Run (LS X) A).
Proof. by intros s. Qed.

Lemma keepsConfig_bind {A B : Type} (m : Run (LS X) A)
    (k : A → Run (LS X) B) :
  keepsConfig m → (∀ a, keepsConfig (k a)) → keepsConfig (m ≫= k).
Proof.
  intros Hm Hk s. unfold mbind, Run_bind, run_bind.
  pose proof (Hm s) as H1.
  destruct (m s) as [s1 [a| |]]; cbn [fst snd] in *; [|done..].
  eapply sameConfig_trans; [exact H1|apply Hk].
Qed.

Lemma keepsConfig_modify (f : LS X → LS X) :
  (∀ s, sameConfig s (f s)) → keepsConfig (loaders.modify f).
Proof. intros Hf s. apply Hf. Qed.

Lemma keepsConfig_defer {A : Type} (m : Run (LS X) A) (d : LS X → LS X) :
  keepsConfig m → (∀ s, sameConfig s (d s)) → keepsConfig (run_defer m d).
Proof.
  intros Hm Hd s. unfold run_defer. pose proof (Hm s) as H1.
  destruct (m s) as [s1 [a| |]]; cbn [fst snd] in *; try done.
  all: eapply sameConfig_trans; [exact H1|apply Hd].
Qed.

Lemma keepsConfig_panic {A : Type} : keepsConfig (run_panic : Run (LS X) A).
Proof. by intros s. Qed.

Lemma keepsConfig_diverge {A : Type} :
  keepsConfig (run_diverge : Run (LS X) A).
Proof. by intros s. Qed.

Ltac config_with known :=
  repeat first
    [ known
    | apply keepsConfig_ret
    | apply keepsConfig_panic
    | apply keepsConfig_diverge
    | apply keepsLoader_keepsConfig;
      first [ apply keepsLoader_emit | apply keepsLoader_ask
            | apply keepsLoader_get ]
    | apply keepsConfig_bind; [|intros ?]
    | match goal with
      | |- keepsConfig (if ?b then _ else _) => destruct b
      | |- keepsConfig (match ?x with _ => _ end) => destruct x
      | |- keepsConfig (let _ := _ in _) => cbv zeta
      end ].

Lemma readRow_keys tpls lineNr (rs : readers) lData hasErrors :
  (rrRdrs (readRow env tpls lineNr rs lData hasErrors)).*1 = rs.*1.
Proof.
  revert lData hasErrors.
  induction rs as [|[fName [rdr|]] rs IH]; intros lData hasErrors;
    cbn [readRow]; [done| |done].
  destruct (csvRdr rdr) as [|line more]; [done|].
  destruct line as [record|e]; [destruct hasErrors|].
  - cbn. by rewrite IH.
  - destruct (UpdateFromCSV env fName record tpls lData) as [ld [e|]];
      cbn; by rewrite IH.
  - cbn. by rewrite IH.
Qed.

Lemma isFlusher_keepsConfig flush loaderType tntID lDataSet caching :
  isFlusher env flush →
  keepsConfig (flush loaderType tntID lDataSet caching).
Proof.
  intros. apply keepsLoader_keepsConfig. by apply isFlusher_keepsLoader.
Qed.

Lemma emitAll_keepsConfig es : keepsConfig (X:=X) (loaders.emitAll es).
Proof. by intros s. Qed.

Lemma withBuf_keepsConfig f :
  keepsConfig (X:=X) (loaders.modify (modLdr (withBuf f))).
Proof. apply keepsConfig_modify. by intros s. Qed.

Lemma bufferRow_keepsConfig flush loaderType caching lData :
  isFlusher env flush →
  keepsConfig (bufferRow env flush loaderType caching lData).
Proof.
  intros Hflush. unfold bufferRow.
  config_with ltac:(first [ by apply isFlusher_keepsConfig
                          | apply withBuf_keepsConfig ]).
Qed.

Lemma flushLast_keepsConfig flush loaderType caching :
  isFlusher env flush →
  keepsConfig (flushLast flush loaderType caching).
Proof.
  intros Hflush. unfold flushLast.
  config_with ltac:(first [ by apply isFlusher_keepsConfig
                          | apply withBuf_keepsConfig ]).
Qed.

Lemma bind_get {A B : Type} (f : LS X → A) (k : A → Run (LS X) B) s :
  (loaders.get f ≫= k) s = k (f s) s.
Proof. done. Qed.

Lemma bind_modify {B : Type} (f : LS X → LS X) (k : unit → Run (LS X) B) s :
  (loaders.modify f ≫= k) s = k tt (f s).
Proof. done. Qed.

Lemma keepsConfig_at {A : Type} (m : Run (LS X) A) (s s' : LS X) :
  sameConfig s s' → keepsConfig m → sameConfig s (m s').1.
Proof. intros Hs Hm. eapply sameConfig_trans; [exact Hs|apply Hm]. Qed.

Lemma rowIteration_keepsConfig flush loaderType caching lineNr :
  isFlusher env flush →
  keepsConfig (rowIteration env flush loaderType caching lineNr).
Proof.
  intros Hflush s. unfold rowIteration. rewrite bind_get, bind_modify.
  apply keepsConfig_at.
  - split; [done|]. split; [|done]. cbn. apply shape_setRdrsOf. apply readRow_keys.
  - config_with ltac:(first [ by apply bufferRow_keepsConfig
                            | apply emitAll_keepsConfig ]).
Qed.

Lemma contentLoop_keepsConfig flush fuel loaderType caching lineNr :
  isFlusher env flush →
  keepsConfig (contentLoop env flush fuel loaderType caching lineNr).
Proof.
  intros Hflush. revert lineNr.
  induction fuel as [|fuel IH]; intros lineNr; cbn [contentLoop].
  - apply keepsConfig_diverge.
  - config_with ltac:(first [ by apply rowIteration_keepsConfig
                            | by apply flushLast_keepsConfig
                            | apply IH ]).
Qed.

Lemma processContent_keepsConfig loaderType caching :
  keepsConfig (processContent env loaderType caching).
Proof.
  unfold processContent.
  config_with ltac:(apply contentLoop_keepsConfig; by left).
Qed.

Lemma removeContent_keepsConfig loaderType caching :
  keepsConfig (removeContent env loaderType caching).
Proof.
  unfold removeContent.
  config_with ltac:(apply contentLoop_keepsConfig; by right).
Qed.

Lemma processFiles_loop_keepsConfig loaderType caching loadOption fNames :
  keepsConfig (processFiles_loop env loaderType caching loadOption fNames).
Proof.
  induction fNames as [|fName rest IH]; cbn [processFiles_loop].
  - apply keepsConfig_ret.
  - config_with fail.
    + apply keepsConfig_modify. intros s. split; [done|].
      split; [|done]. cbn. apply shape_setReader.
    + apply keepsConfig_defer.
      * config_with ltac:(first [ apply processContent_keepsConfig
                                | apply removeContent_keepsConfig
                                | apply IH ]).
      * intros s. split; [done|]. split; [|done].
        cbn. apply shape_setReader.
Qed.

Lemma processFiles_keepsConfig loaderType caching loadOption :
  keepsConfig (processFiles env loaderType caching loadOption).
Proof.
  unfold processFiles.
  config_with ltac:(apply processFiles_loop_keepsConfig).
Qed.

Lemma ProcessFolder_loop_keepsConfig caching loadOption ldrTypes :
  keepsConfig (ProcessFolder_loop env caching loadOption ldrTypes).
Proof.
  induction ldrTypes as [|ldrType rest IH]; cbn [ProcessFolder_loop].
  - apply keepsConfig_ret.
  - config_with ltac:(first [ apply processFiles_keepsConfig | apply IH ]).
Qed.

Lemma moveFiles_loop_keepsConfig filesInDir :
  keepsConfig (moveFiles_loop env filesInDir).
Proof.
  induction filesInDir as [|fName rest IH]; cbn [moveFiles_loop].
  - apply keepsConfig_ret.
  - config_with ltac:(apply IH).
    apply keepsConfig_modify. intros s. unfold rename.
    by destruct (sameDir env _ _ _).
Qed.

Lemma moveFiles_keepsConfig : keepsConfig (moveFiles env).
Proof.
  unfold moveFiles. config_with ltac:(apply moveFiles_loop_keepsConfig).
Qed.


(** *** Relations that a pass keeps *)

Lemma keeps_ret {A : Type} (R : LS X → LS X → Prop) `{!Reflexive R} (a : A) :
  keeps R (mret a : Run (LS X) A).
Proof. intros s. cbn. reflexivity. Qed.

Lemma keeps_bind {A B : Type} (R : LS X → LS X → Prop) `{!PreOrder R}
    (m : Run (LS X) A) (k : A → Run (LS X) B) :
  keeps R m → (∀ a, keeps R (k a)) → keeps R (m ≫= k).
Proof.
  intros Hm Hk s. unfold mbind, Run_bind, run_bind.
  pose proof (Hm s) as H1.
  destruct (m s) as [s1 [a| |]]; cbn [fst snd] in *; [|done..].
  etrans; [exact H1|apply Hk].
Qed.

Lemma keeps_defer {A : Type} (R : LS X → LS X → Prop) `{!PreOrder R}
    (m : Run (LS X) A) (d : LS X → LS X) :
  keeps R m → (∀ s, R s (d s)) → keeps R (run_defer m d).
Proof.
  intros Hm Hd s. unfold run_defer. pose proof (Hm s) as H1.
  destruct (m s) as [s1 [a| |]]; cbn [fst snd] in *; try done.
  all: etrans; [exact H1|apply Hd].
Qed.

Lemma keeps_panic {A : Type} (R : LS X → LS X → Prop) `{!Reflexive R} :
  keeps R (run_panic : Run (LS X) A).
Proof. intros s. cbn. reflexivity. Qed.

Lemma keeps_diverge {A : Type} (R : LS X → LS X → Prop) `{!Reflexive R} :
  keeps R (run_diverge : Run (LS X) A).
Proof. intros s. cbn. reflexivity. Qed.

Lemma keeps_get {A : Type} (R : LS X → LS X → Prop) `{!Reflexive R}
    (f : LS X → A) :
  keeps R (loaders.get f).
Proof. intros s. cbn. reflexivity. Qed.

Lemma keeps_modify (R : LS X → LS X → Prop) (f : LS X → LS X) :
  (∀ s, R s (f s)) → keeps R (loaders.modify f).
Proof. intros Hf s. apply Hf. Qed.

Lemma keeps_at {A : Type} (R : LS X → LS X → Prop) `{!PreOrder R}
    (m : Run (LS X) A) (s s' : LS X) :
  R s s' → keeps R m → R s (m s').1.
Proof. intros Hs Hm. etrans; [exact Hs|apply Hm]. Qed.

(** What only reads the loader is kept by the calls to storage. *)
Lemma keepsLoader_keeps {A : Type} (R : LS X → LS X → Prop)
    (m : Run (LS X) A) :
  (∀ s s', ldr s' = ldr s → inDir s' = inDir s → outDir s' = outDir s →
           R s s') →
  keepsLoader m → keeps R m.
Proof. intros HR Hm s. destruct (Hm s) as (? & ? & ?). by apply HR. Qed.

Ltac keeps_step known :=
  first
    [ known
    | apply keeps_ret; tc_solve
    | apply keeps_panic; tc_solve
    | apply keeps_diverge; tc_solve
    | apply keeps_get; tc_solve
    | apply keeps_bind; [tc_solve| |intros ?]
    | match goal with
      | |- keeps _ (if ?b then _ else _) => destruct b
      | |- keeps _ (match ?x with _ => _ end) => destruct x
      | |- keeps _ (let _ := _ in _) => cbv zeta
      end ].

Ltac keeps_by known := repeat keeps_step known.

(** *** No loop of a pass goes on for ever *)

Lemma halts_ret {A : Type} (a : A) : halts (mret a : Run (LS X) A).
Proof. by intros s. Qed.

Lemma halts_panic {A : Type} : halts (run_panic : Run (LS X) A).
Proof. by intros s. Qed.

Lemma halts_bind {A B : Type} (m : Run (LS X) A) (k : A → Run (LS X) B) :
  halts m → (∀ a, halts (k a)) → halts (m ≫= k).
Proof.
  intros Hm Hk s. unfold mbind, Run_bind, run_bind.
  pose proof (Hm s) as H1.
  destruct (m s) as [s1 [a| |]]; cbn [fst snd] in *; [apply Hk|done..].
Qed.

Lemma halts_emit e : halts (X:=X) (loaders.emit e).
Proof. by intros s. Qed.

Lemma halts_emitAll es : halts (X:=X) (loaders.emitAll es).
Proof. by intros s. Qed.

Lemma halts_ask {A : Type} (f : X → X * A) : halts (loaders.ask f).
Proof. intros s. unfold loaders.ask. by destruct (f (ext s)). Qed.

Lemma halts_get {A : Type} (f : LS X → A) : halts (loaders.get f).
Proof. by intros s. Qed.

Lemma halts_modify (f : LS X → LS X) : halts (loaders.modify f).
Proof. by intros s. Qed.

Lemma halts_defer {A : Type} (m : Run (LS X) A) (d : LS X → LS X) :
  halts m → halts (run_defer m d).
Proof.
  intros Hm s. unfold run_defer. pose proof (Hm s) as H1.
  by destruct (m s) as [s1 [a| |]].
Qed.

Ltac halts_step known :=
  first
    [ known
    | apply halts_ret
    | apply halts_panic
    | apply halts_emit
    | apply halts_emitAll
    | apply halts_ask
    | apply halts_get
    | apply halts_modify
    | apply halts_bind; [|intros ?]
    | match goal with
      | |- halts (if ?b then _ else _) => destruct b
      | |- halts (match ?x with _ => _ end) => destruct x
      | |- halts (let _ := _ in _) => cbv zeta
      end ].

Ltac halts_by known := repeat halts_step known.

Lemma callCache_halts m cachePartition ids :
  halts (callCache env m cachePartition ids).
Proof. unfold callCache. halts_by fail. Qed.

Lemma removeItems_halts cachePartition ids :
  halts (removeItems env cachePartition ids).
Proof.
  induction ids as [|id ids IH]; cbn [removeItems].
  - apply halts_ret.
  - halts_by ltac:(first [apply callCache_halts | exact IH]).
Qed.

Lemma invalidateCache_halts caching p itemIDs :
  halts (invalidateCache env caching p itemIDs).
Proof.
  unfold invalidateCache.
  halts_by ltac:(first [apply callCache_halts | apply removeItems_halts]).
Qed.

Lemma isFlusher_halts flush loaderType tntID lDataSet caching :
  isFlusher env flush → halts (flush loaderType tntID lDataSet caching).
Proof.
  intros [->| ->]; unfold storeLoadedData, removeLoadedData;
    halts_by ltac:(apply invalidateCache_halts).
Qed.

Lemma bufferRow_halts flush loaderType caching lData :
  isFlusher env flush → halts (bufferRow env flush loaderType caching lData).
Proof.
  intros Hflush. unfold bufferRow.
  halts_by ltac:(by apply isFlusher_halts).
Qed.

Lemma flushLast_halts flush loaderType caching :
  isFlusher env flush → halts (flushLast flush loaderType caching).
Proof.
  intros Hflush. unfold flushLast.
  halts_by ltac:(by apply isFlusher_halts).
Qed.

Lemma rowIteration_halts flush loaderType caching lineNr :
  isFlusher env flush →
  halts (rowIteration env flush loaderType caching lineNr).
Proof.
  intros Hflush. unfold rowIteration.
  halts_by ltac:(by apply bufferRow_halts).
Qed.

Lemma withBuf_sameRdrs f :
  keeps sameRdrs (loaders.modify (X:=X) (modLdr (withBuf f))).
Proof. by apply keeps_modify. Qed.

Lemma isFlusher_keeps (R : LS X → LS X → Prop) flush loaderType tntID
    lDataSet caching :
  (∀ s s', ldr s' = ldr s → inDir s' = inDir s → outDir s' = outDir s →
           R s s') →
  isFlusher env flush →
  keeps R (flush loaderType tntID lDataSet caching).
Proof.
  intros HR Hflush. apply keepsLoader_keeps; [done|].
  by apply isFlusher_keepsLoader.
Qed.

Lemma sameRdrs_ldr (s s' : LS X) :
  ldr s' = ldr s → inDir s' = inDir s → outDir s' = outDir s →
  sameRdrs s s'.
Proof. intros Hl _ _. unfold sameRdrs. by rewrite Hl. Qed.

Lemma bufferRow_sameRdrs flush loaderType caching lData :
  isFlusher env flush →
  keeps sameRdrs (bufferRow env flush loaderType caching lData).
Proof.
  intros Hflush. unfold bufferRow.
  keeps_by ltac:(first [ by apply isFlusher_keeps, Hflush; apply sameRdrs_ldr
                       | apply withBuf_sameRdrs ]).
Qed.

Lemma flushLast_sameRdrs flush loaderType caching :
  isFlusher env flush →
  keeps sameRdrs (flushLast flush loaderType caching).
Proof.
  intros Hflush. unfold flushLast.
  keeps_by ltac:(first [ by apply isFlusher_keeps, Hflush; apply sameRdrs_ldr
                       | apply withBuf_sameRdrs ]).
Qed.

(** What one row iteration that returns has read. *)
Lemma rowIteration_Returns flush loaderType caching lineNr (s s1 : LS X)
    err keep :
  isFlusher env flush →
  rowIteration env flush loaderType caching lineNr s
  = (s1, Returns (err, keep)) →
  let rr := readRow env (default [] (dataTpls (ldr s) !! loaderType)) lineNr
              (rdrsOf (ldr s) loaderType) ∅ false in
  rrPanic rr = false ∧ keep = rrKeepLooping rr
  ∧ rdrs (ldr s1) = rdrs (setRdrsOf loaderType (rrRdrs rr) (ldr s)).
Proof.
  intros Hflush. unfold rowIteration. rewrite bind_get, bind_modify.
  cbv zeta.
  set (rr := readRow env _ lineNr _ ∅ false).
  set (s0 := modLdr (setRdrsOf loaderType (rrRdrs rr)) s).
  unfold_monad. cbn [fst snd].
  destruct (rrPanic rr); [done|].
  destruct (bool_decide (size (rrData rr) = 0)).
  - intros [= <- <- <-]. done.
  - pose proof (bufferRow_sameRdrs flush loaderType caching (rrData rr)
                  Hflush
                  {| ldr := ldr s0; ext := ext s0; inDir := inDir s0;
                     outDir := outDir s0;
                     trace := trace s0 ++ rrLogs rr |}) as Hb.
    destruct (bufferRow env flush loaderType caching (rrData rr) _)
      as [s2 [e| |]]; [|done..].
    intros [= <- <- <-]. done.
Qed.

(** Fuel that suffices for the row loop: more than the lines the first
    reader has left. *)
Lemma contentLoop_halts flush loaderType caching fuel lineNr (s : LS X) :
  isFlusher env flush →
  match rdrsOf (ldr s) loaderType with
  | [] => False
  | (_, None) :: _ => 0 < fuel
  | (_, Some rdr) :: _ => length (csvRdr rdr) < fuel
  end →
  (contentLoop env flush fuel loaderType caching lineNr s).2 ≠ Diverges.
Proof.
  intros Hflush. revert lineNr s.
  induction fuel as [|fuel IH]; intros lineNr s Hfuel.
  { destruct (rdrsOf (ldr s) loaderType) as [|[f [r|]] rs]; [done|lia..]. }
  cbn [contentLoop]. unfold mbind at 1, Run_bind, run_bind at 1.
  pose proof (rowIteration_halts flush loaderType caching (S lineNr)
                Hflush s) as Hh.
  destruct (rowIteration env flush loaderType caching (S lineNr) s)
    as [s1 [[err keep]| |]] eqn:Hrow; [|done..].
  apply rowIteration_Returns in Hrow as (Hpanic & -> & Hrdrs); [|done].
  cbn [fst snd]. destruct err as [e|]; [done|].
  destruct (rrKeepLooping _) eqn:Hkeep;
    [|by apply flushLast_halts].
  apply IH. unfold rdrsOf at 1. rewrite Hrdrs.
  fold (rdrsOf (setRdrsOf loaderType
    (rrRdrs (readRow env (default [] (dataTpls (ldr s) !! loaderType))
               (S lineNr) (rdrsOf (ldr s) loaderType) ∅ false)) (ldr s))
    loaderType).
  destruct (rdrsOf (ldr s) loaderType) as [|[f [r|]] rs] eqn:Hrs; [done| |].
  - rewrite rdrsOf_setRdrsOf by (by rewrite Hrs).
    cbn [readRow] in *.
    destruct (csvRdr r) as [|line more] eqn:Hlines; [done|].
    destruct line as [record|e]; [destruct (UpdateFromCSV env f record _ ∅) as [ld [e|]]|];
      cbn in *; lia.
  - done.
Qed.

Lemma sameConfig_readers (s s' : LS X) loaderType :
  sameConfig s s' →
  rdrsOf (ldr s) loaderType ≠ [] → rdrsOf (ldr s') loaderType ≠ [].
Proof.
  intros (_ & Hshape & _) Hne Hnil.
  apply (shape_rdrsOf_keys loaderType) in Hshape.
  rewrite Hnil in Hshape. destruct (rdrsOf (ldr s) loaderType); done.
Qed.

Lemma contentFuel_enough (rs : readers) :
  rs ≠ [] →
  match rs with
  | [] => False
  | (_, None) :: _ => 0 < contentFuel rs
  | (_, Some rdr) :: _ => length (csvRdr rdr) < contentFuel rs
  end.
Proof. destruct rs as [|[f [r|]] rs]; [done|cbn; lia..]. Qed.

(** The content pass of a type that has a reader ends. *)
Lemma processContent_halts loaderType caching (s : LS X) :
  rdrsOf (ldr s) loaderType ≠ [] →
  (processContent env loaderType caching s).2 ≠ Diverges.
Proof.
  intros Hne. unfold processContent. rewrite bind_get.
  apply contentLoop_halts; [by left|]. by apply contentFuel_enough.
Qed.

Lemma removeContent_halts loaderType caching (s : LS X) :
  rdrsOf (ldr s) loaderType ≠ [] →
  (removeContent env loaderType caching s).2 ≠ Diverges.
Proof.
  intros Hne. unfold removeContent. rewrite bind_get.
  apply contentLoop_halts; [by right|]. by apply contentFuel_enough.
Qed.

Lemma selected_halts loaderType caching loadOption (s : LS X) :
  rdrsOf (ldr s) loaderType ≠ [] →
  (selected env loaderType caching loadOption s).2 ≠ Diverges.
Proof.
  intros Hne. unfold selected.
  destruct (String.eqb loadOption MetaStore);
    [by apply processContent_halts|].
  destruct (String.eqb loadOption MetaRemove);
    [by apply removeContent_halts|done].
Qed.

Lemma selected_keepsConfig loaderType caching loadOption :
  keepsConfig (selected env loaderType caching loadOption).
Proof.
  unfold selected.
  destruct (String.eqb loadOption MetaStore);
    [apply processContent_keepsConfig|].
  destruct (String.eqb loadOption MetaRemove);
    [apply removeContent_keepsConfig|apply keepsConfig_ret].
Qed.

(** One round of the loop of [processFiles], on a file that opens. *)
Lemma processFiles_loop_cons loaderType caching loadOption fName rest
    (s : LS X) :
  processFiles_loop env loaderType caching loadOption (fName :: rest) s
  = match inDir s !! fName with
    | None =>
        (s, Returns (Some ("open " +:+ fName
                           +:+ ": no such file or directory")))
    | Some content =>
        match openErr env (ext s) fName with
        | Some e => (s, Returns (Some e))
        | None =>
            run_defer
              (err ← selected env loaderType caching loadOption;
               match err with
               | Some e => mret (Some e)
               | None =>
                   processFiles_loop env loaderType caching loadOption rest
               end)
              (unreferenceFile loaderType fName)
              (modLdr (setReader loaderType fName
                 (Some {| fileName := fName; csvRdr := content |})) s)
        end
    end.
Proof.
  cbn [processFiles_loop]. rewrite bind_get.
  destruct (inDir s !! fName) as [content|]; [|done].
  destruct (openErr env (ext s) fName); done.
Qed.

Lemma defer_halts_at {A : Type} (m : Run (LS X) A) (d : LS X → LS X) s :
  (m s).2 ≠ Diverges → (run_defer m d s).2 ≠ Diverges.
Proof. unfold run_defer. by destruct (m s) as [s1 [a| |]]. Qed.

Lemma bind_halts_at {A B : Type} (m : Run (LS X) A) (k : A → Run (LS X) B)
    s :
  (m s).2 ≠ Diverges →
  (∀ a s1, m s = (s1, Returns a) → (k a s1).2 ≠ Diverges) →
  ((m ≫= k) s).2 ≠ Diverges.
Proof.
  intros Hm Hk. unfold mbind, Run_bind, run_bind.
  destruct (m s) as [s1 [a| |]]; [by apply Hk|done..].
Qed.

Lemma processFiles_loop_halts loaderType caching loadOption fNames
    (s : LS X) :
  rdrsOf (ldr s) loaderType ≠ [] →
  (processFiles_loop env loaderType caching loadOption fNames s).2
  ≠ Diverges.
Proof.
  revert s. induction fNames as [|fName rest IH]; intros s Hne; [done|].
  rewrite processFiles_loop_cons.
  destruct (inDir s !! fName) as [content|]; [|done].
  destruct (openErr env (ext s) fName); [done|].
  set (s1 := modLdr _ s).
  assert (rdrsOf (ldr s1) loaderType ≠ []) as Hne1.
  { apply (sameConfig_readers s); [|done].
    split; [done|]. split; [|done]. apply shape_setReader. }
  apply defer_halts_at, bind_halts_at; [by apply selected_halts|].
  intros [e|] s2 Hsel; [done|]. apply IH.
  apply (sameConfig_readers s1); [|done].
  pose proof (selected_keepsConfig loaderType caching loadOption s1) as Hc.
  by rewrite Hsel in Hc.
Qed.

Lemma processFiles_halts loaderType caching loadOption :
  halts (processFiles env loaderType caching loadOption).
Proof.
  intros s. unfold processFiles.
  apply bind_halts_at; [done|]. intros [] s1 [= <-].
  rewrite bind_get. cbn [ldr].
  destruct (rdrsOf (ldr s) loaderType) as [|p rs] eqn:Hrs; [done|].
  rewrite <- Hrs. apply processFiles_loop_halts. cbn [ldr]. by rewrite Hrs.
Qed.

Lemma ProcessFolder_loop_halts caching loadOption ldrTypes :
  halts (ProcessFolder_loop env caching loadOption ldrTypes).
Proof.
  induction ldrTypes as [|ldrType rest IH]; cbn [ProcessFolder_loop].
  - apply halts_ret.
  - halts_by ltac:(first [apply processFiles_halts | exact IH]).
Qed.

Lemma moveFiles_loop_halts filesInDir :
  halts (moveFiles_loop env filesInDir).
Proof.
  induction filesInDir as [|fName rest IH]; cbn [moveFiles_loop].
  - apply halts_ret.
  - halts_by ltac:(exact IH).
Qed.

Lemma moveFiles_halts : halts (moveFiles env).
Proof. unfold moveFiles. halts_by ltac:(apply moveFiles_loop_halts). Qed.

Lemma lockFolder_inv (s : LS X) :
  ∃ s1 err, lockFolder env s = (s1, Returns err)
    ∧ ldr s1 = ldr s ∧ ext s1 = ext s ∧ outDir s1 = outDir s
    ∧ trace s1 = trace s
    ∧ match createErr env (ext s) (lockFilename (ldr s)) with
      | Some e => err = Some e ∧ inDir s1 = inDir s
      | None =>
          err = None
          ∧ inDir s1 = match inDir s !! lockFilename (ldr s) with
                       | Some _ => inDir s
                       | None => <[ lockFilename (ldr s) := [] ]> (inDir s)
                       end
      end.
Proof.
  unfold lockFolder.
  destruct (createErr env (ext s) (lockFilename (ldr s))); eauto 10.
Qed.

Lemma ProcessFolder_halts caching loadOption :
  halts (ProcessFolder env caching loadOption).
Proof.
  intros s. unfold ProcessFolder. apply bind_halts_at.
  - by destruct (lockFolder_inv s) as (s1 & err & -> & _).
  - intros [e|] s1 _; [done|]. apply defer_halts_at.
    apply bind_halts_at; [done|]. intros l s2 _.
    apply bind_halts_at; [apply ProcessFolder_loop_halts|].
    intros [] s3 _. apply moveFiles_halts.
Qed.

(** *** Files that a pass opens are closed when it is left *)

Lemma assoc_assoc_set_inv {A : Type} (k k' : string) (a x : A)
    (m : list (string * A)) :
  assoc k' (assoc_set k a m) = Some x →
  (k' = k ∧ x = a) ∨ (k' ≠ k ∧ assoc k' m = Some x).
Proof.
  destruct (decide (k' = k)) as [->|Hne].
  - intros Hx. left. split; [done|].
    destruct (assoc_key_Some k (assoc_set k a m)) as [y Hy].
    { eapply assoc_Some_key, Hx. }
    rewrite assoc_assoc_set in Hx; [congruence|].
    rewrite <- (assoc_set_keys k a m). by eapply assoc_Some_key.
  - rewrite assoc_assoc_set_ne by done. by right.
Qed.

Lemma rdrsOf_setRdrsOf_ne loaderType loaderType' (rs : readers)
    (l : Loader) :
  loaderType ≠ loaderType' →
  rdrsOf (setRdrsOf loaderType rs l) loaderType' = rdrsOf l loaderType'.
Proof.
  intros Hne. unfold rdrsOf, setRdrsOf, withRdrs. cbn [rdrs].
  by rewrite assoc_assoc_set_ne.
Qed.

Lemma rdrsOf_setRdrsOf_inv loaderType (rs : readers) (l : Loader) :
  rdrsOf (setRdrsOf loaderType rs l) loaderType = rs
  ∨ rdrsOf (setRdrsOf loaderType rs l) loaderType = [].
Proof.
  unfold rdrsOf, setRdrsOf, withRdrs. cbn [rdrs].
  destruct (assoc loaderType (assoc_set loaderType rs (rdrs l)))
    as [x|] eqn:Hx; [|by right].
  apply assoc_assoc_set_inv in Hx as [[_ ->]|[? _]]; [by left|done].
Qed.

Lemma isOpen_nil (l : Loader) loaderType fName :
  rdrsOf l loaderType = [] → ¬ isOpen l loaderType fName.
Proof. intros Hnil [r Hr]. by rewrite Hnil in Hr. Qed.

(** The files open after [rdrs[loaderType][fName] = v]. *)
Lemma isOpen_setReader loaderType fName v (l : Loader) loaderType' fName' :
  isOpen (setReader loaderType fName v l) loaderType' fName' →
  (loaderType' = loaderType ∧ fName' = fName ∧ is_Some v)
  ∨ ((loaderType' ≠ loaderType ∨ fName' ≠ fName)
     ∧ isOpen l loaderType' fName').
Proof.
  unfold setReader. intros Ho.
  destruct (decide (loaderType = loaderType')) as [<-|Hne].
  - destruct (rdrsOf_setRdrsOf_inv loaderType
                (assoc_set fName v (rdrsOf l loaderType)) l) as [Hrs|Hrs].
    + destruct Ho as [r Hr]. rewrite Hrs in Hr.
      apply assoc_assoc_set_inv in Hr as [[-> <-]|[Hne Hr]].
      * left. eauto.
      * right. split; [by right|by exists r].
    + by apply isOpen_nil in Ho.
  - right. split; [by left|].
    destruct Ho as [r Hr]. rewrite rdrsOf_setRdrsOf_ne in Hr by done.
    by exists r.
Qed.

Lemma readRow_opens tpls lineNr (rs : readers) lData hasErrors fName r' :
  assoc fName (rrRdrs (readRow env tpls lineNr rs lData hasErrors))
  = Some (Some r') →
  ∃ r, assoc fName rs = Some (Some r).
Proof.
  revert lData hasErrors.
  induction rs as [|[f [rdr|]] rs IH]; intros lData hasErrors;
    cbn [readRow]; [done| |by eauto].
  destruct (csvRdr rdr) as [|line more]; [by eauto|].
  destruct line as [record|e]; [destruct hasErrors|];
    [|destruct (UpdateFromCSV env f record tpls lData) as [ld [e|]]|];
    cbn [rrRdrs assoc]; (destruct (String.eqb fName f); [by eauto|apply IH]).
Qed.

Lemma sameRdrs_opensNothing (s s' : LS X) :
  sameRdrs s s' → opensNothing s s'.
Proof.
  intros Hr t f [r Ho]. exists r. unfold rdrsOf in *. by rewrite <- Hr.
Qed.

Lemma keeps_sameRdrs_opensNothing {A : Type} (m : Run (LS X) A) :
  keeps sameRdrs m → keeps opensNothing m.
Proof. intros Hm s. apply sameRdrs_opensNothing, Hm. Qed.

Lemma emit_sameRdrs e : keeps sameRdrs (X:=X) (loaders.emit e).
Proof. by intros s. Qed.

Lemma emitAll_sameRdrs es : keeps sameRdrs (X:=X) (loaders.emitAll es).
Proof. by intros s. Qed.

Lemma rowIteration_opensNothing flush loaderType caching lineNr :
  isFlusher env flush →
  keeps opensNothing (rowIteration env flush loaderType caching lineNr).
Proof.
  intros Hflush s. unfold rowIteration. rewrite bind_get, bind_modify.
  apply keeps_at; [tc_solve| |].
  - intros t f Ho. cbn [ldr modLdr] in Ho.
    destruct (decide (loaderType = t)) as [<-|Hne].
    + destruct (rdrsOf_setRdrsOf_inv loaderType
        (rrRdrs (readRow env (default [] (dataTpls (ldr s) !! loaderType))
                   lineNr (rdrsOf (ldr s) loaderType) ∅ false)) (ldr s))
        as [Hrs|Hrs].
      * destruct Ho as [r Hr]. rewrite Hrs in Hr.
        by apply readRow_opens in Hr.
      * by apply isOpen_nil in Ho.
    + destruct Ho as [r Hr]. rewrite rdrsOf_setRdrsOf_ne in Hr by done.
      by exists r.
  - keeps_by ltac:(first
      [ apply keeps_sameRdrs_opensNothing;
        first [ by apply bufferRow_sameRdrs | apply emitAll_sameRdrs ] ]).
Qed.

Lemma contentLoop_opensNothing flush fuel loaderType caching lineNr :
  isFlusher env flush →
  keeps opensNothing (contentLoop env flush fuel loaderType caching lineNr).
Proof.
  intros Hflush. revert lineNr.
  induction fuel as [|fuel IH]; intros lineNr; cbn [contentLoop].
  - apply keeps_diverge; tc_solve.
  - keeps_by ltac:(first
      [ by apply rowIteration_opensNothing
      | apply keeps_sameRdrs_opensNothing; by apply flushLast_sameRdrs
      | apply IH ]).
Qed.

Lemma selected_opensNothing loaderType caching loadOption :
  keeps opensNothing (selected env loaderType caching loadOption).
Proof.
  unfold selected, processContent, removeContent.
  keeps_by ltac:(first [ apply contentLoop_opensNothing; by left
                       | apply contentLoop_opensNothing; by right ]).
Qed.

Lemma processFiles_loop_opensNothing loaderType caching loadOption fNames
    (s : LS X) :
  rdrsOf (ldr s) loaderType ≠ [] →
  opensNothing s
    (processFiles_loop env loaderType caching loadOption fNames s).1.
Proof.
  revert s. induction fNames as [|fName rest IH]; intros s Hne; [done|].
  rewrite processFiles_loop_cons.
  destruct (inDir s !! fName) as [content|]; [|done].
  destruct (openErr env (ext s) fName); [done|].
  set (s1 := modLdr _ s).
  assert (rdrsOf (ldr s1) loaderType ≠ []) as Hne1.
  { apply (sameConfig_readers s); [|done].
    split; [done|]. split; [|done]. apply shape_setReader. }
  set (body := _ ≫= _).
  assert ((body s1).2 ≠ Diverges) as Hhalts.
  { apply bind_halts_at; [by apply selected_halts|].
    intros [e|] s2 Hsel; [done|]. apply processFiles_loop_halts.
    apply (sameConfig_readers s1); [|done].
    pose proof (selected_keepsConfig loaderType caching loadOption s1) as Hc.
    by rewrite Hsel in Hc. }
  assert (opensNothing s1 (body s1).1) as Hbody.
  { subst body. unfold mbind, Run_bind, run_bind.
    pose proof (selected_opensNothing loaderType caching loadOption s1)
      as Hsel.
    pose proof (selected_keepsConfig loaderType caching loadOption s1) as Hc.
    destruct (selected env loaderType caching loadOption s1)
      as [s2 [[e|]| |]]; cbn [fst snd] in *; try done.
    etrans; [exact Hsel|]. apply IH.
    by apply (sameConfig_readers s1). }
  unfold run_defer.
  assert (opensNothing s (unreferenceFile loaderType fName (body s1).1))
    as Hfinal.
  { intros t f Ho. unfold unreferenceFile in Ho. cbn [ldr modLdr] in Ho.
    apply isOpen_setReader in Ho as [(_ & _ & [? [=]])|[Hother Ho]].
    apply Hbody in Ho. subst s1. cbn [ldr modLdr] in Ho.
    apply isOpen_setReader in Ho as [(-> & -> & _)|[_ Ho]]; [|done].
    by destruct Hother. }
  by destruct (body s1) as [s2 [a| |]].
Qed.

Lemma processFiles_opensNothing loaderType caching loadOption :
  keeps opensNothing (processFiles env loaderType caching loadOption).
Proof.
  intros s. unfold processFiles.
  unfold mbind at 1, Run_bind, run_bind at 1, loaders.emit.
  rewrite bind_get. cbn [ldr].
  set (s0 := {| ldr := ldr s; ext := ext s; inDir := inDir s;
                outDir := outDir s;
                trace := trace s ++ [EvProcessFiles loaderType] |}).
  assert (opensNothing s s0) as H0 by (by intros t f Ho).
  etrans; [exact H0|].
  destruct (rdrsOf (ldr s) loaderType) as [|p rs] eqn:Hrs; [done|].
  rewrite <- Hrs.
  apply (processFiles_loop_opensNothing loaderType caching loadOption
           (rdrsOf (ldr s) loaderType).*1 s0).
  cbn [ldr s0]. by rewrite Hrs.
Qed.

Lemma ProcessFolder_loop_opensNothing caching loadOption ldrTypes :
  keeps opensNothing (ProcessFolder_loop env caching loadOption ldrTypes).
Proof.
  induction ldrTypes as [|ldrType rest IH]; cbn [ProcessFolder_loop].
  - apply keeps_ret; tc_solve.
  - keeps_by ltac:(first
      [ apply processFiles_opensNothing
      | apply keeps_sameRdrs_opensNothing, emit_sameRdrs
      | exact IH ]).
Qed.

Lemma moveFiles_loop_sameRdrs filesInDir :
  keeps sameRdrs (moveFiles_loop env filesInDir).
Proof.
  induction filesInDir as [|fName rest IH]; cbn [moveFiles_loop].
  - apply keeps_ret; tc_solve.
  - keeps_by ltac:(first
      [ exact IH
      | apply keeps_modify; intros ?; unfold rename;
        by destruct (sameDir env _ _ _) ]).
Qed.

Lemma moveFiles_sameRdrs : keeps sameRdrs (moveFiles env).
Proof.
  unfold moveFiles. keeps_by ltac:(apply moveFiles_loop_sameRdrs).
Qed.

Lemma ProcessFolder_opensNothing caching loadOption :
  keeps opensNothing (ProcessFolder env caching loadOption).
Proof.
  intros s. unfold ProcessFolder.
  destruct (lockFolder_inv s) as (s1 & err & Hlock & Hldr & _).
  unfold mbind at 1, Run_bind, run_bind at 1. rewrite Hlock.
  assert (opensNothing s s1) as H1.
  { apply sameRdrs_opensNothing. unfold sameRdrs. by rewrite Hldr. }
  destruct err as [e|]; [done|].
  etrans; [exact H1|]. revert s1 Hlock Hldr H1. intros s1 _ _ _.
  revert s1. apply keeps_defer; [tc_solve| |].
  - keeps_by ltac:(first
      [ apply ProcessFolder_loop_opensNothing
      | apply keeps_sameRdrs_opensNothing, moveFiles_sameRdrs ]).
  - intros s1. apply sameRdrs_opensNothing. unfold sameRdrs, unlockFolder.
    by destruct (removeErr env _ _).
Qed.

(** *** The loader types a pass attempts *)

Lemma attempted_app (tr1 tr2 : list Effect) :
  attempted (tr1 ++ tr2) = attempted tr1 ++ attempted tr2.
Proof. apply omap_app. Qed.

Lemma emit_sameAttempted e :
  attempted [e] = [] → keeps sameAttempted (X:=X) (loaders.emit e).
Proof.
  intros He s. unfold sameAttempted. cbn [loaders.emit fst trace].
  rewrite attempted_app, He. apply app_nil_r.
Qed.

Lemma emitAll_sameAttempted es :
  attempted es = [] → keeps sameAttempted (X:=X) (loaders.emitAll es).
Proof.
  intros He s. unfold sameAttempted. cbn [loaders.emitAll fst trace].
  rewrite attempted_app, He. apply app_nil_r.
Qed.

Lemma ask_sameAttempted {A : Type} (f : X → X * A) :
  keeps sameAttempted (loaders.ask f).
Proof. intros s. unfold loaders.ask. by destruct (f (ext s)). Qed.

Ltac attempted_by known :=
  keeps_by ltac:(first
    [ known
    | apply ask_sameAttempted
    | apply emit_sameAttempted; reflexivity
    | apply keeps_modify; intros ?; reflexivity ]).

Lemma callCache_sameAttempted m cachePartition ids :
  keeps sameAttempted (callCache env m cachePartition ids).
Proof. unfold callCache. attempted_by fail. Qed.

Lemma removeItems_sameAttempted cachePartition ids :
  keeps sameAttempted (removeItems env cachePartition ids).
Proof.
  induction ids as [|id ids IH]; cbn [removeItems].
  - apply keeps_ret; tc_solve.
  - attempted_by ltac:(first [apply callCache_sameAttempted | exact IH]).
Qed.

Lemma invalidateCache_sameAttempted caching p itemIDs :
  keeps sameAttempted (invalidateCache env caching p itemIDs).
Proof.
  unfold invalidateCache.
  attempted_by ltac:(first [ apply callCache_sameAttempted
                           | apply removeItems_sameAttempted ]).
Qed.

Lemma isFlusher_sameAttempted flush loaderType tntID lDataSet caching :
  isFlusher env flush →
  keeps sameAttempted (flush loaderType tntID lDataSet caching).
Proof.
  intros [->| ->]; unfold storeLoadedData, removeLoadedData;
    attempted_by ltac:(apply invalidateCache_sameAttempted).
Qed.

Lemma readRow_logs_attempted tpls lineNr (rs : readers) lData hasErrors :
  attempted (rrLogs (readRow env tpls lineNr rs lData hasErrors)) = [].
Proof.
  revert lData hasErrors.
  induction rs as [|[f [rdr|]] rs IH]; intros lData hasErrors;
    cbn [readRow]; [done| |done].
  destruct (csvRdr rdr) as [|line more]; [done|].
  destruct line as [record|e]; [destruct hasErrors|];
    [|destruct (UpdateFromCSV env f record tpls lData) as [ld [e|]]|];
    cbn [rrLogs]; rewrite attempted_app, IH; done.
Qed.

Lemma bufferRow_sameAttempted flush loaderType caching lData :
  isFlusher env flush →
  keeps sameAttempted (bufferRow env flush loaderType caching lData).
Proof.
  intros Hflush. unfold bufferRow.
  attempted_by ltac:(by apply isFlusher_sameAttempted).
Qed.

Lemma flushLast_sameAttempted flush loaderType caching :
  isFlusher env flush →
  keeps sameAttempted (flushLast flush loaderType caching).
Proof.
  intros Hflush. unfold flushLast.
  attempted_by ltac:(by apply isFlusher_sameAttempted).
Qed.

Lemma rowIteration_sameAttempted flush loaderType caching lineNr :
  isFlusher env flush →
  keeps sameAttempted (rowIteration env flush loaderType caching lineNr).
Proof.
  intros Hflush. unfold rowIteration.
  attempted_by ltac:(first
    [ by apply bufferRow_sameAttempted
    | apply emitAll_sameAttempted, readRow_logs_attempted ]).
Qed.

Lemma contentLoop_sameAttempted flush fuel loaderType caching lineNr :
  isFlusher env flush →
  keeps sameAttempted (contentLoop env flush fuel loaderType caching lineNr).
Proof.
  intros Hflush. revert lineNr.
  induction fuel as [|fuel IH]; intros lineNr; cbn [contentLoop].
  - apply keeps_diverge; tc_solve.
  - attempted_by ltac:(first
      [ by apply rowIteration_sameAttempted
      | by apply flushLast_sameAttempted
      | apply IH ]).
Qed.

Lemma selected_sameAttempted loaderType caching loadOption :
  keeps sameAttempted (selected env loaderType caching loadOption).
Proof.
  unfold selected, processContent, removeContent.
  attempted_by ltac:(first [ apply contentLoop_sameAttempted; by left
                           | apply contentLoop_sameAttempted; by right ]).
Qed.

Lemma processFiles_loop_sameAttempted loaderType caching loadOption fNames :
  keeps sameAttempted
    (processFiles_loop env loaderType caching loadOption fNames).
Proof.
  induction fNames as [|fName rest IH]; cbn [processFiles_loop].
  - apply keeps_ret; tc_solve.
  - attempted_by fail.
    apply keeps_defer; [tc_solve| |by intros s].
    fold (selected env loaderType caching loadOption).
    attempted_by ltac:(first [ apply selected_sameAttempted | exact IH ]).
Qed.

(** [processFiles] counts as one attempt of its type, whatever becomes
    of it. *)
Lemma processFiles_attempted loaderType caching loadOption (s : LS X) :
  attempted (trace (processFiles env loaderType caching loadOption s).1)
  = attempted (trace s) ++ [loaderType].
Proof.
  unfold processFiles.
  unfold mbind at 1, Run_bind, run_bind at 1, loaders.emit.
  rewrite bind_get.
  rewrite processFiles_loop_sameAttempted. cbn [trace].
  by rewrite attempted_app.
Qed.

Lemma ProcessFolder_loop_attempted caching loadOption ldrTypes (s : LS X) :
  ∃ tried,
    attempted (trace (ProcessFolder_loop env caching loadOption ldrTypes
                        s).1)
    = attempted (trace s) ++ tried
    ∧ tried `prefix_of` ldrTypes
    ∧ ((ProcessFolder_loop env caching loadOption ldrTypes s).2 ≠ Panics →
       tried = ldrTypes).
Proof.
  revert s. induction ldrTypes as [|ldrType rest IH]; intros s.
  { exists []. cbn. by rewrite app_nil_r. }
  cbn [ProcessFolder_loop]. unfold mbind, Run_bind, run_bind.
  pose proof (processFiles_attempted ldrType caching loadOption s) as Hpf.
  pose proof (processFiles_halts ldrType caching loadOption s) as Hh.
  destruct (processFiles env ldrType caching loadOption s)
    as [s1 [err| |]]; cbn [fst snd] in *; [| |done].
  - assert (∃ s2,
        match err with
        | Some e => loaders.emit (EvLog (LogCannotOpenFiles ldrType e))
        | None => mret tt
        end s1 = (s2, Returns tt)
        ∧ attempted (trace s2) = attempted (trace s1))
      as (s2 & -> & Hs2).
    { destruct err as [e|]; eexists; (split; [done|]).
      - cbn [trace]. rewrite attempted_app. apply app_nil_r.
      - done. }
    destruct (IH s2) as (tried & Htr & Hpre & Hall).
    exists (ldrType :: tried). rewrite Htr, Hs2, Hpf, <- app_assoc.
    split; [done|]. split; [by apply prefix_cons|].
    intros Hnp. f_equal. by apply Hall.
  - exists [ldrType]. rewrite Hpf. split; [done|].
    split; [|done]. apply prefix_cons, prefix_nil.
Qed.

(** *** What a pass does to the two folders *)

Lemma sameFolders_ldr (s s' : LS X) :
  ldr s' = ldr s → inDir s' = inDir s → outDir s' = outDir s →
  sameFolders s s'.
Proof. by intros _ ? ?. Qed.

Ltac folders_by known :=
  keeps_by ltac:(first
    [ known
    | apply keepsLoader_keeps;
      [ apply sameFolders_ldr
      | first [ apply keepsLoader_emit | apply keepsLoader_ask ] ]
    | apply keeps_modify; intros ?; split; reflexivity ]).

Lemma emitAll_sameFolders es :
  keeps sameFolders (X:=X) (loaders.emitAll es).
Proof. by intros s. Qed.

Lemma bufferRow_sameFolders flush loaderType caching lData :
  isFlusher env flush →
  keeps sameFolders (bufferRow env flush loaderType caching lData).
Proof.
  intros Hflush. unfold bufferRow.
  folders_by ltac:(by apply isFlusher_keeps, Hflush; apply sameFolders_ldr).
Qed.

Lemma flushLast_sameFolders flush loaderType caching :
  isFlusher env flush →
  keeps sameFolders (flushLast flush loaderType caching).
Proof.
  intros Hflush. unfold flushLast.
  folders_by ltac:(by apply isFlusher_keeps, Hflush; apply sameFolders_ldr).
Qed.

Lemma rowIteration_sameFolders flush loaderType caching lineNr :
  isFlusher env flush →
  keeps sameFolders (rowIteration env flush loaderType caching lineNr).
Proof.
  intros Hflush. unfold rowIteration.
  folders_by ltac:(first [ by apply bufferRow_sameFolders
                         | apply emitAll_sameFolders ]).
Qed.

Lemma contentLoop_sameFolders flush fuel loaderType caching lineNr :
  isFlusher env flush →
  keeps sameFolders (contentLoop env flush fuel loaderType caching lineNr).
Proof.
  intros Hflush. revert lineNr.
  induction fuel as [|fuel IH]; intros lineNr; cbn [contentLoop].
  - apply keeps_diverge; tc_solve.
  - folders_by ltac:(first
      [ by apply rowIteration_sameFolders
      | by apply flushLast_sameFolders
      | apply IH ]).
Qed.

Lemma selected_sameFolders loaderType caching loadOption :
  keeps sameFolders (selected env loaderType caching loadOption).
Proof.
  unfold selected, processContent, removeContent.
  folders_by ltac:(first [ apply contentLoop_sameFolders; by left
                         | apply contentLoop_sameFolders; by right ]).
Qed.

Lemma processFiles_loop_sameFolders loaderType caching loadOption fNames :
  keeps sameFolders
    (processFiles_loop env loaderType caching loadOption fNames).
Proof.
  induction fNames as [|fName rest IH]; cbn [processFiles_loop].
  - apply keeps_ret; tc_solve.
  - folders_by fail.
    apply keeps_defer; [tc_solve| |by intros s].
    fold (selected env loaderType caching loadOption).
    folders_by ltac:(first [ apply selected_sameFolders | exact IH ]).
Qed.

Lemma processFiles_sameFolders loaderType caching loadOption :
  keeps sameFolders (processFiles env loaderType caching loadOption).
Proof.
  unfold processFiles.
  folders_by ltac:(apply processFiles_loop_sameFolders).
Qed.

Lemma ProcessFolder_loop_sameFolders caching loadOption ldrTypes :
  keeps sameFolders (ProcessFolder_loop env caching loadOption ldrTypes).
Proof.
  induction ldrTypes as [|ldrType rest IH]; cbn [ProcessFolder_loop].
  - apply keeps_ret; tc_solve.
  - folders_by ltac:(first [ apply processFiles_sameFolders | exact IH ]).
Qed.

(** The names [ioutil.ReadDir] gives are those of the files. *)
Lemma elem_of_ReadDir (dir : gmap string (list readResult)) fName :
  fName ∈ ReadDir dir ↔ is_Some (dir !! fName).
Proof.
  unfold ReadDir. rewrite merge_sort_Permutation.
  rewrite list_elem_of_fmap. split.
  - intros ([k c] & -> & Hin). apply elem_of_map_to_list in Hin. eauto.
  - intros [c Hc]. exists (fName, c). split; [done|].
    by apply elem_of_map_to_list.
Qed.


(** What [unlockFolder] and [rename] leave alone. *)
Lemma unlockFolder_frame (s : LS X) :
  ldr (unlockFolder env s) = ldr s ∧ ext (unlockFolder env s) = ext s
  ∧ trace (unlockFolder env s) = trace s
  ∧ outDir (unlockFolder env s) = outDir s
  ∧ ∀ k, k ≠ lockFilename (ldr s) →
         inDir (unlockFolder env s) !! k = inDir s !! k.
Proof.
  unfold unlockFolder. destruct (removeErr env _ _); [done|].
  repeat split. intros k Hk. cbn [inDir]. by rewrite lookup_delete_ne.
Qed.

(** The lock file after [unlockFolder]: there when it was there and
    [os.Remove] failed. *)
Lemma unlockFolder_lock (s : LS X) :
  inDir (unlockFolder env s) !! lockFilename (ldr s)
  = match removeErr env (ext s) (lockFilename (ldr s)) with
    | Some _ => inDir s !! lockFilename (ldr s)
    | None => None
    end.
Proof.
  unfold unlockFolder. destruct (removeErr env _ _); [done|].
  cbn [inDir]. apply lookup_delete_eq.
Qed.

Lemma rename_frame fName (s : LS X) :
  ldr (rename env fName s) = ldr s ∧ ext (rename env fName s) = ext s
  ∧ trace (rename env fName s) = trace s.
Proof. unfold rename. by destruct (sameDir env _ _ _). Qed.

(** The loop of [moveFiles] leaves the loader, the services, the trace
    and the lock file as they are, however it ends. *)
Lemma moveFiles_loop_frame filesInDir (s : LS X) :
  let s' := (moveFiles_loop env filesInDir s).1 in
  ldr s' = ldr s ∧ ext s' = ext s ∧ trace s' = trace s
  ∧ inDir s' !! lockFilename (ldr s) = inDir s !! lockFilename (ldr s).
Proof.
  revert s. induction filesInDir as [|fName rest IH]; intros s; [done|].
  cbn [moveFiles_loop]. rewrite bind_get.
  destruct (String.eqb_spec fName (lockFilename (ldr s))) as [->|Hlock];
    [apply IH|].
  rewrite bind_get. destruct (renameErr env (ext s) fName); [done|].
  rewrite bind_modify.
  destruct (IH (rename env fName s)) as (Hl & He & Ht & Hin).
  destruct (rename_frame fName s) as (Hl1 & He1 & Ht1).
  cbv zeta. rewrite Hl, He, Ht, Hl1, He1, Ht1. repeat split.
  rewrite Hl1 in Hin. rewrite Hin. unfold rename.
  destruct (sameDir env _ _ _); [done|]. cbn [inDir].
  by rewrite lookup_delete_ne.
Qed.

Lemma moveFiles_frame (s : LS X) :
  let s' := (moveFiles env s).1 in
  ldr s' = ldr s ∧ ext s' = ext s ∧ trace s' = trace s
  ∧ inDir s' !! lockFilename (ldr s) = inDir s !! lockFilename (ldr s).
Proof. unfold moveFiles. rewrite bind_get. apply moveFiles_loop_frame. Qed.



(** The error of the loop of [moveFiles] is that of a rename. *)
Lemma moveFiles_loop_err filesInDir (s s' : LS X) e :
  moveFiles_loop env filesInDir s = (s', Returns (Some e)) →
  ∃ fName, fName ∈ filesInDir ∧ fName ≠ lockFilename (ldr s)
           ∧ renameErr env (ext s) fName = Some e.
Proof.
  revert s. induction filesInDir as [|fName rest IH]; intros s; [done|].
  cbn [moveFiles_loop]. rewrite bind_get.
  destruct (String.eqb_spec fName (lockFilename (ldr s))) as [->|Hlock].
  { intros (f & Hf & Hne & Hr)%IH. exists f. split; [by right|done]. }
  rewrite bind_get.
  destruct (renameErr env (ext s) fName) as [e'|] eqn:Hren.
  { intros [= <- <-]. exists fName. split; [left|done]. }
  rewrite bind_modify.
  destruct (rename_frame fName s) as (Hl1 & He1 & _).
  intros (f & Hf & Hne & Hr)%IH. rewrite Hl1, He1 in *.
  exists f. split; [by right|done].
Qed.

(** The names [moveFiles] goes over are files of the folder. *)
Lemma moveFiles_err (s s' : LS X) e :
  moveFiles env s = (s', Returns (Some e)) →
  ∃ fName, is_Some (inDir s !! fName) ∧ fName ≠ lockFilename (ldr s)
           ∧ renameErr env (ext s) fName = Some e.
Proof.
  unfold moveFiles. rewrite bind_get.
  intros (f & Hf & Hne & Hr)%moveFiles_loop_err. exists f.
  split; [|done].
  destruct (readDirErr env _ _); [by apply elem_of_nil in Hf|].
  by apply elem_of_ReadDir.
Qed.

(** *** [ProcessFolder], step by step *)

Lemma ProcessFolder_locked caching loadOption (s : LS X) :
  createErr env (ext s) (lockFilename (ldr s)) = None →
  ∃ s1,
    ldr s1 = ldr s ∧ ext s1 = ext s ∧ outDir s1 = outDir s
    ∧ trace s1 = trace s
    ∧ inDir s1 = match inDir s !! lockFilename (ldr s) with
                 | Some _ => inDir s
                 | None => <[ lockFilename (ldr s) := [] ]> (inDir s)
                 end
    ∧ ProcessFolder env caching loadOption s
      = match ProcessFolder_loop env caching loadOption (rdrs (ldr s)).*1
                s1 with
        | (s2, Returns _) =>
            match moveFiles env s2 with
            | (s3, Diverges) => (s3, Diverges)
            | (s3, o) => (unlockFolder env s3, o)
            end
        | (s2, Panics) => (unlockFolder env s2, Panics)
        | (s2, Diverges) => (s2, Diverges)
        end.
Proof.
  intros Hcreate.
  destruct (lockFolder_inv s) as (s1 & err & Hlock & Hl & He & Ho & Ht & H).
  rewrite Hcreate in H. destruct H as [-> Hin].
  exists s1. repeat split; [done..|].
  unfold ProcessFolder. unfold mbind at 1, Run_bind, run_bind at 1.
  rewrite Hlock. unfold run_defer. rewrite bind_get, Hl.
  unfold mbind, Run_bind, run_bind.
  destruct (ProcessFolder_loop env caching loadOption _ s1)
    as [s2 [[]| |]]; [|done..].
  by destruct (moveFiles env s2) as [s3 [o| |]].
Qed.


(** *** The folder pass *)

Lemma moveFiles_trace (s : LS X) : trace (moveFiles env s).1 = trace s.
Proof. apply moveFiles_frame. Qed.

(** The lock file is in the folder when the loop over the types and
    [moveFiles] are through. *)
Lemma ProcessFolder_body_lock caching loadOption ldrTypes (s1 : LS X) :
  let body := ProcessFolder_loop env caching loadOption ldrTypes
              ≫= λ _, moveFiles env in
  lockFilename (ldr (body s1).1) = lockFilename (ldr s1)
  ∧ inDir (body s1).1 !! lockFilename (ldr s1)
    = inDir s1 !! lockFilename (ldr s1).
Proof.
  cbv zeta. unfold mbind, Run_bind, run_bind.
  pose proof (ProcessFolder_loop_sameFolders caching loadOption ldrTypes s1)
    as [Hin2 _].
  pose proof (ProcessFolder_loop_keepsConfig caching loadOption ldrTypes s1)
    as [Hlock2 _].
  destruct (ProcessFolder_loop env caching loadOption _ s1)
    as [s2 [[]| |]]; cbn [fst snd] in *; [|by rewrite Hin2..].
  destruct (moveFiles_frame s2) as (Hl3 & _ & _ & Hin3).
  rewrite Hlock2 in Hin3. by rewrite Hl3, Hin3, Hin2.
Qed.

(** X1 ([Loader.ProcessFolder], [lockFolder], [unlockFolder]).  A pass
    that could create the lock file always ends, by a return or a panic,
    and the deferred [unlockFolder] has run in both cases, its error
    dropped: the folder is left unlocked exactly when [os.Remove] did
    not fail on the lock file, whether or not the pass put the file
    there.  A lock file that cannot be removed stays. *)
Theorem pass_releases_lock caching loadOption (s : LS X) :
  createErr env (ext s) (lockFilename (ldr s)) = None →
  let r := ProcessFolder env caching loadOption s in
  r.2 ≠ Diverges
  ∧ (isFolderLocked r.1 = false
     ↔ removeErr env (ext r.1) (lockFilename (ldr s)) = None).
Proof.
  intros Hcreate. cbv zeta. split; [apply ProcessFolder_halts|].
  destruct (ProcessFolder_locked caching loadOption s Hcreate)
    as (s1 & Hl & He & Ho & Ht & Hin & ->).
  pose proof (ProcessFolder_body_lock caching loadOption
                (rdrs (ldr s)).*1 s1) as Hbody.
  pose proof (ProcessFolder_loop_halts caching loadOption
                (rdrs (ldr s)).*1 s1) as Hhalts.
  cbv zeta in Hbody. unfold mbind, Run_bind, run_bind in Hbody.
  assert (is_Some (inDir s1 !! lockFilename (ldr s))) as Hthere.
  { rewrite Hin. destruct (inDir s !! lockFilename (ldr s)) eqn:Hold.
    - by rewrite Hold.
    - by rewrite lookup_insert_eq. }
  rewrite Hl in Hbody.
  assert (∀ s3 : LS X,
            lockFilename (ldr s3) = lockFilename (ldr s) →
            inDir s3 !! lockFilename (ldr s)
            = inDir s1 !! lockFilename (ldr s) →
            isFolderLocked (unlockFolder env s3) = false
            ↔ removeErr env (ext (unlockFolder env s3))
                (lockFilename (ldr s)) = None) as Hunlock.
  { intros s3 Hl3 Hin3. unfold isFolderLocked.
    destruct (unlockFolder_frame s3) as (Hlu & Heu & _).
    rewrite Hlu, Heu, unlockFolder_lock, Hl3, Hin3.
    rewrite bool_decide_eq_false.
    destruct (removeErr env (ext s3) (lockFilename (ldr s))).
    - split; [by intros []|done].
    - split; [done|]. by intros _ [? ?]. }
  destruct (ProcessFolder_loop env caching loadOption _ s1)
    as [s2 [[]| |]]; cbn [fst snd] in *; [| |done].
  - pose proof (moveFiles_halts s2) as Hmv.
    destruct (moveFiles env s2) as [s3 [o| |]]; cbn [fst snd] in *;
      [| |done]; apply Hunlock; apply Hbody.
  - apply Hunlock; apply Hbody.
Qed.

(** X2 ([Loader.ProcessFolder]).  A pass that locked the folder calls
    [processFiles] on the loader types in the order of the range, one
    call each; whatever [processFiles] returns, the next type is tried,
    so that a pass that does not panic has tried every type. *)
Theorem pass_attempts_every_type caching loadOption (s : LS X) :
  createErr env (ext s) (lockFilename (ldr s)) = None →
  ∃ tried,
    attempted (trace (ProcessFolder env caching loadOption s).1)
    = attempted (trace s) ++ tried
    ∧ tried `prefix_of` (rdrs (ldr s)).*1
    ∧ ((ProcessFolder env caching loadOption s).2 ≠ Panics →
       tried = (rdrs (ldr s)).*1).
Proof.
  intros Hcreate.
  destruct (ProcessFolder_locked caching loadOption s Hcreate)
    as (s1 & Hl & He & Ho & Ht & Hin & ->).
  destruct (ProcessFolder_loop_attempted caching loadOption
              (rdrs (ldr s)).*1 s1) as (tried & Htr & Hpre & Hall).
  rewrite Ht in Htr. exists tried.
  destruct (ProcessFolder_loop env caching loadOption _ s1)
    as [s2 [[]| |]]; cbn [fst snd] in *.
  - pose proof (moveFiles_trace s2) as Hmv.
    destruct (moveFiles env s2) as [s3 [o| |]];
      cbn [fst snd] in *;
      rewrite ?(proj1 (proj2 (proj2 (unlockFolder_frame s3)))), Hmv, Htr;
      (split; [done|]); (split; [done|]);
      intros _; by apply Hall.
  - rewrite (proj1 (proj2 (proj2 (unlockFolder_frame s2)))), Htr.
    split; [done|]. split; [done|]. by intros [].
  - rewrite Htr. split; [done|]. split; [done|]. intros _. by apply Hall.
Qed.

(** X3 ([Loader.ProcessFolder], [moveFiles]).  What a pass that locked
    the folder returns is what [moveFiles] returns: an error of
    [processFiles] is logged and dropped, and the only error the caller
    can see is that of renaming a file of the folder. *)
Theorem pass_returns_rename_error caching loadOption (s : LS X) e :
  createErr env (ext s) (lockFilename (ldr s)) = None →
  (ProcessFolder env caching loadOption s).2 = Returns (Some e) →
  ∃ fName,
    is_Some (inDir s !! fName) ∧ fName ≠ lockFilename (ldr s)
    ∧ renameErr env (ext (ProcessFolder env caching loadOption s).1) fName
      = Some e.
Proof.
  intros Hcreate.
  destruct (ProcessFolder_locked caching loadOption s Hcreate)
    as (s1 & Hl & He & Ho & Ht & Hin & ->).
  pose proof (ProcessFolder_loop_sameFolders caching loadOption
                (rdrs (ldr s)).*1 s1) as [Hin2 _].
  pose proof (ProcessFolder_loop_keepsConfig caching loadOption
                (rdrs (ldr s)).*1 s1) as [Hlock2 _].
  destruct (ProcessFolder_loop env caching loadOption _ s1)
    as [s2 [[]| |]]; cbn [fst snd] in *; [|done..].
  destruct (moveFiles_frame s2) as (_ & Hext & _).
  destruct (moveFiles env s2) as [s3 o] eqn:Hmv.
  destruct o as [[e'|]| |]; cbn [fst snd] in *; try done.
  intros [= ->].
  apply moveFiles_err in Hmv as (f & Hf & Hne & Hren).
  exists f. rewrite Hlock2, Hl in Hne. split; [|split; [done|]].
  - rewrite Hin2, Hin in Hf.
    destruct (inDir s !! lockFilename (ldr s)); [done|].
    by rewrite lookup_insert_ne in Hf.
  - rewrite (proj1 (proj2 (unlockFolder_frame s3))). by rewrite Hext.
Qed.


(** X5 ([Loader.processFiles], [unreferenceFile]).  A pass closes the
    files it opens: a file that is open when [ProcessFolder] or
    [processFiles] is left, by a return or by a panic, was open when it
    was entered.  The deferred [unreferenceFile] of each file does it. *)
Theorem pass_closes_files caching loadOption (s : LS X) :
  opensNothing s (ProcessFolder env caching loadOption s).1
  ∧ ∀ loaderType,
      opensNothing s (processFiles env loaderType caching loadOption s).1.
Proof.
  split.
  - apply ProcessFolder_opensNothing.
  - intros loaderType. apply processFiles_opensNothing.
Qed.

(** *** One row *)

(** What [readRow] makes of the readers: those before the first one at
    its end have given a line each, the others are as they were. *)
Lemma readRow_shape tpls lineNr (rs : readers) lData hasErrors :
  rrPanic (readRow env tpls lineNr rs lData hasErrors) = false →
  (Forall hasLine rs
   ∧ rrRdrs (readRow env tpls lineNr rs lData hasErrors) = advance <$> rs
   ∧ rrKeepLooping (readRow env tpls lineNr rs lData hasErrors) = true)
  ∨ (∃ pre fName rdr post,
       rs = pre ++ (fName, Some rdr) :: post
       ∧ Forall hasLine pre ∧ csvRdr rdr = []
       ∧ rrRdrs (readRow env tpls lineNr rs lData hasErrors)
         = (advance <$> pre) ++ (fName, Some rdr) :: post
       ∧ rrKeepLooping (readRow env tpls lineNr rs lData hasErrors)
         = false).
Proof.
  revert lData hasErrors.
  induction rs as [|[f [rdr|]] rs IH]; intros lData hasErrors;
    cbn [readRow]; [by left| |done].
  destruct (csvRdr rdr) as [|line more] eqn:Hlines.
  { intros _. right. exists [], f, rdr, rs. by repeat split. }
  set (step := match line with
               | Rec _ => _
               | ReadErr e => _
               end).
  destruct step as [[lData' hasErrors'] logs]. cbn [rrPanic rrRdrs rrKeepLooping].
  intros Hpanic.
  assert (hasLine (f, Some rdr)) as Hf by (by exists rdr, line, more).
  assert (advance (f, Some rdr)
          = (f, Some {| fileName := fileName rdr; csvRdr := more |}))
    as Hadv by (unfold advance; cbn; by rewrite Hlines).
  destruct (IH lData' hasErrors' Hpanic)
    as [(Hall & -> & ->)|(pre & f' & r' & post & -> & Hpre & Hr' & -> & ->)].
  - left. repeat split; [by constructor|]. cbn [fmap list_fmap].
    by rewrite Hadv.
  - right. exists ((f, Some rdr) :: pre), f', r', post.
    repeat split; [by constructor|done|].
    cbn [fmap list_fmap app]. by rewrite Hadv.
Qed.

(** A reader that is nil, met before any reader at its end, is
    dereferenced. *)
Lemma readRow_nil_reader tpls lineNr (pre post : readers) fName lData
    hasErrors :
  Forall hasLine pre →
  rrPanic (readRow env tpls lineNr (pre ++ (fName, None) :: post) lData
             hasErrors) = true.
Proof.
  revert lData hasErrors.
  induction pre as [|[f rdr] pre IH]; intros lData hasErrors Hpre; [done|].
  apply Forall_cons in Hpre as [(r & line & more & Hr & Hlines) Hpre].
  cbn in Hr. subst rdr. cbn [app readRow]. rewrite Hlines.
  set (step := match line with
               | Rec _ => _
               | ReadErr e => _
               end).
  destruct step as [[lData' hasErrors'] logs]. cbn [rrPanic].
  by apply IH.
Qed.

Lemma rdrsOf_setRdrsOf_keys loaderType (rs : readers) (l : Loader) :
  rs.*1 = (rdrsOf l loaderType).*1 →
  rdrsOf (setRdrsOf loaderType rs l) loaderType = rs.
Proof.
  intros Hkeys.
  destruct (rdrsOf_setRdrsOf_inv loaderType rs l) as [?|Hnil]; [done|].
  rewrite Hnil. unfold rdrsOf in *. unfold setRdrsOf, withRdrs in Hnil.
  cbn [rdrs] in Hnil.
  destruct (assoc loaderType (rdrs l)) as [old|] eqn:Hold.
  - rewrite assoc_assoc_set in Hnil by (by eapply assoc_Some_key).
    by cbn in Hnil.
  - cbn in Hkeys. by destruct rs.
Qed.

(** X6 ([Loader.processContent], [Loader.removeContent]: the loop over
    the readers).  One row iteration that does not panic takes one line
    from each reader of the type, read errors included, up to the first
    reader that is at its end; that reader and those after it are left
    as they are, and the row loop ends.  With no reader at its end every
    reader has moved by one line and the loop goes on. *)
Theorem readers_in_lockstep flush loaderType caching lineNr (s s' : LS X)
    err keep :
  isFlusher env flush →
  rowIteration env flush loaderType caching lineNr s
  = (s', Returns (err, keep)) →
  (Forall hasLine (rdrsOf (ldr s) loaderType)
   ∧ rdrsOf (ldr s') loaderType = advance <$> rdrsOf (ldr s) loaderType
   ∧ keep = true)
  ∨ (∃ pre fName rdr post,
       rdrsOf (ldr s) loaderType = pre ++ (fName, Some rdr) :: post
       ∧ Forall hasLine pre ∧ csvRdr rdr = []
       ∧ rdrsOf (ldr s') loaderType
         = (advance <$> pre) ++ (fName, Some rdr) :: post
       ∧ keep = false).
Proof.
  intros Hflush Hrow.
  apply rowIteration_Returns in Hrow as (Hpanic & -> & Hrdrs); [|done].
  assert (rdrsOf (ldr s') loaderType
          = rrRdrs (readRow env (default [] (dataTpls (ldr s) !! loaderType))
                      lineNr (rdrsOf (ldr s) loaderType) ∅ false)) as ->.
  { unfold rdrsOf at 1. rewrite Hrdrs.
    apply rdrsOf_setRdrsOf_keys, readRow_keys. }
  by apply readRow_shape.
Qed.

(** A row that [bufferRow] has buffered is the last of the group under
    its tenant key. *)
Lemma bufferRow_buffered flush loaderType caching lData (s s' : LS X) :
  isFlusher env flush →
  bufferRow env flush loaderType caching lData s = (s', Returns None) →
  ∃ rows,
    bufLoaderData (ldr s') !! TenantID env lData = Some (rows ++ [lData]).
Proof.
  intros Hflush. unfold bufferRow. rewrite bind_get. cbv zeta.
  destruct (negb _ && _).
  - unfold mbind at 1, Run_bind, run_bind at 1.
    unfold mbind at 1, Run_bind, run_bind at 1.
    destruct (flush loaderType _ _ caching s) as [s1 [[e|]| |]];
      [done| |done..].
    unfold_monad. cbn [fst snd]. intros [= <-]. eexists.
    cbn [ldr modLdr withBuf bufLoaderData]. apply lookup_insert_eq.
  - unfold_monad. cbn [fst snd]. intros [= <-]. eexists.
    cbn [ldr modLdr withBuf bufLoaderData]. apply lookup_insert_eq.
Qed.

(** X7 ([Loader.processContent], [Loader.removeContent]: [hasErrors]).
    A row for which [hasErrors] was set, by a line that does not parse
    or by templates that fail, is not discarded: when the row holds
    data, which it does when templates decoded fields before one of
    them failed, a row iteration that returns no error has buffered it
    as the last row of the group under its tenant key.  [hasErrors] is
    never looked at after the loop over the readers. *)
Theorem failed_row_is_buffered flush loaderType caching lineNr (s s' : LS X)
    keep :
  let rr := readRow env (default [] (dataTpls (ldr s) !! loaderType))
              lineNr (rdrsOf (ldr s) loaderType) ∅ false in
  isFlusher env flush →
  rrHasErrors rr = true →
  size (rrData rr) ≠ 0 →
  rowIteration env flush loaderType caching lineNr s
  = (s', Returns (None, keep)) →
  ∃ rows,
    bufLoaderData (ldr s') !! TenantID env (rrData rr)
    = Some (rows ++ [rrData rr]).
Proof.
  intros rr Hflush _ Hsize. unfold rowIteration.
  rewrite bind_get, bind_modify. cbv zeta. fold rr.
  unfold mbind at 1, Run_bind, run_bind at 1, loaders.emitAll.
  destruct (rrPanic rr); [done|].
  rewrite bool_decide_eq_false_2 by done.
  unfold mbind, Run_bind, run_bind.
  destruct (bufferRow env flush loaderType caching (rrData rr) _)
    as [s2 [err| |]] eqn:Hbuf; [|done..].
  unfold mret, Run_ret, run_ret. intros [= <- -> _].
  by eapply bufferRow_buffered.
Qed.

(** X8 ([Loader.processContent], [Loader.removeContent]: the row loop).
    On a loader type that has no reader the row loop never ends: no
    reader is there to give [io.EOF], the row stays empty and the loop
    goes to its next round.  No bound on the rounds lets it return. *)
Theorem no_readers_no_end flush loaderType caching (s : LS X) :
  rdrsOf (ldr s) loaderType = [] →
  (∀ fuel lineNr,
     (contentLoop env flush fuel loaderType caching lineNr s).2
     = Diverges)
  ∧ (processContent env loaderType caching s).2 = Diverges
  ∧ (removeContent env loaderType caching s).2 = Diverges.
Proof.
  intros Hrs.
  assert (∀ flush fuel lineNr (s : LS X),
            rdrsOf (ldr s) loaderType = [] →
            (contentLoop env flush fuel loaderType caching lineNr s).2
            = Diverges) as Hloop.
  { clear. intros flush fuel. induction fuel as [|fuel IH];
      intros lineNr s Hrs; [done|].
    cbn [contentLoop]. unfold rowIteration.
    unfold mbind at 1, Run_bind, run_bind at 1.
    rewrite bind_get, bind_modify, Hrs. cbn [readRow rrRdrs rrLogs rrPanic
      rrData rrKeepLooping].
    unfold mbind, Run_bind, run_bind, loaders.emitAll, mret, Run_ret,
      run_ret.
    cbn [fst snd]. rewrite map_size_empty.
    rewrite bool_decide_eq_true_2 by done. cbn [fst snd].
    apply IH. cbn [ldr modLdr].
    destruct (rdrsOf_setRdrsOf_inv loaderType [] (ldr s)); done. }
  split; [by intros; apply Hloop|].
  unfold processContent, removeContent. rewrite !bind_get.
  split; by apply Hloop.
Qed.

(** *** A storage error ends the work on the type *)

Lemma noFailure_app (evs1 evs2 : list Effect) :
  noFailure (evs1 ++ evs2) ↔ noFailure evs1 ∧ noFailure evs2.
Proof. apply Forall_app. Qed.

Lemma quiet_ret {A : Type} (a : A) : quiet (mret a : Run (LS X) A).
Proof. intros s. exists []. split; [by rewrite app_nil_r|constructor]. Qed.

Lemma quiet_panic {A : Type} : quiet (run_panic : Run (LS X) A).
Proof. intros s. exists []. split; [by rewrite app_nil_r|constructor]. Qed.

Lemma quiet_diverge {A : Type} : quiet (run_diverge : Run (LS X) A).
Proof. intros s. exists []. split; [by rewrite app_nil_r|constructor]. Qed.

Lemma quiet_get {A : Type} (f : LS X → A) : quiet (loaders.get f).
Proof. intros s. exists []. split; [by rewrite app_nil_r|constructor]. Qed.

Lemma quiet_ask {A : Type} (f : X → X * A) : quiet (loaders.ask f).
Proof.
  intros s. exists []. unfold loaders.ask. destruct (f (ext s)).
  split; [by rewrite app_nil_r|constructor].
Qed.

Lemma quiet_modify (f : LS X → LS X) :
  (∀ s, trace (f s) = trace s) → quiet (loaders.modify f).
Proof.
  intros Hf s. exists []. cbn. rewrite Hf.
  split; [by rewrite app_nil_r|constructor].
Qed.

Lemma quiet_emit e : flushError e = None → quiet (X:=X) (loaders.emit e).
Proof. intros He s. exists [e]. split; [done|]. by repeat constructor. Qed.

Lemma quiet_emitAll es : noFailure es → quiet (X:=X) (loaders.emitAll es).
Proof. intros He s. by exists es. Qed.

Lemma quiet_bind {A B : Type} (m : Run (LS X) A) (k : A → Run (LS X) B) :
  quiet m → (∀ a, quiet (k a)) → quiet (m ≫= k).
Proof.
  intros Hm Hk s. unfold mbind, Run_bind, run_bind.
  destruct (Hm s) as (evs1 & Ht1 & H1).
  destruct (m s) as [s1 [a| |]]; cbn [fst snd] in *; [|by eauto..].
  destruct (Hk a s1) as (evs2 & Ht2 & H2).
  exists (evs1 ++ evs2). rewrite Ht2, Ht1, app_assoc.
  split; [done|]. by apply noFailure_app.
Qed.

Lemma quiet_defer {A : Type} (m : Run (LS X) A) (d : LS X → LS X) :
  quiet m → (∀ s, trace (d s) = trace s) → quiet (run_defer m d).
Proof.
  intros Hm Hd s. unfold run_defer. destruct (Hm s) as (evs & Ht & H).
  destruct (m s) as [s1 [a| |]]; cbn [fst snd] in *; rewrite ?Hd; eauto.
Qed.

Ltac quiet_step known :=
  first
    [ known
    | apply quiet_ret
    | apply quiet_panic
    | apply quiet_diverge
    | apply quiet_get
    | apply quiet_ask
    | apply quiet_emit; reflexivity
    | apply quiet_modify; intros ?; reflexivity
    | apply quiet_bind; [|intros ?]
    | match goal with
      | |- quiet (if ?b then _ else _) => destruct b
      | |- quiet (match ?x with _ => _ end) => destruct x
      | |- quiet (let _ := _ in _) => cbv zeta
      end ].

Ltac quiet_by known := repeat quiet_step known.

Lemma callCache_quiet m cachePartition ids :
  quiet (callCache env m cachePartition ids).
Proof. unfold callCache. quiet_by fail. Qed.

Lemma removeItems_quiet cachePartition ids :
  quiet (removeItems env cachePartition ids).
Proof.
  induction ids as [|id ids IH]; cbn [removeItems].
  - apply quiet_ret.
  - quiet_by ltac:(first [apply callCache_quiet | exact IH]).
Qed.

Lemma invalidateCache_quiet caching p itemIDs :
  quiet (invalidateCache env caching p itemIDs).
Proof.
  unfold invalidateCache.
  quiet_by ltac:(first [apply callCache_quiet | apply removeItems_quiet]).
Qed.

Lemma stopsWith_ret {A : Type} (errOf : A → option error) (a : A) :
  traces (mret a : Run (LS X) A) (stopsWith errOf).
Proof.
  intros s. exists []. split; [by rewrite app_nil_r|]. left. constructor.
Qed.

Lemma stopsWith_quiet {A : Type} (errOf : A → option error)
    (m : Run (LS X) A) :
  quiet m → traces m (stopsWith errOf).
Proof. intros Hm s. destruct (Hm s) as (evs & ? & ?). exists evs. by split; [|left]. Qed.

(** After what makes no failing call. *)
Lemma stopsWith_after {A B : Type} (errOf : B → option error)
    (m : Run (LS X) A) (k : A → Run (LS X) B) :
  quiet m → (∀ a, traces (k a) (stopsWith errOf)) →
  traces (m ≫= k) (stopsWith errOf).
Proof.
  intros Hm Hk s. unfold mbind, Run_bind, run_bind.
  destruct (Hm s) as (evs1 & Ht1 & H1).
  destruct (m s) as [s1 [a| |]]; cbn [fst snd] in *;
    [|exists evs1; split; [done|by left]..].
  destruct (Hk a s1) as (evs2 & Ht2 & H2).
  exists (evs1 ++ evs2). rewrite Ht2, Ht1, app_assoc. split; [done|].
  destruct H2 as [H2|(pre & e & err & b & -> & He & Hpre & Ho & Hb)].
  - left. by apply noFailure_app.
  - right. exists (evs1 ++ pre), e, err, b. rewrite app_assoc.
    repeat split; try done. by apply noFailure_app.
Qed.

(** Before what runs only when no error came back. *)
Lemma stopsWith_then {A B : Type} (errOfA : A → option error)
    (errOf : B → option error) (m : Run (LS X) A) (k : A → Run (LS X) B) :
  traces m (stopsWith errOfA) →
  (∀ a e, errOfA a = Some e → ∃ b, k a = mret b ∧ errOf b = Some e) →
  (∀ a, errOfA a = None → traces (k a) (stopsWith errOf)) →
  traces (m ≫= k) (stopsWith errOf).
Proof.
  intros Hm Herr Hk s. unfold mbind, Run_bind, run_bind.
  destruct (Hm s) as (evs1 & Ht1 & H1).
  destruct (m s) as [s1 [a| |]]; cbn [fst snd] in *.
  - destruct (errOfA a) as [e|] eqn:Ha.
    + destruct (Herr a e Ha) as (b & -> & Hb). exists evs1.
      split; [done|].
      destruct H1 as [H1|(pre & e' & err & a' & -> & He & Hpre & [= <-] & Ha')];
        [by left|].
      right. exists pre, e', err, b. repeat split; try done. congruence.
    + destruct H1 as [H1|(pre & e' & err & a' & -> & He & Hpre & [= <-] & Ha')];
        [|congruence].
      destruct (Hk a Ha s1) as (evs2 & Ht2 & H2).
      exists (evs1 ++ evs2). rewrite Ht2, Ht1, app_assoc. split; [done|].
      destruct H2 as [H2|(pre & e & err & b & -> & He & Hpre & Ho & Hb)].
      * left. by apply noFailure_app.
      * right. exists (evs1 ++ pre), e, err, b. rewrite app_assoc.
        repeat split; try done. by apply noFailure_app.
  - exists evs1. split; [done|]. left.
    by destruct H1 as [H1|(? & ? & ? & ? & _ & _ & _ & ? & _)].
  - exists evs1. split; [done|]. left.
    by destruct H1 as [H1|(? & ? & ? & ? & _ & _ & _ & ? & _)].
Qed.

Lemma stopsWith_defer {A : Type} (errOf : A → option error)
    (m : Run (LS X) A) (d : LS X → LS X) :
  traces m (stopsWith errOf) → (∀ s, trace (d s) = trace s) →
  traces (run_defer m d) (stopsWith errOf).
Proof.
  intros Hm Hd s. unfold run_defer. destruct (Hm s) as (evs & Ht & H).
  destruct (m s) as [s1 [a| |]]; cbn [fst snd] in *; rewrite ?Hd; eauto.
Qed.

(** A call to storage: what the cache is asked, then the call with its
    error, which is what is returned. *)
Lemma isFlusher_stops flush loaderType tntID lDataSet caching :
  isFlusher env flush →
  traces (flush loaderType tntID lDataSet caching) (stopsWith id).
Proof.
  intros [->| ->]; unfold storeLoadedData, removeLoadedData;
    (apply stopsWith_after; [apply quiet_get|intros l]);
    (apply stopsWith_after; [apply quiet_ask|intros p]).
  - set (m := match persistErr p with Some e => _ | None => _ end).
    assert (quiet m) as Hm.
    { subst m. quiet_by ltac:(apply invalidateCache_quiet). }
    intros s. unfold mbind, Run_bind, run_bind.
    destruct (Hm s) as (evs & Ht & Hq).
    destruct (m s) as [s1 [err| |]]; cbn [fst snd] in *;
      [|exists evs; split; [done|by left]..].
    exists (evs ++ [EvStore loaderType tntID lDataSet err]).
    unfold loaders.emit, mret, Run_ret, run_ret. cbn [fst snd trace].
    rewrite Ht, app_assoc. split; [done|].
    destruct err as [e|].
    + right. by exists evs, (EvStore loaderType tntID lDataSet (Some e)), e,
        (Some e).
    + left. apply noFailure_app. split; [done|]. by repeat constructor.
  - set (m := match persistErr p with Some e => _ | None => _ end).
    assert (quiet m) as Hm.
    { subst m. quiet_by ltac:(apply invalidateCache_quiet). }
    intros s. unfold mbind, Run_bind, run_bind.
    destruct (Hm s) as (evs & Ht & Hq).
    destruct (m s) as [s1 [err| |]]; cbn [fst snd] in *;
      [|exists evs; split; [done|by left]..].
    exists (evs ++ [EvRemove loaderType tntID err]).
    unfold loaders.emit, mret, Run_ret, run_ret. cbn [fst snd trace].
    rewrite Ht, app_assoc. split; [done|].
    destruct err as [e|].
    + right. by exists evs, (EvRemove loaderType tntID (Some e)), e, (Some e).
    + left. apply noFailure_app. split; [done|]. by repeat constructor.
Qed.

(** [if err != nil { return }; ...; return nil] after a call. *)
Lemma stops_flush_then flush loaderType tntID lDataSet caching
    (f : LS X → LS X) :
  isFlusher env flush → (∀ s, trace (f s) = trace s) →
  traces (err ← flush loaderType tntID lDataSet caching;
          match err with
          | Some e => mret (Some e)
          | None => _ ← loaders.modify f; mret None
          end) (stopsWith id).
Proof.
  intros Hflush Hf.
  eapply stopsWith_then; [by apply isFlusher_stops| |].
  - intros a e Ha; unfold id in Ha; subst a. by exists (Some e).
  - intros a Ha; unfold id in Ha; subst a. apply stopsWith_quiet.
    quiet_by ltac:(by apply quiet_modify).
Qed.

Lemma bufferRow_stops flush loaderType caching lData :
  isFlusher env flush →
  traces (bufferRow env flush loaderType caching lData) (stopsWith id).
Proof.
  intros Hflush. unfold bufferRow. cbv zeta.
  apply stopsWith_after; [apply quiet_get|intros buf].
  eapply stopsWith_then.
  - destruct (_ && _); [|apply stopsWith_ret].
    by apply stops_flush_then.
  - intros a e Ha; unfold id in Ha; subst a. by exists (Some e).
  - intros a Ha; unfold id in Ha; subst a. apply stopsWith_quiet. quiet_by fail.
Qed.

Lemma flushLast_stops flush loaderType caching :
  isFlusher env flush →
  traces (flushLast flush loaderType caching) (stopsWith id).
Proof.
  intros Hflush. unfold flushLast. cbv zeta.
  apply stopsWith_after; [apply quiet_get|intros buf].
  by apply stops_flush_then.
Qed.

Lemma readRow_logs_noFailure tpls lineNr (rs : readers) lData hasErrors :
  noFailure (rrLogs (readRow env tpls lineNr rs lData hasErrors)).
Proof.
  revert lData hasErrors.
  induction rs as [|[f [rdr|]] rs IH]; intros lData hasErrors;
    cbn [readRow]; [constructor| |constructor].
  destruct (csvRdr rdr) as [|line more]; [constructor|].
  destruct line as [record|e]; [destruct hasErrors|];
    [|destruct (UpdateFromCSV env f record tpls lData) as [ld [e|]]|];
    cbn [rrLogs]; apply noFailure_app; (split; [|apply IH]);
    by repeat constructor.
Qed.

Lemma rowIteration_stops flush loaderType caching lineNr :
  isFlusher env flush →
  traces (rowIteration env flush loaderType caching lineNr) (stopsWith fst).
Proof.
  intros Hflush. unfold rowIteration.
  apply stopsWith_after; [apply quiet_get|intros l]. cbv zeta.
  apply stopsWith_after; [by apply quiet_modify|intros _].
  apply stopsWith_after;
    [apply quiet_emitAll, readRow_logs_noFailure|intros _].
  destruct (rrPanic _); [apply stopsWith_quiet, quiet_panic|].
  eapply stopsWith_then.
  - destruct (bool_decide _); [apply stopsWith_ret|].
    by apply bufferRow_stops.
  - intros a e Ha; unfold id in Ha; subst a. by eexists.
  - intros a Ha; unfold id in Ha; subst a. intros s. exists []. split; [by rewrite app_nil_r|].
    left. constructor.
Qed.

Lemma contentLoop_stops flush fuel loaderType caching lineNr :
  isFlusher env flush →
  traces (contentLoop env flush fuel loaderType caching lineNr)
    (stopsWith id).
Proof.
  intros Hflush. revert lineNr.
  induction fuel as [|fuel IH]; intros lineNr; cbn [contentLoop].
  - apply stopsWith_quiet, quiet_diverge.
  - eapply stopsWith_then; [by apply rowIteration_stops| |].
    + intros [err keep] e Herr. cbn in Herr. subst err. by eexists.
    + intros [err keep] Herr. cbn in Herr. subst err. cbn [fst snd].
      destruct keep; [apply IH|by apply flushLast_stops].
Qed.

Lemma selected_stops loaderType caching loadOption :
  traces (selected env loaderType caching loadOption) (stopsWith id).
Proof.
  unfold selected, processContent, removeContent.
  destruct (String.eqb loadOption MetaStore).
  { apply stopsWith_after; [apply quiet_get|intros l].
    apply contentLoop_stops. by left. }
  destruct (String.eqb loadOption MetaRemove).
  { apply stopsWith_after; [apply quiet_get|intros l].
    apply contentLoop_stops. by right. }
  apply stopsWith_ret.
Qed.

Lemma processFiles_loop_stops loaderType caching loadOption fNames :
  traces (processFiles_loop env loaderType caching loadOption fNames)
    (stopsWith id).
Proof.
  induction fNames as [|fName rest IH]; cbn [processFiles_loop].
  - apply stopsWith_ret.
  - apply stopsWith_after; [apply quiet_get|intros opened].
    destruct opened as [e|content]; [apply stopsWith_ret|].
    apply stopsWith_after; [by apply quiet_modify|intros _].
    apply stopsWith_defer; [|done].
    fold (selected env loaderType caching loadOption).
    eapply stopsWith_then; [apply selected_stops| |].
    + intros a e Ha; unfold id in Ha; subst a. by eexists.
    + intros a Ha; unfold id in Ha; by subst a.
Qed.

Lemma stopsWith_stopsAtFailure evs (o : outcome (option error)) :
  stopsWith id evs o → stopsAtFailure evs o.
Proof.
  intros [?|(pre & e & err & a & -> & He & Hpre & -> & Ha)]; [by left|].
  right. exists pre, e, err. cbn in Ha. by subst a.
Qed.

Lemma traces_impl {A : Type} (m : Run (LS X) A)
    (Q Q' : list Effect → outcome A → Prop) :
  traces m Q → (∀ evs o, Q evs o → Q' evs o) → traces m Q'.
Proof.
  intros Hm HQ s. destruct (Hm s) as (evs & ? & ?). exists evs. auto.
Qed.

(** X9 ([Loader.processFiles], [Loader.processContent],
    [Loader.removeContent]).  Within one loader type a call to storage
    that fails is the last thing done: the content pass returns the
    error of the call at once, and so does [processFiles]; no other row
    of the type is stored or removed after it and no other file of the
    type is read. *)
Theorem storage_error_ends_type loaderType caching loadOption :
  traces (processFiles env loaderType caching loadOption) stopsAtFailure
  ∧ traces (processContent env loaderType caching) stopsAtFailure
  ∧ traces (removeContent env loaderType caching) stopsAtFailure.
Proof.
  repeat split; (eapply traces_impl; [|apply stopsWith_stopsAtFailure]).
  - unfold processFiles.
    apply stopsWith_after; [by apply quiet_emit|intros _].
    apply stopsWith_after; [apply quiet_get|intros l].
    apply processFiles_loop_stops.
  - unfold processContent.
    apply stopsWith_after; [apply quiet_get|intros l].
    apply contentLoop_stops. by left.
  - unfold removeContent.
    apply stopsWith_after; [apply quiet_get|intros l].
    apply contentLoop_stops. by right.
Qed.

(** *** A file with no line *)












End WithEnv.

(** *** The theorems at the sample folder *)

Section AtSampleFolder.
Import sampleLoader sampleFolder.

Lemma pass_releases_lock_witness :
  let s := start [MetaAttributes] twoTypes twoTypesFiles in
  let r := ProcessFolder sampleEnv "" MetaStore s in
  let r' := ProcessFolder removeDown "" MetaStore s in
  (r.2 ≠ Diverges ∧ isFolderLocked r.1 = false)
  ∧ (r'.2 ≠ Diverges ∧ isFolderLocked r'.1 = true).
Proof.
  split.
  - destruct (pass_releases_lock sampleEnv "" MetaStore
                (start [MetaAttributes] twoTypes twoTypesFiles) eq_refl)
      as [Hends Hlock].
    split; [exact Hends|]. by apply Hlock.
  - destruct (pass_releases_lock removeDown "" MetaStore
                (start [MetaAttributes] twoTypes twoTypesFiles) eq_refl)
      as [Hends Hlock].
    split; [exact Hends|].
    destruct (isFolderLocked _); [reflexivity|].
    by apply proj1 in Hlock; specialize (Hlock eq_refl).
Defined.

Lemma pass_attempts_every_type_witness :
  let s := start [MetaAttributes] twoTypes twoTypesFiles in
  let r := ProcessFolder sampleEnv "" MetaStore s in
  ∃ tried,
    attempted (trace r.1) = attempted (trace s) ++ tried
    ∧ tried `prefix_of` (rdrs (ldr s)).*1
    ∧ (r.2 ≠ Panics → tried = (rdrs (ldr s)).*1).
Proof.
  apply (pass_attempts_every_type sampleEnv "" MetaStore
           (start [MetaAttributes] twoTypes twoTypesFiles)).
  reflexivity.
Defined.

Lemma pass_returns_rename_error_witness :
  let s := start [] twoTypes twoTypesFiles in
  let r := ProcessFolder renameDown "" MetaStore s in
  ∃ fName,
    is_Some (inDir s !! fName) ∧ fName ≠ lockFilename (ldr s)
    ∧ renameErr renameDown (ext r.1) fName
      = Some "rename Thresholds.csv: permission denied".
Proof.
  apply (pass_returns_rename_error renameDown "" MetaStore
           (start [] twoTypes twoTypesFiles)).
  - reflexivity.
  - vm_compute. reflexivity.
Defined.


Lemma buffer_holds_one_key_witness :
  let s0 := start [] twoReaders [] in
  oneKey (processContent sampleEnv MetaAttributes "" s0).1.
Proof.
  assert (oneKey (start [] twoReaders [])) as Hone.
  { unfold oneKey. cbn. rewrite map_size_empty. lia. }
  apply (proj1 (proj2 (proj2
           (buffer_holds_one_key sampleEnv (storeLoadedData sampleEnv)
              MetaAttributes "" (start [] twoReaders [])
              (or_introl eq_refl) Hone)))).
Defined.

Lemma readers_in_lockstep_witness :
  let s := start [] twoReaders [] in
  let s' := (rowIteration sampleEnv (storeLoadedData sampleEnv)
               MetaAttributes "" 1 s).1 in
  (Forall hasLine (rdrsOf (ldr s) MetaAttributes)
   ∧ rdrsOf (ldr s') MetaAttributes
     = advance <$> rdrsOf (ldr s) MetaAttributes
   ∧ true = true)
  ∨ (∃ pre fName rdr post,
       rdrsOf (ldr s) MetaAttributes = pre ++ (fName, Some rdr) :: post
       ∧ Forall hasLine pre ∧ csvRdr rdr = []
       ∧ rdrsOf (ldr s') MetaAttributes
         = (advance <$> pre) ++ (fName, Some rdr) :: post
       ∧ true = false).
Proof.
  apply (readers_in_lockstep sampleEnv (storeLoadedData sampleEnv)
           MetaAttributes "" 1 (start [] twoReaders []) _ None true).
  - by left.
  - vm_compute. reflexivity.
Defined.

Lemma failed_row_is_buffered_witness :
  let s := start [] halfRecord [] in
  let r := rowIteration partialDecode (storeLoadedData partialDecode)
             MetaAttributes "" 1 s in
  ∃ rows,
    bufLoaderData (ldr r.1) !! "cgrates.org:"
    = Some (rows ++ [ {[ "Tenant" := "cgrates.org" ]} ]).
Proof.
  apply (failed_row_is_buffered partialDecode
           (storeLoadedData partialDecode) MetaAttributes "" 1
           (start [] halfRecord []) _ true).
  - by left.
  - reflexivity.
  - vm_compute. lia.
  - vm_compute. reflexivity.
Defined.

Lemma no_readers_no_end_witness :
  (processContent sampleEnv MetaAttributes "" (start [] noFiles [])).2
  = Diverges.
Proof.
  apply (proj1 (proj2
           (no_readers_no_end sampleEnv (storeLoadedData sampleEnv)
              MetaAttributes "" (start [] noFiles []) eq_refl))).
Defined.


End AtSampleFolder.

End LoaderProps.
(** ** The CSV file exporter: properties *)

Module ExporterProps.
Import utils ees eesObserve.

Section WithEnv.
Context {W R E : Type} (env : Env W R E).
Implicit Types s : ES W.

(** *** Running a function step by step *)

Lemma ebind_ret {A B : Type} (a : A) (k : A → Run (ES W) B) s :
  (mret a ≫= k) s = k a s.
Proof. done. Qed.

Lemma ebind_get {A B : Type} (f : ES W → A) (k : A → Run (ES W) B) s :
  (ees.get f ≫= k) s = k (f s) s.
Proof. done. Qed.

Lemma ebind_modExp {B : Type} (f : FileCSVee → FileCSVee)
    (k : unit → Run (ES W) B) s :
  (ees.modExp f ≫= k) s
  = k tt {| fCsv := f (fCsv s); world := world s; trace := trace s |}.
Proof. done. Qed.

Lemma ebind_emit {B : Type} (e : Effect) (k : unit → Run (ES W) B) s :
  (ees.emit e ≫= k) s
  = k tt {| fCsv := fCsv s; world := world s; trace := trace s ++ [e] |}.
Proof. done. Qed.

Lemma ebind_assert {A B : Type} (v : option A) (k : A → Run (ES W) B) s :
  (ees.assert v ≫= k) s
  = match v with Some a => k a s | None => (s, Panics) end.
Proof. by destruct v. Qed.

Lemma ebind_dcGet {B : Type} (key : string)
    (k : option DCVal → Run (ES W) B) s :
  (dcGet key ≫= k) s = k (dc (fCsv s) !! key) s.
Proof. done. Qed.

Lemma ebind_dcSet {B : Type} (key : string) (v : DCVal)
    (k : unit → Run (ES W) B) s :
  (dcSet key v ≫= k) s
  = k tt {| fCsv := withDC (insert key v) (fCsv s); world := world s;
            trace := trace s |}.
Proof. done. Qed.

Lemma ebind_assoc {A B C : Type} (m : Run (ES W) A)
    (k1 : A → Run (ES W) B) (k2 : B → Run (ES W) C) s :
  ((m ≫= k1) ≫= k2) s = (m ≫= λ a, k1 a ≫= k2) s.
Proof.
  unfold mbind, Run_bind, run_bind. by destruct (m s) as [s1 [a| |]].
Qed.

(** After a call that returns or panics. *)
Lemma ebind_call {A B : Type} (m : Run (ES W) A) (k : A → Run (ES W) B) s :
  (m ≫= k) s
  = match m s with
    | (s1, Returns a) => k a s1
    | (s1, Panics) => (s1, Panics)
    | (s1, Diverges) => (s1, Diverges)
    end.
Proof. done. Qed.

(** *** Relations that the exporter keeps *)

Lemma ekeeps_ret {A : Type} (Rel : ES W → ES W → Prop) `{!Reflexive Rel}
    (a : A) :
  ekeeps Rel (mret a : Run (ES W) A).
Proof. intros s. cbn. reflexivity. Qed.

Lemma ekeeps_panic {A : Type} (Rel : ES W → ES W → Prop)
    `{!Reflexive Rel} :
  ekeeps Rel (run_panic : Run (ES W) A).
Proof. intros s. cbn. reflexivity. Qed.

Lemma ekeeps_diverge {A : Type} (Rel : ES W → ES W → Prop)
    `{!Reflexive Rel} :
  ekeeps Rel (run_diverge : Run (ES W) A).
Proof. intros s. cbn. reflexivity. Qed.

Lemma ekeeps_get {A : Type} (Rel : ES W → ES W → Prop) `{!Reflexive Rel}
    (f : ES W → A) :
  ekeeps Rel (ees.get f).
Proof. intros s. cbn. reflexivity. Qed.

Lemma ekeeps_dcGet (Rel : ES W → ES W → Prop) `{!Reflexive Rel} key :
  ekeeps Rel (dcGet key).
Proof. intros s. cbn. reflexivity. Qed.

Lemma ekeeps_assert {A : Type} (Rel : ES W → ES W → Prop)
    `{!Reflexive Rel} (v : option A) :
  ekeeps Rel (ees.assert v).
Proof. intros s. destruct v; cbn; reflexivity. Qed.

Lemma ekeeps_bind {A B : Type} (Rel : ES W → ES W → Prop) `{!PreOrder Rel}
    (m : Run (ES W) A) (k : A → Run (ES W) B) :
  ekeeps Rel m → (∀ a, ekeeps Rel (k a)) → ekeeps Rel (m ≫= k).
Proof.
  intros Hm Hk s. unfold mbind, Run_bind, run_bind.
  pose proof (Hm s) as H1.
  destruct (m s) as [s1 [a| |]]; cbn [fst snd] in *; [|done..].
  etrans; [exact H1|apply Hk].
Qed.

Lemma ekeeps_defer {A : Type} (Rel : ES W → ES W → Prop) `{!PreOrder Rel}
    (m : Run (ES W) A) (d : ES W → ES W) :
  ekeeps Rel m → (∀ s, Rel s (d s)) → ekeeps Rel (run_defer m d).
Proof.
  intros Hm Hd s. unfold run_defer. pose proof (Hm s) as H1.
  destruct (m s) as [s1 [a| |]]; cbn [fst snd] in *; try done.
  all: etrans; [exact H1|apply Hd].
Qed.

Lemma ekeeps_modExp (Rel : ES W → ES W → Prop) (f : FileCSVee → FileCSVee) :
  (∀ s, Rel s {| fCsv := f (fCsv s); world := world s;
                 trace := trace s |}) →
  ekeeps Rel (ees.modExp f).
Proof. intros Hf s. apply Hf. Qed.

Lemma ekeeps_emit (Rel : ES W → ES W → Prop) (e : Effect) :
  (∀ s, Rel s {| fCsv := fCsv s; world := world s;
                 trace := trace s ++ [e] |}) →
  ekeeps Rel (ees.emit e).
Proof. intros He s. apply He. Qed.

Lemma ekeeps_ask {A : Type} (Rel : ES W → ES W → Prop) (f : W → W * A) :
  (∀ s w, Rel s {| fCsv := fCsv s; world := w; trace := trace s |}) →
  ekeeps Rel (ees.ask f).
Proof. intros Hf s. unfold ees.ask. destruct (f (world s)). apply Hf. Qed.

Lemma ekeeps_at {A : Type} (Rel : ES W → ES W → Prop) `{!PreOrder Rel}
    (m : Run (ES W) A) s s' :
  Rel s s' → ekeeps Rel m → Rel s (m s').1.
Proof. intros Hs Hm. etrans; [exact Hs|apply Hm]. Qed.

(** What is kept for every exporter configured is kept after the
    configuration of this one is read. *)
Lemma ekeeps_exporterCfg {B : Type} (Rel : ES W → ES W → Prop)
    `{!PreOrder Rel} (k : EventExporterCfg → Run (ES W) B) :
  (∀ cfg, cfg ∈ Exporters env → ekeeps Rel (k cfg)) →
  ekeeps Rel (exporterCfg env ≫= k).
Proof.
  intros Hk s. unfold exporterCfg.
  rewrite ebind_assoc, ebind_get, ebind_assert.
  destruct (Exporters env !! cfgIdx (fCsv s)) as [cfg|] eqn:Hcfg;
    [|cbn; reflexivity].
  apply Hk. by eapply list_elem_of_lookup_2.
Qed.

Ltac ekeeps_step known :=
  first
    [ known
    | apply ekeeps_ret; tc_solve
    | apply ekeeps_panic; tc_solve
    | apply ekeeps_diverge; tc_solve
    | apply ekeeps_get; tc_solve
    | apply ekeeps_dcGet; tc_solve
    | apply ekeeps_assert; tc_solve
    | apply ekeeps_bind; [tc_solve| |intros ?]
    | match goal with
      | |- ekeeps _ (if ?b then _ else _) => destruct b
      | |- ekeeps _ (match ?x with _ => _ end) => destruct x
      | |- ekeeps _ (let _ := _ in _) => cbv zeta
      end ].

Ltac ekeeps_by known := repeat ekeeps_step known.

(** *** No call of the exporter blocks, once it has the mutex *)

Lemma ehalts_ret {A : Type} (a : A) : ehalts (mret a : Run (ES W) A).
Proof. by intros s. Qed.

Lemma ehalts_panic {A : Type} : ehalts (run_panic : Run (ES W) A).
Proof. by intros s. Qed.

Lemma ehalts_get {A : Type} (f : ES W → A) : ehalts (ees.get f).
Proof. by intros s. Qed.

Lemma ehalts_dcGet key : ehalts (W:=W) (dcGet key).
Proof. by intros s. Qed.

Lemma ehalts_dcSet key v : ehalts (W:=W) (dcSet key v).
Proof. by intros s. Qed.

Lemma ehalts_modExp f : ehalts (W:=W) (ees.modExp f).
Proof. by intros s. Qed.

Lemma ehalts_emit e : ehalts (W:=W) (ees.emit e).
Proof. by intros s. Qed.

Lemma ehalts_ask {A : Type} (f : W → W * A) : ehalts (ees.ask f).
Proof. intros s. unfold ees.ask. by destruct (f (world s)). Qed.

Lemma ehalts_assert {A : Type} (v : option A) :
  ehalts (ees.assert v : Run (ES W) A).
Proof. intros s. by destruct v. Qed.

Lemma ehalts_bind {A B : Type} (m : Run (ES W) A) (k : A → Run (ES W) B) :
  ehalts m → (∀ a, ehalts (k a)) → ehalts (m ≫= k).
Proof.
  intros Hm Hk s. unfold mbind, Run_bind, run_bind.
  pose proof (Hm s) as H1.
  destruct (m s) as [s1 [a| |]]; cbn [fst snd] in *; [apply Hk|done..].
Qed.

Ltac ehalts_step known :=
  first
    [ known
    | apply ehalts_ret
    | apply ehalts_panic
    | apply ehalts_get
    | apply ehalts_dcGet
    | apply ehalts_dcSet
    | apply ehalts_modExp
    | apply ehalts_emit
    | apply ehalts_ask
    | apply ehalts_assert
    | apply ehalts_bind; [|intros ?]
    | match goal with
      | |- ehalts (if ?b then _ else _) => destruct b
      | |- ehalts (match ?x with _ => _ end) => destruct x
      | |- ehalts (let _ := _ in _) => cbv zeta
      | |- ehalts (let '(_, _) := ?x in _) => destruct x
      end ].

Ltac ehalts_by known := repeat ehalts_step known.

Lemma exporterCfg_halts : ehalts (exporterCfg env).
Proof. unfold exporterCfg. ehalts_by fail. Qed.

Lemma setFields_halts fields eeReq : ehalts (setFields env fields eeReq).
Proof. unfold setFields. ehalts_by fail. Qed.

Lemma write_halts csvRecord : ehalts (write env csvRecord).
Proof. unfold write. ehalts_by fail. Qed.

Lemma addExport_halts key evID : ehalts (W:=W) (addExport key evID).
Proof. unfold addExport. ehalts_by fail. Qed.

Lemma addUsage_halts key usage : ehalts (W:=W) (addUsage key usage).
Proof. unfold addUsage. ehalts_by fail. Qed.

Lemma updateATime_halts cgrEv : ehalts (updateATime env cgrEv).
Proof. unfold updateATime. ehalts_by fail. Qed.

Lemma updateOrderID_halts cgrEv : ehalts (updateOrderID env cgrEv).
Proof. unfold updateOrderID. ehalts_by fail. Qed.

Lemma updateCost_halts cgrEv : ehalts (updateCost env cgrEv).
Proof. unfold updateCost. ehalts_by fail. Qed.

Lemma updateUsage_halts cgrEv : ehalts (updateUsage env cgrEv).
Proof. unfold updateUsage. ehalts_by ltac:(apply addUsage_halts). Qed.

Lemma exportLocked_halts cgrEv : ehalts (exportLocked env cgrEv).
Proof.
  unfold exportLocked.
  ehalts_by ltac:(first
    [ apply exporterCfg_halts | apply setFields_halts | apply write_halts
    | apply addExport_halts | apply updateATime_halts
    | apply updateOrderID_halts | apply updateCost_halts
    | apply updateUsage_halts ]).
Qed.

(** [ExportEvent] on an exporter whose mutex is free. *)
Lemma ExportEvent_free cgrEv s :
  locked (fCsv s) = false →
  ExportEvent env cgrEv s
  = run_defer (exportLocked env cgrEv) Unlock
      {| fCsv := withLocked true (fCsv s); world := world s;
         trace := trace s |}.
Proof.
  intros Hfree. unfold ExportEvent, Lock.
  rewrite ebind_assoc, ebind_get, Hfree. by rewrite ebind_modExp.
Qed.

(** X12 ([FileCSVee.ExportEvent]: [Lock] and the deferred [Unlock]).
    [ExportEvent] on an exporter whose mutex is free always ends, and
    leaves the mutex free however it ends: with the row written, with an
    error, or with the panic of a type assertion.  On an exporter whose
    mutex is held it blocks, having done nothing. *)
Theorem export_releases_mutex cgrEv s :
  (locked (fCsv s) = false →
   (ExportEvent env cgrEv s).2 ≠ Diverges
   ∧ locked (fCsv (ExportEvent env cgrEv s).1) = false)
  ∧ (locked (fCsv s) = true → ExportEvent env cgrEv s = (s, Diverges)).
Proof.
  split.
  - intros Hfree. rewrite ExportEvent_free by done.
    set (s0 := {| fCsv := withLocked true (fCsv s); world := world s;
                  trace := trace s |}).
    pose proof (exportLocked_halts cgrEv s0) as Hh.
    unfold run_defer.
    destruct (exportLocked env cgrEv s0) as [s1 [a| |]]; done.
  - intros Hheld. unfold ExportEvent, Lock.
    rewrite ebind_assoc, ebind_get, Hheld. done.
Qed.


(** *** What the updates of the counters leave alone *)

Lemma sameButDC_more (ks ks' : list string) s s' :
  ks ⊆ ks' → sameButDC ks s s' → sameButDC ks' s s'.
Proof.
  intros Hks (H1 & H2 & H3 & H4 & H5 & H6 & H7 & H8).
  repeat split; try done. intros k Hk. apply H8. intros Hin. by apply Hk, Hks.
Qed.

Lemma ekeeps_sameButDC_more {A : Type} (ks ks' : list string)
    (m : Run (ES W) A) :
  ks ⊆ ks' → ekeeps (sameButDC ks) m → ekeeps (sameButDC ks') m.
Proof. intros Hks Hm s. by eapply sameButDC_more. Qed.

Lemma dcSet_sameButDC ks key v :
  key ∈ ks → ekeeps (sameButDC ks) (W:=W) (dcSet key v).
Proof.
  intros Hkey s. repeat split. intros k Hk. cbn.
  apply lookup_insert_ne. by intros ->.
Qed.

Ltac sub_list :=
  unfold metricKeys; intros ?; rewrite !elem_of_cons, !elem_of_nil; tauto.

Ltac frame_by known :=
  ekeeps_by ltac:(first
    [ known
    | apply dcSet_sameButDC; repeat constructor ]).

Lemma updateATime_frame cgrEv :
  ekeeps (sameButDC [FirstEventATime env; LastEventATime env])
    (updateATime env cgrEv).
Proof. unfold updateATime. frame_by fail. Qed.

Lemma updateOrderID_frame cgrEv :
  ekeeps (sameButDC [FirstExpOrderID env; LastExpOrderID env])
    (updateOrderID env cgrEv).
Proof. unfold updateOrderID. frame_by fail. Qed.

Lemma updateCost_frame cgrEv :
  ekeeps (sameButDC [TotalCost env]) (updateCost env cgrEv).
Proof. unfold updateCost. frame_by fail. Qed.

Lemma addUsage_frame key usage :
  ekeeps (sameButDC [key]) (W:=W) (addUsage key usage).
Proof. unfold addUsage. frame_by fail. Qed.

Lemma updateUsage_frame cgrEv :
  ekeeps (sameButDC [ TotalDuration env; TotalSMSUsage env;
                      TotalMMSUsage env; TotalGenericUsage env;
                      TotalDataUsage env ])
    (updateUsage env cgrEv).
Proof.
  unfold updateUsage.
  frame_by ltac:(eapply ekeeps_sameButDC_more; [|apply addUsage_frame];
                 sub_list).
Qed.

(** The four updates as [ExportEvent] runs them. *)
Lemma updates_frame {A : Type} cgrEv (k : Run (ES W) A) s :
  ∃ s1,
    sameButDC (metricKeys env) s s1
    ∧ ((_ ← updateATime env cgrEv;
        _ ← updateOrderID env cgrEv;
        _ ← updateCost env cgrEv;
        _ ← updateUsage env cgrEv;
        k) s = k s1
       ∨ (_ ← updateATime env cgrEv;
          _ ← updateOrderID env cgrEv;
          _ ← updateCost env cgrEv;
          _ ← updateUsage env cgrEv;
          k) s = (s1, Panics)).
Proof.
  assert (∀ (m : Run (ES W) unit) ks (k' : Run (ES W) A) s0,
            ekeeps (sameButDC ks) m → ehalts m → ks ⊆ metricKeys env →
            ∃ s1, sameButDC (metricKeys env) s0 s1
                  ∧ ((m ≫= λ _, k') s0 = k' s1
                     ∨ (m ≫= λ _, k') s0 = (s1, Panics))) as Hstep.
  { intros m ks k' s0 Hm Hh Hks. rewrite ebind_call.
    pose proof (Hm s0) as H1. pose proof (Hh s0) as H2.
    destruct (m s0) as [s1 [[]| |]]; [| |done]; exists s1;
      (split; [by eapply sameButDC_more|]); auto. }
  destruct (Hstep _ _
              (_ ← updateOrderID env cgrEv;
               _ ← updateCost env cgrEv;
               _ ← updateUsage env cgrEv; k) s
              (updateATime_frame cgrEv) (updateATime_halts cgrEv))
    as (s1 & Hs1 & [-> | ->]); [sub_list| |by eauto].
  destruct (Hstep _ _
              (_ ← updateCost env cgrEv;
               _ ← updateUsage env cgrEv; k) s1
              (updateOrderID_frame cgrEv) (updateOrderID_halts cgrEv))
    as (s2 & Hs2 & [-> | ->]);
    [sub_list| |exists s2; split; [by etrans|by right]].
  destruct (Hstep _ _ (_ ← updateUsage env cgrEv; k) s2
              (updateCost_frame cgrEv) (updateCost_halts cgrEv))
    as (s3 & Hs3 & [-> | ->]);
    [sub_list|
    |exists s3; split; [by do 2 (etrans; [eassumption|])|by right]].
  destruct (Hstep _ _ k s3
              (updateUsage_frame cgrEv) (updateUsage_halts cgrEv))
    as (s4 & Hs4 & [-> | ->]); [sub_list| |];
    exists s4; (split; [by do 3 (etrans; [eassumption|])|]); auto.
Qed.

(** *** The keys of the counters differ *)

Lemma distinct_ne (i j : nat) (a b : string) :
  distinctCounters env →
  counters env !! i = Some a → counters env !! j = Some b → i ≠ j →
  a ≠ b.
Proof.
  intros Hd Ha Hb Hij ->. apply Hij. by eapply NoDup_lookup.
Qed.

Ltac distinct Hd i j :=
  apply (distinct_ne i j _ _ Hd); [reflexivity|reflexivity|lia].

Lemma notin_metricKeys :
  distinctCounters env →
  (ExportID env ∉ metricKeys env) ∧ (NumberOfEvents env ∉ metricKeys env)
  ∧ (NegativeExports env ∉ metricKeys env)
  ∧ (PositiveExports env ∉ metricKeys env).
Proof.
  intros Hd. unfold metricKeys.
  rewrite !not_elem_of_cons, !elem_of_nil.
  repeat split; try tauto.
  all: first
    [ distinct Hd 0%nat 4%nat | distinct Hd 0%nat 5%nat
    | distinct Hd 0%nat 6%nat | distinct Hd 0%nat 7%nat
    | distinct Hd 0%nat 8%nat | distinct Hd 0%nat 9%nat
    | distinct Hd 0%nat 10%nat | distinct Hd 0%nat 11%nat
    | distinct Hd 0%nat 12%nat | distinct Hd 0%nat 13%nat
    | distinct Hd 1%nat 4%nat | distinct Hd 1%nat 5%nat
    | distinct Hd 1%nat 6%nat | distinct Hd 1%nat 7%nat
    | distinct Hd 1%nat 8%nat | distinct Hd 1%nat 9%nat
    | distinct Hd 1%nat 10%nat | distinct Hd 1%nat 11%nat
    | distinct Hd 1%nat 12%nat | distinct Hd 1%nat 13%nat
    | distinct Hd 2%nat 4%nat | distinct Hd 2%nat 5%nat
    | distinct Hd 2%nat 6%nat | distinct Hd 2%nat 7%nat
    | distinct Hd 2%nat 8%nat | distinct Hd 2%nat 9%nat
    | distinct Hd 2%nat 10%nat | distinct Hd 2%nat 11%nat
    | distinct Hd 2%nat 12%nat | distinct Hd 2%nat 13%nat
    | distinct Hd 3%nat 4%nat | distinct Hd 3%nat 5%nat
    | distinct Hd 3%nat 6%nat | distinct Hd 3%nat 7%nat
    | distinct Hd 3%nat 8%nat | distinct Hd 3%nat 9%nat
    | distinct Hd 3%nat 10%nat | distinct Hd 3%nat 11%nat
    | distinct Hd 3%nat 12%nat | distinct Hd 3%nat 13%nat ].
Qed.

(** The strings of the elements, in their order. *)
Lemma fieldsAsStrings_Ok (fieldAsString : E → result string) els acc
    csvRecord :
  fieldsAsStrings fieldAsString els acc = Ok csvRecord →
  ∃ strs, csvRecord = acc ++ strs
          ∧ Forall2 (λ el strVal, fieldAsString el = Ok strVal) els strs.
Proof.
  revert acc. induction els as [|el els IH]; intros acc; cbn.
  - intros [= <-]. exists []. by rewrite app_nil_r.
  - destruct (fieldAsString el) as [strVal|e] eqn:Hel; [|done].
    intros (strs & -> & Hall)%IH. exists (strVal :: strs).
    rewrite <- app_assoc. split; [done|]. by constructor.
Qed.

(** [ExportEvent] behind the mutex, up to the point where the templates
    of the content have run. *)
Lemma exportLocked_run cgrEv s cfg n :
  readsCounters env (ContentFields cfg) →
  Exporters env !! cfgIdx (fCsv s) = Some cfg →
  dc (fCsv s) !! NumberOfEvents env = Some (DCInt n) →
  let dc1 := <[ NumberOfEvents env := DCInt (wrap (IntSize env) (n + 1)) ]>
               (dc (fCsv s)) in
  let set := SetFields env (world s) (ContentFields cfg)
               (NewEventExporterRequest env (Some (agents.Event cgrEv))
                  (agents.evTenant cgrEv) (DefaultTimezone env)) dc1 in
  let s2 := {| fCsv := withDC (λ _, dc1) (fCsv s); world := set.1;
               trace := trace s
                        ++ [EvSetFields (ContentFields cfg) dc1 set.2.2] |} in
  exportLocked env cgrEv s
  = match set.2.2 with
    | Some e =>
        (_ ← addExport (NegativeExports env) (agents.evID cgrEv);
         mret (Some e)) s2
    | None =>
        match fieldsAsStrings (cntFieldAsString env set.2.1.1)
                (cntElements env set.2.1.1) [] with
        | Err e => (s2, Returns (Some e))
        | Ok csvRecord =>
            (_ ← updateATime env cgrEv;
             _ ← updateOrderID env cgrEv;
             _ ← updateCost env cgrEv;
             _ ← updateUsage env cgrEv;
             _ ← addExport (PositiveExports env) (agents.evID cgrEv);
             _ ← write env csvRecord;
             mret None) s2
        end
    end.
Proof.
  intros Hreads Hcfg Hn. cbv zeta. unfold exportLocked.
  rewrite ebind_dcGet, Hn. cbn [asInt]. rewrite ebind_assert, ebind_dcSet.
  cbv zeta. unfold exporterCfg. rewrite ebind_assoc, ebind_get.
  cbn [fCsv cfgIdx withDC]. rewrite Hcfg, ebind_assert.
  unfold setFields. rewrite ebind_assoc, ebind_get. cbn [fCsv dc withDC].
  rewrite ebind_assoc. unfold ees.ask at 1. rewrite ebind_call.
  cbn [world].
  pose proof (Hreads (world s)
                (NewEventExporterRequest env (Some (agents.Event cgrEv))
                   (agents.evTenant cgrEv) (DefaultTimezone env))
                (<[NumberOfEvents env:=DCInt (wrap (IntSize env) (n + 1))]>
                   (dc (fCsv s)))) as Hdc.
  destruct (SetFields env (world s) _ _ _) as [w [[eeReq dc'] err]].
  cbn [fst snd] in *. subst dc'. cbv zeta. cbn [fst snd].
  rewrite ebind_assoc, ebind_modExp, ebind_assoc, ebind_emit, ebind_ret.
  destruct err as [e|]; [reflexivity|].
  by destruct (fieldsAsStrings _ _ _).
Qed.

(** *** One event *)

Ltac simp_es :=
  cbn [Unlock fCsv world trace dc csvWriter file locked id cfgIdx withDC
       withLocked withWriter withFile fst snd] in *.

(** What [ExportEvent] leaves, by the way it ends. *)
Lemma ExportEvent_cases cgrEv s cfg n :
  distinctCounters env → readsCounters env (ContentFields cfg) →
  locked (fCsv s) = false →
  Exporters env !! cfgIdx (fCsv s) = Some cfg →
  dc (fCsv s) !! NumberOfEvents env = Some (DCInt n) →
  ∃ s' o dcSeen,
    ExportEvent env cgrEv s = (s', o)
    ∧ dcSeen !! NumberOfEvents env = Some (DCInt (wrap (IntSize env) (n + 1)))
    ∧ dc (fCsv s') !! NumberOfEvents env = Some (DCInt (wrap (IntSize env) (n + 1)))
    ∧ match o with
      | Returns None =>
          ∃ eeReq csvRecord werr,
            Forall2 (λ el strVal, cntFieldAsString env eeReq el = Ok strVal)
              (cntElements env eeReq) csvRecord
            ∧ is_Some (csvWriter (fCsv s))
            ∧ trace s'
              = trace s ++ [ EvSetFields (ContentFields cfg) dcSeen None;
                             EvWrite csvRecord werr ]
            ∧ (∃ pos, exportsUnder (PositiveExports env) s = Some pos
                      ∧ exportsUnder (PositiveExports env) s'
                        = Some ({[ agents.evID cgrEv ]} ∪ pos))
            ∧ exportsUnder (NegativeExports env) s'
              = exportsUnder (NegativeExports env) s
      | Returns (Some e) =>
          exportsUnder (PositiveExports env) s'
          = exportsUnder (PositiveExports env) s
          ∧ ((trace s'
              = trace s ++ [EvSetFields (ContentFields cfg) dcSeen (Some e)]
              ∧ ∃ neg, exportsUnder (NegativeExports env) s = Some neg
                       ∧ exportsUnder (NegativeExports env) s'
                         = Some ({[ agents.evID cgrEv ]} ∪ neg))
             ∨ (trace s'
                = trace s ++ [EvSetFields (ContentFields cfg) dcSeen None]
                ∧ exportsUnder (NegativeExports env) s'
                  = exportsUnder (NegativeExports env) s))
      | Panics =>
          ∃ err, trace s'
                 = trace s ++ [EvSetFields (ContentFields cfg) dcSeen err]
      | Diverges => False
      end.
Proof.
  intros Hd Hreads Hfree Hcfg Hn.
  destruct (notin_metricKeys Hd) as (_ & HNm & Hnegm & Hposm).
  assert (NumberOfEvents env ≠ NegativeExports env) as HNneg
    by distinct Hd 1%nat 2%nat.
  assert (NumberOfEvents env ≠ PositiveExports env) as HNpos
    by distinct Hd 1%nat 3%nat.
  assert (NegativeExports env ≠ PositiveExports env) as Hnp
    by distinct Hd 2%nat 3%nat.
  rewrite ExportEvent_free by done.
  set (s0 := {| fCsv := withLocked true (fCsv s); world := world s;
                trace := trace s |}).
  unfold run_defer.
  rewrite (exportLocked_run cgrEv s0 cfg n) by done.
  cbv zeta. cbn [s0 fCsv world trace withLocked dc].
  set (dc1 := <[NumberOfEvents env:=DCInt (wrap (IntSize env) (n + 1))]> (dc (fCsv s))).
  set (set := SetFields env (world s) (ContentFields cfg) _ dc1).
  set (s2 := {| fCsv := withDC (λ _, dc1) _; world := set.1;
                trace := trace s ++ [_] |}).
  assert (dc1 !! NumberOfEvents env = Some (DCInt (wrap (IntSize env) (n + 1))))
    as HN1 by (subst dc1; apply lookup_insert_eq).
  destruct (set.2.2) as [e|] eqn:Herr.
  { (* the templates fail *)
    unfold addExport. rewrite ebind_assoc, ebind_dcGet.
    subst s2. simp_es.
    assert (dc1 !! NegativeExports env
            = dc (fCsv s) !! NegativeExports env) as ->
      by (subst dc1; by rewrite lookup_insert_ne).
    rewrite ebind_assoc, ebind_assert.
    destruct (asStringSet (dc (fCsv s) !! NegativeExports env))
      as [neg|] eqn:Hneg.
    2:{ eexists _, _, _. split; [reflexivity|]. split; [exact HN1|].
        split; [by simp_es|]. by eexists. }
    rewrite ebind_dcSet. unfold mret, Run_ret, run_ret.
    eexists _, _, _. split; [reflexivity|]. split; [exact HN1|].
    unfold exportsUnder. simp_es. split.
    { rewrite lookup_insert_ne by done. exact HN1. }
    subst dc1. split.
    { by rewrite !lookup_insert_ne. }
    left. split; [done|]. exists neg. split; [done|].
    by rewrite lookup_insert_eq. }
  destruct (fieldsAsStrings _ _ _) as [csvRecord|e] eqn:Hstrs.
  2:{ (* an element has no string *)
    eexists _, _, _. split; [reflexivity|]. split; [exact HN1|].
    unfold exportsUnder. subst s2. simp_es. split; [exact HN1|].
    subst dc1. rewrite !lookup_insert_ne by done.
    split; [done|]. right. by split. }
  apply fieldsAsStrings_Ok in Hstrs as (strs & -> & Hstrs).
  cbn [app] in *.
  destruct (updates_frame cgrEv
              (_ ← addExport (PositiveExports env) (agents.evID cgrEv);
               _ ← write env strs; mret (None : option error)) s2)
    as (s3 & (Htr & Hw & _ & _ & Hfile & Hwriter & Hlock & Hdc) & [-> | ->]).
  2:{ eexists _, _, _. split; [reflexivity|]. split; [exact HN1|].
      split.
      - simp_es. rewrite Hdc by done. subst s2. simp_es. exact HN1.
      - simp_es. rewrite Htr. subst s2. simp_es. by eexists. }
  unfold addExport. rewrite ebind_assoc, ebind_dcGet.
  rewrite (Hdc (PositiveExports env)) by done.
  subst s2. simp_es.
  assert (dc1 !! PositiveExports env
          = dc (fCsv s) !! PositiveExports env) as ->
    by (subst dc1; by rewrite lookup_insert_ne).
  rewrite ebind_assoc, ebind_assert.
  destruct (asStringSet (dc (fCsv s) !! PositiveExports env))
    as [pos|] eqn:Hpos.
  2:{ eexists _, _, _. split; [reflexivity|]. split; [exact HN1|].
      split.
      - simp_es. rewrite Hdc by done. by simp_es.
      - simp_es. rewrite Htr. by eexists. }
  rewrite ebind_dcSet.
  unfold write. rewrite ebind_assoc, ebind_get.
  simp_es. rewrite Hwriter.
  destruct (csvWriter (fCsv s)) as [w|] eqn:Hws.
  2:{ rewrite ebind_assoc, ebind_assert.
      eexists _, _, _. split; [reflexivity|]. split; [exact HN1|].
      split.
      - simp_es. rewrite lookup_insert_ne by done.
        rewrite Hdc by done. exact HN1.
      - simp_es. rewrite Htr. by eexists. }
  rewrite ebind_assoc, ebind_assert, ebind_assoc.
  unfold ees.ask at 1. rewrite ebind_call. simp_es.
  destruct (csvWrite env (world s3) (Comma w) strs) as [w' werr].
  rewrite ebind_assoc, ebind_emit, ebind_ret.
  unfold mret, Run_ret, run_ret.
  eexists _, _, _. split; [reflexivity|]. split; [exact HN1|].
  simp_es. split.
  { rewrite lookup_insert_ne by done. rewrite Hdc by done. exact HN1. }
  eexists set.2.1.1, strs, werr. split; [exact Hstrs|]. split; [done|].
  rewrite Htr. rewrite <- app_assoc. cbn [app fst snd].
  split; [done|]. unfold exportsUnder. simp_es.
  split.
  { exists pos. split; [done|]. by rewrite lookup_insert_eq. }
  rewrite lookup_insert_ne by done. rewrite Hdc by done.
  simp_es. subst dc1. by rewrite lookup_insert_ne.
Qed.

(** X13 ([FileCSVee.ExportEvent]: [NumberOfEvents]).  An event is
    counted before anything that can fail: the templates of the content
    run once, on counters where [NumberOfEvents] is already one more,
    and the counter stays one more however the call ends, also for an
    event that is not exported. *)
Theorem export_counts_every_event cgrEv s cfg n :
  distinctCounters env → readsCounters env (ContentFields cfg) →
  locked (fCsv s) = false →
  Exporters env !! cfgIdx (fCsv s) = Some cfg →
  dc (fCsv s) !! NumberOfEvents env = Some (DCInt n) →
  dc (fCsv (ExportEvent env cgrEv s).1) !! NumberOfEvents env
  = Some (DCInt (wrap (IntSize env) (n + 1)))
  ∧ ∃ dcSeen err,
      setFieldsCalls (trace (ExportEvent env cgrEv s).1)
      = setFieldsCalls (trace s) ++ [(dcSeen, err)]
      ∧ dcSeen !! NumberOfEvents env = Some (DCInt (wrap (IntSize env) (n + 1))).
Proof.
  intros Hd Hreads Hfree Hcfg Hn.
  destruct (ExportEvent_cases cgrEv s cfg n Hd Hreads Hfree Hcfg Hn)
    as (s' & o & dcSeen & -> & Hseen & HN & Ho).
  split; [exact HN|]. cbn [fst].
  assert (∀ tr e, setFieldsCalls (tr ++ [e])
                  = setFieldsCalls tr ++ setFieldsCalls [e]) as Happ
    by (intros; apply omap_app).
  destruct o as [[e|]| |]; [| | |done].
  - destruct Ho as (_ & [[-> _]|[-> _]]); eexists dcSeen, _;
      (split; [by rewrite Happ|done]).
  - destruct Ho as (eeReq & csvRecord & werr & _ & _ & -> & _).
    exists dcSeen, None. split; [|done].
    change [EvSetFields (ContentFields cfg) dcSeen None;
            EvWrite csvRecord werr]
      with ([EvSetFields (ContentFields cfg) dcSeen None]
            ++ [EvWrite csvRecord werr]).
    rewrite app_assoc, !Happ. cbn. by rewrite app_nil_r.
  - destruct Ho as [err ->]. exists dcSeen, err.
    split; [by rewrite Happ|done].
Qed.


(** *** What the counters keep *)

Ltac try_j Hd i j :=
  first [ distinct Hd i j
        | lazymatch j with
          | O => fail
          | S ?j' => try_j Hd i j'
          end ].

Ltac try_i Hd i :=
  first [ try_j Hd i 13%nat
        | lazymatch i with
          | O => fail
          | S ?i' => try_i Hd i'
          end ].

(** Two keys of the counters differ. *)
Ltac distinct_keys :=
  match goal with
  | Hd : distinctCounters _ |- _ ≠ _ => try_i Hd 13%nat
  end.

(** What is read off the counters alone is kept by what leaves them
    alone. *)
Section OfCounters.
Variable I : ES W → Prop.
Hypothesis I_dc : ∀ s s', dc (fCsv s') = dc (fCsv s) → I s → I s'.

Lemma preserves_dc s s' :
  dc (fCsv s') = dc (fCsv s) → preserves I s s'.
Proof. intros Hdc H. by eapply I_dc. Qed.

Lemma exporterCfg_preserves : ekeeps (preserves I) (exporterCfg env).
Proof. unfold exporterCfg. ekeeps_by fail. Qed.

Lemma setFields_preserves fields eeReq :
  readsCounters env fields →
  ekeeps (preserves I) (setFields env fields eeReq).
Proof.
  intros Hreads s. unfold setFields. rewrite ebind_get.
  unfold ees.ask. rewrite ebind_call.
  pose proof (Hreads (world s) eeReq (dc (fCsv s))) as Hdc.
  destruct (SetFields env (world s) fields eeReq (dc (fCsv s)))
    as [w [[eeReq' dc'] err]].
  cbn [fst snd] in *. subst dc'. cbv zeta. cbn [fst snd].
  rewrite ebind_modExp, ebind_emit. by apply preserves_dc.
Qed.

Lemma write_preserves csvRecord :
  ekeeps (preserves I) (write env csvRecord).
Proof.
  unfold write.
  ekeeps_by ltac:(first
    [ apply ekeeps_ask; intros ? ?; by apply preserves_dc
    | apply ekeeps_emit; intros ?; by apply preserves_dc ]).
Qed.

Lemma withLocked_preserves b s :
  preserves I s {| fCsv := withLocked b (fCsv s); world := world s;
                   trace := trace s |}.
Proof. by apply preserves_dc. Qed.

End OfCounters.

Lemma ordered_dc s s' :
  dc (fCsv s') = dc (fCsv s) → ordered env s → ordered env s'.
Proof. unfold ordered. by intros ->. Qed.


Lemma dcSet_ordered key v :
  key ≠ FirstExpOrderID env → key ≠ LastExpOrderID env →
  ekeeps (preserves (ordered env)) (dcSet key v).
Proof.
  intros H1 H2 s (first & last & Hf & Hl & Hle). exists first, last.
  cbn. by rewrite !lookup_insert_ne.
Qed.


(** [FirstExpOrderID] goes down to an identifier below it, or to any
    identifier when it is zero; [LastExpOrderID] goes up. *)
Lemma updateOrderID_ordered cgrEv :
  distinctCounters env →
  ekeeps (preserves (ordered env)) (updateOrderID env cgrEv).
Proof.
  intros Hd s (first & last & Hf & Hl & Hle). unfold updateOrderID.
  destruct (FieldAsInt64 env cgrEv (OrderID env)) as [oID|e];
    [|by exists first, last].
  assert (FirstExpOrderID env ≠ LastExpOrderID env) as Hne
    by distinct_keys.
  rewrite ebind_dcGet, Hf. cbn [asInt64]. rewrite ebind_assert.
  destruct ((oID <? first)%Z || (first =? 0)%Z) eqn:Hfirst.
  - rewrite ebind_dcSet, ebind_dcGet. cbn [fCsv dc withDC].
    rewrite lookup_insert_ne, Hl by done. cbn [asInt64].
    rewrite ebind_assert.
    destruct (Z.ltb_spec last oID).
    + exists oID, oID. cbn. rewrite lookup_insert_eq.
      rewrite lookup_insert_ne, lookup_insert_eq by done. by split; [|split; [|lia]].
    + exists oID, last. cbn. rewrite lookup_insert_eq.
      rewrite lookup_insert_ne by done. by split; [|split; [|lia]].
  - rewrite ebind_ret, ebind_dcGet, Hl. cbn [asInt64].
    rewrite ebind_assert.
    destruct (Z.ltb_spec last oID).
    + exists first, oID. cbn. rewrite lookup_insert_eq.
      rewrite lookup_insert_ne by done. by split; [|split; [|lia]].
    + by exists first, last.
Qed.


Lemma exportLocked_ordered cgrEv :
  distinctCounters env → contentReadsCounters env →
  ekeeps (preserves (ordered env)) (exportLocked env cgrEv).
Proof.
  intros Hd Hreads.
  unfold exportLocked, addExport, updateATime, updateCost, updateUsage,
    addUsage.
  ekeeps_by ltac:(first
    [ apply dcSet_ordered; distinct_keys
    | apply ekeeps_exporterCfg; [tc_solve|intros ? ?]
    | apply setFields_preserves; [apply ordered_dc|by apply Hreads]
    | apply write_preserves, ordered_dc
    | by apply updateOrderID_ordered ]).
Qed.


(** What [exportLocked] keeps, [ExportEvent] keeps. *)
Lemma ExportEvent_preserves (I : ES W → Prop) cgrEv :
  (∀ s s', dc (fCsv s') = dc (fCsv s) → I s → I s') →
  ekeeps (preserves I) (exportLocked env cgrEv) →
  ekeeps (preserves I) (ExportEvent env cgrEv).
Proof.
  intros I_dc Hbody. unfold ExportEvent, Lock.
  ekeeps_by ltac:(first
    [ apply ekeeps_modExp; intros ?; by apply preserves_dc
    | apply ekeeps_defer;
      [tc_solve|exact Hbody|intros ?; by apply preserves_dc] ]).
Qed.

(** X15 ([FileCSVee.ExportEvent]: [FirstExpOrderID],
    [LastExpOrderID]).  [ExportEvent] keeps the first order identifier
    at or below the last, whatever the identifier of the event and
    however the call ends. *)
Theorem order_ids_stay_ordered cgrEv s :
  distinctCounters env → contentReadsCounters env →
  ordered env s → ordered env (ExportEvent env cgrEv s).1.
Proof.
  intros Hd Hreads.
  apply (ExportEvent_preserves (ordered env) cgrEv ordered_dc).
  by apply exportLocked_ordered.
Qed.


(** *** The header and the trailer *)

Ltac leaf err evs :=
  unfold mret, Run_ret, run_ret;
  eexists _, err, evs; (split; [reflexivity|]); simp_es;
  rewrite ?app_nil_r, <- ?app_assoc;
  (split; [reflexivity|]); (split; [by repeat split|]);
  (split; [by intros [=]|]);
  (split; [first [by left | right; by eexists]|]);
  auto.

Lemma composeHeader_composed s cfg w :
  Exporters env !! cfgIdx (fCsv s) = Some cfg →
  csvWriter (fCsv s) = Some w →
  composed env (HeaderFields cfg) s (composeHeader env s).
Proof.
  intros Hcfg Hw. unfold composed, composeHeader, exporterCfg.
  rewrite ebind_assoc, ebind_get, Hcfg, ebind_assert.
  destruct (HeaderFields cfg) as [|fld flds] eqn:Hflds.
  { rewrite bool_decide_eq_true_2 by done.
    unfold mret, Run_ret, run_ret.
    eexists _, None, []. rewrite app_nil_r. repeat split; auto. }
  rewrite bool_decide_eq_false_2 by done. cbv zeta.
  rewrite ebind_assoc, ebind_get, Hcfg, ebind_assert.
  unfold setFields. rewrite ebind_assoc, ebind_get, ebind_assoc.
  unfold ees.ask at 1. rewrite ebind_call.
  set (eeReq0 := NewEventExporterRequest env None _ _).
  assert (readsCounters env (fld :: flds) →
          (SetFields env (world s) (HeaderFields cfg) eeReq0
             (dc (fCsv s))).2.1.2 = dc (fCsv s)) as Hreads
    by (rewrite Hflds; auto).
  destruct (SetFields env (world s) (HeaderFields cfg) eeReq0
              (dc (fCsv s))) as [w1 [[eeReq dc'] err]].
  cbn [fst snd] in *. cbv zeta. cbn [fst snd].
  rewrite ebind_assoc, ebind_modExp, ebind_assoc, ebind_emit, ebind_ret.
  cbn [fst snd].
  destruct err as [e|].
  { leaf (Some e) [EvSetFields (HeaderFields cfg) (dc (fCsv s)) (Some e)]. }
  destruct (fieldsAsStrings _ _ _) as [csvRecord|e].
  2:{ leaf (Some e) [EvSetFields (HeaderFields cfg) (dc (fCsv s)) None]. }
  unfold write. rewrite ebind_get. cbn [fCsv csvWriter withDC].
  rewrite Hw, ebind_assert. unfold ees.ask. rewrite ebind_call. simp_es.
  destruct (csvWrite env w1 (Comma w) csvRecord) as [w2 werr].
  rewrite ebind_emit.
  leaf werr [ EvSetFields (HeaderFields cfg) (dc (fCsv s)) None;
              EvWrite csvRecord werr ].
Qed.

Lemma composeTrailer_composed s cfg w :
  Exporters env !! cfgIdx (fCsv s) = Some cfg →
  csvWriter (fCsv s) = Some w →
  composed env (TrailerFields cfg) s (composeTrailer env s).
Proof.
  intros Hcfg Hw. unfold composed, composeTrailer, exporterCfg.
  rewrite ebind_assoc, ebind_get, Hcfg, ebind_assert.
  destruct (TrailerFields cfg) as [|fld flds] eqn:Hflds.
  { rewrite bool_decide_eq_true_2 by done.
    unfold mret, Run_ret, run_ret.
    eexists _, None, []. rewrite app_nil_r. repeat split; auto. }
  rewrite bool_decide_eq_false_2 by done. cbv zeta.
  rewrite ebind_assoc, ebind_get, Hcfg, ebind_assert.
  unfold setFields. rewrite ebind_assoc, ebind_get, ebind_assoc.
  unfold ees.ask at 1. rewrite ebind_call.
  set (eeReq0 := NewEventExporterRequest env None _ _).
  assert (readsCounters env (fld :: flds) →
          (SetFields env (world s) (TrailerFields cfg) eeReq0
             (dc (fCsv s))).2.1.2 = dc (fCsv s)) as Hreads
    by (rewrite Hflds; auto).
  destruct (SetFields env (world s) (TrailerFields cfg) eeReq0
              (dc (fCsv s))) as [w1 [[eeReq dc'] err]].
  cbn [fst snd] in *. cbv zeta. cbn [fst snd].
  rewrite ebind_assoc, ebind_modExp, ebind_assoc, ebind_emit, ebind_ret.
  cbn [fst snd].
  destruct err as [e|].
  { leaf (Some e) [EvSetFields (TrailerFields cfg) (dc (fCsv s)) (Some e)]. }
  destruct (fieldsAsStrings _ _ _) as [csvRecord|e].
  2:{ leaf (Some e) [EvSetFields (TrailerFields cfg) (dc (fCsv s)) None]. }
  unfold write. rewrite ebind_get. cbn [fCsv csvWriter withDC].
  rewrite Hw, ebind_assert. unfold ees.ask. rewrite ebind_call. simp_es.
  destruct (csvWrite env w1 (Comma w) csvRecord) as [w2 werr].
  rewrite ebind_emit.
  leaf werr [ EvSetFields (TrailerFields cfg) (dc (fCsv s)) None;
              EvWrite csvRecord werr ].
Qed.

(** Composing the trailer ends, and leaves the exporter as it is, its
    counters apart, also without a writer. *)
Lemma composeTrailer_halts : ehalts (composeTrailer env).
Proof.
  unfold composeTrailer.
  ehalts_by ltac:(first
    [ apply exporterCfg_halts | apply setFields_halts | apply write_halts ]).
Qed.

Lemma composeTrailer_sameExporter :
  ekeeps sameExporter (composeTrailer env).
Proof.
  unfold composeTrailer, setFields, write, exporterCfg.
  ekeeps_by ltac:(first
    [ apply ekeeps_modExp; intros ?; by repeat split
    | apply ekeeps_emit; intros ?; by repeat split
    | apply ekeeps_ask; intros ? ?; by repeat split ]).
Qed.

(** X17 ([FileCSVee.OnEvicted]).  On an exporter that has a writer,
    [OnEvicted] always returns: it composes the trailer, handing at most
    one record to the writer, then flushes the writer and closes the
    file, in this order and whatever composing the trailer and [Close]
    return; their errors are logged and nothing else is done about
    them.  The mutex is not taken.  On an exporter without writer, as
    [NewFileCSVee] returns it when the file cannot be created,
    [OnEvicted] panics. *)
Theorem evicted_flushes_and_closes s :
  (∀ cfg w,
     Exporters env !! cfgIdx (fCsv s) = Some cfg →
     csvWriter (fCsv s) = Some w →
     ∃ s' terr cerr evs,
       OnEvicted env s = (s', Returns tt)
       ∧ trace s'
         = trace s ++ evs
           ++ match terr with
              | Some e => [EvLog (LogComposedTrailer (id (fCsv s)) e)]
              | None => []
              end
           ++ [EvFlush; EvClose cerr]
           ++ match cerr with
              | Some e => [EvLog (LogClosingFile (id (fCsv s)) e)]
              | None => []
              end
       ∧ (TrailerFields cfg = [] → evs = [] ∧ terr = None)
       ∧ (writes evs = [] ∨ ∃ record, writes evs = [(record, terr)])
       ∧ (file (fCsv s) = None → cerr = Some "invalid argument")
       ∧ sameExporter s s')
  ∧ (csvWriter (fCsv s) = None → (OnEvicted env s).2 = Panics).
Proof.
  split.
  - intros cfg w Hcfg Hw. unfold OnEvicted. rewrite ebind_call.
    destruct (composeTrailer_composed s cfg w Hcfg Hw)
      as (s1 & terr & evs & -> & Htr & Hsame & Hnone & Hwr & _).
    destruct Hsame as (Hid & Hidx & Hfile & Hw1 & Hlock).
    rewrite ebind_get.
    set (logged := match terr with
                   | Some e => [EvLog (LogComposedTrailer (id (fCsv s)) e)]
                   | None => []
                   end).
    assert (∃ s2, (match terr with
                   | Some e => ees.emit (EvLog (LogComposedTrailer
                                                  (id (fCsv s1)) e))
                   | None => mret tt
                   end : Run (ES W) unit) s1 = (s2, Returns tt)
                  ∧ fCsv s2 = fCsv s1 ∧ world s2 = world s1
                  ∧ trace s2 = trace s1 ++ logged)
      as (s2 & Hlog & Hexp & Hworld & Htr2).
    { subst logged. rewrite Hid.
      destruct terr; eexists; (split; [reflexivity|]);
        simp_es; by rewrite ?app_nil_r. }
    rewrite ebind_call, Hlog. unfold flush.
    rewrite ebind_assoc, ebind_get, Hexp, Hw1, Hw, ebind_assoc, ebind_assert.
    rewrite ebind_assoc. unfold ees.ask at 1. rewrite ebind_call.
    rewrite ebind_emit. unfold close.
    rewrite ebind_assoc, ebind_get. simp_es. rewrite Hexp, Hfile.
    set (w3 := csvFlush env (world s2)).
    set (cerr := match file (fCsv s) with
                 | Some p => (fileClose env w3 p).2
                 | None => Some "invalid argument"
                 end).
    set (w4 := match file (fCsv s) with
               | Some p => (fileClose env w3 p).1
               | None => w3
               end).
    assert (∀ s3 : ES W, world s3 = w3 →
              (match file (fCsv s) with
               | Some p => ees.ask (λ x, fileClose env x p)
               | None => mret (Some "invalid argument")
               end : Run (ES W) (option error)) s3
              = ({| fCsv := fCsv s3; world := w4; trace := trace s3 |},
                 Returns cerr))
      as Hclose.
    { intros [x3 ? t3] <-. subst cerr w4. cbn [world fCsv trace].
      destruct (file (fCsv s)) as [p|]; [|done].
      unfold ees.ask. cbn [world fCsv trace].
      by destruct (fileClose env _ p). }
    rewrite ebind_assoc, ebind_call, Hclose by done.
    rewrite ebind_assoc, ebind_emit, ebind_ret. simp_es.
    exists {| fCsv := fCsv s1; world := w4;
              trace := ((trace s2 ++ [EvFlush]) ++ [EvClose cerr])
                       ++ match cerr with
                          | Some e =>
                              [EvLog (LogClosingFile (id (fCsv s)) e)]
                          | None => []
                          end |}, terr, cerr, evs.
    split.
    { rewrite Hid. destruct cerr; unfold ees.emit, mret, Run_ret, run_ret;
        simp_es; by rewrite ?app_nil_r. }
    simp_es. split.
    { rewrite Htr2, Htr. by rewrite <- !app_assoc. }
    split; [done|]. split; [done|]. split.
    { intros Hnofile. subst cerr. by rewrite Hnofile. }
    by repeat split.
  - intros Hw. unfold OnEvicted. rewrite ebind_call.
    pose proof (composeTrailer_halts s) as Hhalts.
    pose proof (composeTrailer_sameExporter s) as (_ & _ & _ & Hw1 & _).
    destruct (composeTrailer env s) as [s1 [terr| |]];
      cbn [fst snd] in *; [|done..].
    rewrite ebind_get, ebind_call.
    assert (∃ s2, (match terr with
                   | Some e => ees.emit (EvLog (LogComposedTrailer
                                                  (id (fCsv s1)) e))
                   | None => mret tt
                   end : Run (ES W) unit) s1 = (s2, Returns tt)
                  ∧ fCsv s2 = fCsv s1) as (s2 & -> & Hexp).
    { destruct terr; eexists; (split; [reflexivity|]); done. }
    unfold flush. rewrite ebind_assoc, ebind_get, Hexp, Hw1, Hw.
    by rewrite ebind_assoc, ebind_assert.
Qed.

(** What [NewFileCSVee] makes of a configuration that is there and of
    counters that are not nil. *)
Lemma NewFileCSVee_run idx dc0 w cfg :
  Exporters env !! idx = Some cfg →
  NewFileCSVee env idx (Some dc0) w
  = init env {| fCsv := {| id := ecID cfg; cfgIdx := idx; file := None;
                           csvWriter := None; locked := false;
                           dc := <[ ExportID env := DCString (ecID cfg) ]>
                                   dc0 |};
                world := w; trace := [] |}.
Proof. intros Hcfg. unfold NewFileCSVee. by rewrite Hcfg. Qed.

(** X18 ([NewFileCSVee], [FileCSVee.init], [composeHeader]).  For a
    configuration that is there and counters that are not nil,
    [NewFileCSVee] returns an exporter that has the identifier of the
    configuration, which is also put under [ExportID] in the caller's
    counters, and a free mutex.  It creates one file, named by the
    identifier and a fresh prefix.  When that fails the exporter is
    returned all the same, beside the error, without file and without
    writer.  Otherwise its writer separates fields by the first byte of
    [FieldSep], or by the default separator when [FieldSep] is empty,
    at most one record, the header, is handed to it, and what [Write]
    returns for it is what [NewFileCSVee] returns; with no header
    configured nothing more is done.  A nil map of counters is a
    panic. *)
Theorem new_exporter idx dc0 w cfg :
  Exporters env !! idx = Some cfg →
  (NewFileCSVee env idx None w).2 = Panics
  ∧ ∃ s' err,
      NewFileCSVee env idx (Some dc0) w = (s', Returns err)
      ∧ id (fCsv s') = ecID cfg ∧ cfgIdx (fCsv s') = idx
      ∧ locked (fCsv s') = false
      ∧ (readsCounters env (HeaderFields cfg) →
         dc (fCsv s') = <[ ExportID env := DCString (ecID cfg) ]> dc0)
      ∧ let p := path_Join env (ExportPath cfg)
                   (ecID cfg +:+ Underline env
                    +:+ (UUIDSha1Prefix env w).2 +:+ CSVSuffix env) in
        match (osCreate env (UUIDSha1Prefix env w).1 p).2 with
        | Some e =>
            err = Some e ∧ file (fCsv s') = None
            ∧ csvWriter (fCsv s') = None
            ∧ trace s' = [EvCreate p (Some e)]
        | None =>
            file (fCsv s') = Some p
            ∧ csvWriter (fCsv s')
              = Some {| Comma := default (CSV_SEP env)
                                   (firstByte (FieldSep cfg)) |}
            ∧ ∃ evs,
                trace s' = EvCreate p None :: evs
                ∧ (HeaderFields cfg = [] → evs = [] ∧ err = None)
                ∧ (writes evs = [] ∨ ∃ record, writes evs = [(record, err)])
        end.
Proof.
  intros Hcfg. split.
  { unfold NewFileCSVee. by rewrite Hcfg. }
  rewrite (NewFileCSVee_run idx dc0 w cfg Hcfg).
  unfold init, exporterCfg.
  rewrite ebind_assoc, ebind_get. simp_es. rewrite Hcfg, ebind_assert.
  rewrite ebind_get. unfold ees.ask. rewrite ebind_call. simp_es.
  destruct (UUIDSha1Prefix env w) as [w1 uuid]. cbv zeta.
  rewrite ebind_call. simp_es.
  destruct (osCreate env w1 _) as [w2 [e|]] eqn:Hcreate;
    rewrite ebind_emit; simp_es.
  { rewrite ebind_modExp. unfold mret, Run_ret, run_ret.
    eexists _, _. split; [reflexivity|]. simp_es. by repeat split. }
  rewrite !ebind_modExp, ebind_assoc, ebind_get. simp_es.
  rewrite Hcfg, ebind_assert.
  set (comma := default (CSV_SEP env) (firstByte (FieldSep cfg))).
  set (m := match firstByte (FieldSep cfg) with
            | Some b => _
            | None => _
            end).
  set (s1 := {| fCsv := _; world := w2; trace := _ |}).
  assert (∃ s2, m s1 = (s2, Returns tt)
                ∧ fCsv s2
                  = withWriter (Some {| Comma := comma |}) (fCsv s1)
                ∧ world s2 = w2 ∧ trace s2 = trace s1)
    as (s2 & Hm & Hexp & Hworld & Htr2).
  { subst m comma s1. destruct (firstByte (FieldSep cfg)); cbn;
      eexists; (split; [reflexivity|]); done. }
  rewrite ebind_call, Hm.
  destruct (composeHeader_composed s2 cfg {| Comma := comma |})
    as (s3 & err & evs & -> & Htr & (Hid & Hidx & Hfile & Hw3 & Hlock)
        & Hnone & Hwr & Hdc).
  { by rewrite Hexp. }
  { by rewrite Hexp. }
  rewrite Hexp in *. rewrite Htr2 in Htr. subst s1. simp_es.
  cbn [app] in Htr.
  exists s3, err. repeat split; try done.
  exists evs. split; [exact Htr|]. split; [exact Hnone|exact Hwr].
Qed.

(** *** The totals *)

Lemma ebind_Returns {A B : Type} (m : Run (ES W) A)
    (k : A → Run (ES W) B) s s' b :
  (m ≫= k) s = (s', Returns b) →
  ∃ s1 a, m s = (s1, Returns a) ∧ k a s1 = (s', Returns b).
Proof.
  rewrite ebind_call. destruct (m s) as [s1 [a| |]]; [eauto|done|done].
Qed.

(** The updates that an event exported has gone through. *)
Lemma ExportEvent_exported cgrEv s s' cfg n :
  distinctCounters env → readsCounters env (ContentFields cfg) →
  locked (fCsv s) = false →
  Exporters env !! cfgIdx (fCsv s) = Some cfg →
  dc (fCsv s) !! NumberOfEvents env = Some (DCInt n) →
  ExportEvent env cgrEv s = (s', Returns None) →
  ∃ s2 sa sb sc sd,
    dc (fCsv s2)
    = <[ NumberOfEvents env := DCInt (wrap (IntSize env) (n + 1)) ]> (dc (fCsv s))
    ∧ updateATime env cgrEv s2 = (sa, Returns tt)
    ∧ updateOrderID env cgrEv sa = (sb, Returns tt)
    ∧ updateCost env cgrEv sb = (sc, Returns tt)
    ∧ updateUsage env cgrEv sc = (sd, Returns tt)
    ∧ ∀ k, k ≠ PositiveExports env →
           dc (fCsv s') !! k = dc (fCsv sd) !! k.
Proof.
  intros Hd Hreads Hfree Hcfg Hn.
  rewrite ExportEvent_free by done. unfold run_defer.
  rewrite (exportLocked_run cgrEv _ cfg n) by done.
  cbv zeta. simp_es.
  set (dc1 := <[NumberOfEvents env:=DCInt (wrap (IntSize env) (n + 1))]> (dc (fCsv s))).
  set (set := SetFields env (world s) (ContentFields cfg) _ dc1).
  set (s2 := {| fCsv := withDC (λ _, dc1) _; world := set.1;
                trace := trace s ++ [_] |}).
  destruct (set.2.2) as [e|].
  { rewrite ebind_call.
    destruct (addExport (NegativeExports env) (agents.evID cgrEv) s2)
      as [s3 [[]| |]]; [|done|done].
    unfold mret, Run_ret, run_ret. by intros [= _ ?]. }
  destruct (fieldsAsStrings _ _ _) as [csvRecord|e]; [|by intros [= _ ?]].
  intros Hrun.
  destruct (_ ≫= _) as [s6 o] eqn:Hall in Hrun.
  assert (o = Returns None ∧ s' = Unlock s6) as [-> ->]
    by (destruct o; by inversion Hrun).
  clear Hrun.
  apply ebind_Returns in Hall as (sa & [] & Ha & Hall).
  apply ebind_Returns in Hall as (sb & [] & Hb & Hall).
  apply ebind_Returns in Hall as (sc & [] & Hc & Hall).
  apply ebind_Returns in Hall as (sd & [] & Hu & Hall).
  exists s2, sa, sb, sc, sd. repeat split; try done.
  intros k Hk.
  apply ebind_Returns in Hall as (se & [] & Hpos & Hall).
  apply ebind_Returns in Hall as (sf & werr & Hwrite & Hall).
  unfold mret, Run_ret, run_ret in Hall. injection Hall as <-.
  simp_es.
  assert (dc (fCsv sf) = dc (fCsv se)) as ->.
  { pose proof (write_preserves (λ t, dc (fCsv t) = dc (fCsv se))
                  (λ t t' Ht, eq_trans Ht) csvRecord se eq_refl) as Hw.
    by rewrite Hwrite in Hw. }
  revert Hpos. unfold addExport. rewrite ebind_dcGet.
  destruct (asStringSet _) as [pos|]; [|done].
  rewrite ebind_assert. unfold dcSet, ees.modExp. intros [= <-].
  simp_es. by rewrite lookup_insert_ne.
Qed.

(** [updateCost] and [updateUsage], when they return. *)
Lemma updateCost_Returns cgrEv s s' :
  updateCost env cgrEv s = (s', Returns tt) →
  (∀ k, k ≠ TotalCost env → dc (fCsv s') !! k = dc (fCsv s) !! k)
  ∧ match FieldAsFloat64 env cgrEv (Cost env) with
    | Ok cost =>
        ∃ total,
          dc (fCsv s) !! TotalCost env = Some (DCFloat64 total)
          ∧ dc (fCsv s') !! TotalCost env
            = Some (DCFloat64 (addFloat64 env total cost))
    | Err _ => dc (fCsv s') = dc (fCsv s)
    end.
Proof.
  unfold updateCost.
  destruct (FieldAsFloat64 env cgrEv (Cost env)) as [cost|e].
  2:{ unfold mret, Run_ret, run_ret. by intros [= <-]. }
  rewrite ebind_dcGet.
  destruct (dc (fCsv s) !! TotalCost env) as [[]|] eqn:Hv;
    cbn [asFloat64]; rewrite ebind_assert; try done.
  unfold dcSet, ees.modExp. intros [= <-]. simp_es. split.
  - intros k Hk. by rewrite lookup_insert_ne.
  - eexists. split; [done|]. by rewrite lookup_insert_eq.
Qed.

Lemma addUsage_Returns key usage s s' :
  addUsage key usage s = (s', Returns tt) →
  (∀ k, k ≠ key → dc (fCsv s') !! k = dc (fCsv s) !! k)
  ∧ ∃ total,
      dc (fCsv s) !! key = Some (DCDuration total)
      ∧ dc (fCsv s') !! key = Some (DCDuration (wrap64 (total + usage))).
Proof.
  unfold addUsage. rewrite ebind_dcGet.
  destruct (dc (fCsv s) !! key) as [[]|] eqn:Hv;
    cbn [asDuration]; rewrite ebind_assert; try done.
  unfold dcSet, ees.modExp. intros [= <-]. simp_es. split.
  - intros k Hk. by rewrite lookup_insert_ne.
  - eexists. split; [done|]. by rewrite lookup_insert_eq.
Qed.

Lemma distinctToRs_ne (i j : nat) (a b : string) :
  distinctToRs env →
  (usageTotals env).*1 !! i = Some a → (usageTotals env).*1 !! j = Some b →
  i ≠ j → a ≠ b.
Proof.
  intros Hd Ha Hb Hij ->. apply Hij. by eapply NoDup_lookup.
Qed.

Ltac distinct_tors :=
  match goal with
  | Ht : distinctToRs _ |- _ ≠ _ =>
      first
        [ apply (distinctToRs_ne 0 1 _ _ Ht); [reflexivity|reflexivity|lia]
        | apply (distinctToRs_ne 0 2 _ _ Ht); [reflexivity|reflexivity|lia]
        | apply (distinctToRs_ne 0 3 _ _ Ht); [reflexivity|reflexivity|lia]
        | apply (distinctToRs_ne 0 4 _ _ Ht); [reflexivity|reflexivity|lia]
        | apply (distinctToRs_ne 1 2 _ _ Ht); [reflexivity|reflexivity|lia]
        | apply (distinctToRs_ne 1 3 _ _ Ht); [reflexivity|reflexivity|lia]
        | apply (distinctToRs_ne 1 4 _ _ Ht); [reflexivity|reflexivity|lia]
        | apply (distinctToRs_ne 2 3 _ _ Ht); [reflexivity|reflexivity|lia]
        | apply (distinctToRs_ne 2 4 _ _ Ht); [reflexivity|reflexivity|lia]
        | apply (distinctToRs_ne 3 4 _ _ Ht); [reflexivity|reflexivity|lia]
        | apply not_eq_sym; distinct_tors_sym Ht ]
  end
with distinct_tors_sym Ht :=
  first
    [ apply (distinctToRs_ne 0 1 _ _ Ht); [reflexivity|reflexivity|lia]
    | apply (distinctToRs_ne 0 2 _ _ Ht); [reflexivity|reflexivity|lia]
    | apply (distinctToRs_ne 0 3 _ _ Ht); [reflexivity|reflexivity|lia]
    | apply (distinctToRs_ne 0 4 _ _ Ht); [reflexivity|reflexivity|lia]
    | apply (distinctToRs_ne 1 2 _ _ Ht); [reflexivity|reflexivity|lia]
    | apply (distinctToRs_ne 1 3 _ _ Ht); [reflexivity|reflexivity|lia]
    | apply (distinctToRs_ne 1 4 _ _ Ht); [reflexivity|reflexivity|lia]
    | apply (distinctToRs_ne 2 3 _ _ Ht); [reflexivity|reflexivity|lia]
    | apply (distinctToRs_ne 2 4 _ _ Ht); [reflexivity|reflexivity|lia]
    | apply (distinctToRs_ne 3 4 _ _ Ht); [reflexivity|reflexivity|lia] ].

(** The usage of an event goes to the total of its type of record. *)
Lemma updateUsage_Returns cgrEv s s' :
  distinctCounters env → distinctToRs env →
  updateUsage env cgrEv s = (s', Returns tt) →
  ∀ name k, (name, k) ∈ usageTotals env →
    match FieldAsString env cgrEv (ToR env),
          FieldAsDuration env cgrEv (Usage env) with
    | Ok tor, Ok usage =>
        if decide (tor = name)
        then ∃ total,
               dc (fCsv s) !! k = Some (DCDuration total)
               ∧ dc (fCsv s') !! k
                 = Some (DCDuration (wrap64 (total + usage)))
        else dc (fCsv s') !! k = dc (fCsv s) !! k
    | _, _ => dc (fCsv s') !! k = dc (fCsv s) !! k
    end.
Proof.
  intros Hd Ht. unfold updateUsage.
  destruct (FieldAsString env cgrEv (ToR env)) as [tor|e].
  2:{ unfold mret, Run_ret, run_ret. by intros [= <-]. }
  destruct (FieldAsDuration env cgrEv (Usage env)) as [usage|e].
  2:{ unfold mret, Run_ret, run_ret. by intros [= <-]. }
  unfold usageTotals.
  destruct (String.eqb_spec tor (VOICE env)) as [->|?];
    [|destruct (String.eqb_spec tor (SMS env)) as [->|?];
      [|destruct (String.eqb_spec tor (MMS env)) as [->|?];
        [|destruct (String.eqb_spec tor (GENERIC env)) as [->|?];
          [|destruct (String.eqb_spec tor (DATA env)) as [->|?]]]]].
  6:{ unfold mret, Run_ret, run_ret. intros [= <-] name k Hin.
      rewrite !elem_of_cons, elem_of_nil in Hin.
      destruct (decide (tor = name)) as [->|]; [|done].
      by destruct Hin as [[= -> _]|[[= -> _]|[[= -> _]|[[= -> _]|
                          [[= -> _]|[]]]]]]. }
  all: intros [Hother (total & Htotal & Htotal')]%addUsage_Returns
         name k Hin;
    rewrite !elem_of_cons, elem_of_nil in Hin;
    destruct Hin as [[= -> ->]|[[= -> ->]|[[= -> ->]|[[= -> ->]|
                     [[= -> ->]|[]]]]]];
    first
      [ rewrite decide_True by done; by exists total
      | rewrite decide_False by distinct_tors;
        apply Hother; distinct_keys ].
Qed.

(** X19 ([FileCSVee.ExportEvent]: [TotalCost] and the totals of usage).
    The cost of an event exported is added to [TotalCost], and its
    usage to the total of its type of record and to no other: to
    [TotalDuration] for [*voice], and so on for [*sms], [*mms],
    [*generic] and [*data].  An event without cost, without usage or
    of another type of record leaves these totals as they are. *)
Theorem totals_follow_exports cgrEv s s' cfg n :
  distinctCounters env → readsCounters env (ContentFields cfg) → distinctToRs env →
  locked (fCsv s) = false →
  Exporters env !! cfgIdx (fCsv s) = Some cfg →
  dc (fCsv s) !! NumberOfEvents env = Some (DCInt n) →
  ExportEvent env cgrEv s = (s', Returns None) →
  match FieldAsFloat64 env cgrEv (Cost env) with
  | Ok cost =>
      ∃ total,
        dc (fCsv s) !! TotalCost env = Some (DCFloat64 total)
        ∧ dc (fCsv s') !! TotalCost env
          = Some (DCFloat64 (addFloat64 env total cost))
  | Err _ => dc (fCsv s') !! TotalCost env = dc (fCsv s) !! TotalCost env
  end
  ∧ ∀ name k, (name, k) ∈ usageTotals env →
      match FieldAsString env cgrEv (ToR env),
            FieldAsDuration env cgrEv (Usage env) with
      | Ok tor, Ok usage =>
          if decide (tor = name)
          then ∃ total,
                 dc (fCsv s) !! k = Some (DCDuration total)
                 ∧ dc (fCsv s') !! k
                   = Some (DCDuration (wrap64 (total + usage)))
          else dc (fCsv s') !! k = dc (fCsv s) !! k
      | _, _ => dc (fCsv s') !! k = dc (fCsv s) !! k
      end.
Proof.
  intros Hd Hreads Ht Hfree Hcfg Hn Hrun.
  destruct (ExportEvent_exported cgrEv s s' cfg n Hd Hreads Hfree Hcfg Hn
              Hrun)
    as (s2 & sa & sb & sc & sd & Hs2 & Ha & Hb & Hc & Hu & Hend).
  pose proof (updateATime_frame cgrEv s2) as (_ & _ & _ & _ & _ & _ & _ & Hfa).
  pose proof (updateOrderID_frame cgrEv sa)
    as (_ & _ & _ & _ & _ & _ & _ & Hfb).
  pose proof (updateUsage_frame cgrEv sc)
    as (_ & _ & _ & _ & _ & _ & _ & Hfu).
  rewrite Ha in Hfa. rewrite Hb in Hfb. rewrite Hu in Hfu.
  cbn [fst] in Hfa, Hfb, Hfu.
  apply updateCost_Returns in Hc as [Hfc Hcost].
  assert (∀ k, k ∈ [ TotalCost env; TotalDuration env; TotalSMSUsage env;
                     TotalMMSUsage env; TotalGenericUsage env;
                     TotalDataUsage env ] →
               dc (fCsv sb) !! k = dc (fCsv s) !! k) as Hbefore.
  { intros k Hk. rewrite !elem_of_cons, elem_of_nil in Hk.
    rewrite Hfb, Hfa, Hs2.
    - apply lookup_insert_ne.
      destruct Hk as [->|[->|[->|[->|[->|[->|[]]]]]]]; distinct_keys.
    - rewrite !not_elem_of_cons, elem_of_nil.
      destruct Hk as [->|[->|[->|[->|[->|[->|[]]]]]]];
        repeat split; try tauto; distinct_keys.
    - rewrite !not_elem_of_cons, elem_of_nil.
      destruct Hk as [->|[->|[->|[->|[->|[->|[]]]]]]];
        repeat split; try tauto; distinct_keys. }
  split.
  - rewrite Hend by distinct_keys.
    rewrite Hfu.
    2:{ rewrite !not_elem_of_cons, elem_of_nil.
        repeat split; try tauto; distinct_keys. }
    rewrite <- (Hbefore (TotalCost env)) by (apply elem_of_cons; by left).
    destruct (FieldAsFloat64 env cgrEv (Cost env)); [done|].
    by rewrite Hcost.
  - intros name k Hin.
    assert (k ∈ [ TotalDuration env; TotalSMSUsage env; TotalMMSUsage env;
                  TotalGenericUsage env; TotalDataUsage env ]) as Hk.
    { unfold usageTotals in Hin.
      rewrite !elem_of_cons, elem_of_nil in Hin.
      rewrite !elem_of_cons, elem_of_nil.
      destruct Hin as [[= _ ->]|[[= _ ->]|[[= _ ->]|[[= _ ->]|
                       [[= _ ->]|[]]]]]]; tauto. }
    assert (k ≠ TotalCost env ∧ k ≠ PositiveExports env) as [HkC HkP].
    { rewrite !elem_of_cons, elem_of_nil in Hk.
      destruct Hk as [->|[->|[->|[->|[->|[]]]]]]; split; distinct_keys. }
    pose proof (updateUsage_Returns cgrEv sc sd Hd Ht Hu name k Hin) as H.
    rewrite Hend by done.
    rewrite (Hfc k HkC), (Hbefore k) in H by (apply elem_of_cons; by right).
    exact H.
Qed.

End WithEnv.

(** *** The theorems at the sample exporter *)

Section AtSampleExporter.
Import sampleExporter.

Lemma sample_distinctCounters : distinctCounters (sampleEnv [cdrs]).
Proof.
  unfold distinctCounters. apply (bool_decide_unpack _). vm_compute. exact I.
Qed.

Lemma sample_readsCounters fields :
  readsCounters (sampleEnv [cdrs]) fields.
Proof. by intros w eeReq dc0. Qed.

Lemma sample_contentReadsCounters : contentReadsCounters (sampleEnv [cdrs]).
Proof. intros cfg _. apply sample_readsCounters. Qed.

Lemma sample_distinctToRs : distinctToRs (sampleEnv [cdrs]).
Proof.
  unfold distinctToRs. apply (bool_decide_unpack _). vm_compute. exact I.
Qed.

Lemma export_releases_mutex_witness :
  let env := sampleEnv [cdrs] in
  let s := fresh (Some zeroCounters) in
  let busy := {| fCsv := withLocked true (fCsv s); world := world s;
                 trace := trace s |} in
  ((ExportEvent env call s).2 ≠ Diverges
   ∧ locked (fCsv (ExportEvent env call s).1) = false)
  ∧ ExportEvent env call busy = (busy, Diverges).
Proof.
  split.
  - apply (proj1 (export_releases_mutex (sampleEnv [cdrs]) call
                    (fresh (Some zeroCounters)))).
    vm_compute. reflexivity.
  - apply (proj2 (export_releases_mutex (sampleEnv [cdrs]) call _)).
    vm_compute. reflexivity.
Defined.

Lemma export_counts_every_event_witness :
  let env := sampleEnv [cdrs] in
  let s := fresh (Some zeroCounters) in
  dc (fCsv (ExportEvent env noAccount s).1) !! NumberOfEvents env
  = Some (DCInt (wrap (IntSize env) (0 + 1)))
  ∧ ∃ dcSeen err,
      setFieldsCalls (trace (ExportEvent env noAccount s).1)
      = setFieldsCalls (trace s) ++ [(dcSeen, err)]
      ∧ dcSeen !! NumberOfEvents env
        = Some (DCInt (wrap (IntSize env) (0 + 1))).
Proof.
  apply (export_counts_every_event (sampleEnv [cdrs]) noAccount
           (fresh (Some zeroCounters)) cdrs 0
           sample_distinctCounters (sample_readsCounters _));
    vm_compute; reflexivity.
Defined.


Lemma order_ids_stay_ordered_witness :
  let env := sampleEnv [cdrs] in
  ordered env (ExportEvent env call (fresh (Some zeroCounters))).1.
Proof.
  apply (order_ids_stay_ordered (sampleEnv [cdrs]) call
           (fresh (Some zeroCounters))
           sample_distinctCounters sample_contentReadsCounters).
  exists 0%Z, 0%Z.
  split; [vm_compute; reflexivity|]. split; [vm_compute; reflexivity|]. lia.
Defined.


Lemma evicted_flushes_and_closes_witness :
  let env := sampleEnv [cdrs] in
  let s := (ExportEvent env call (fresh (Some zeroCounters))).1 in
  let failed := (NewFileCSVee (diskFull [cdrs]) 0 (Some zeroCounters) 0).1 in
  (∃ s' terr cerr evs,
     OnEvicted env s = (s', Returns tt)
     ∧ trace s'
       = trace s ++ evs
         ++ match terr with
            | Some e => [EvLog (LogComposedTrailer (id (fCsv s)) e)]
            | None => []
            end
         ++ [EvFlush; EvClose cerr]
         ++ match cerr with
            | Some e => [EvLog (LogClosingFile (id (fCsv s)) e)]
            | None => []
            end
     ∧ (TrailerFields cdrs = [] → evs = [] ∧ terr = None)
     ∧ (writes evs = [] ∨ ∃ record, writes evs = [(record, terr)])
     ∧ (file (fCsv s) = None → cerr = Some "invalid argument")
     ∧ sameExporter s s')
  ∧ (OnEvicted (diskFull [cdrs]) failed).2 = Panics.
Proof.
  split.
  - apply (proj1 (evicted_flushes_and_closes (sampleEnv [cdrs])
                    (ExportEvent (sampleEnv [cdrs]) call
                       (fresh (Some zeroCounters))).1)
             cdrs {| Comma := 44 |});
      vm_compute; reflexivity.
  - apply (proj2 (evicted_flushes_and_closes (diskFull [cdrs])
                    (NewFileCSVee (diskFull [cdrs]) 0 (Some zeroCounters)
                       0).1)).
    vm_compute. reflexivity.
Defined.

Lemma new_exporter_witness :
  let env := sampleEnv [cdrs] in
  (NewFileCSVee env 0 None 0).2 = Panics
  ∧ ∃ s' err,
      NewFileCSVee env 0 (Some zeroCounters) 0 = (s', Returns err)
      ∧ id (fCsv s') = ecID cdrs ∧ cfgIdx (fCsv s') = 0%nat
      ∧ locked (fCsv s') = false
      ∧ (readsCounters env (HeaderFields cdrs) →
         dc (fCsv s')
         = <[ ExportID env := DCString (ecID cdrs) ]> zeroCounters)
      ∧ let p := path_Join env (ExportPath cdrs)
                   (ecID cdrs +:+ Underline env
                    +:+ (UUIDSha1Prefix env 0).2 +:+ CSVSuffix env) in
        match (osCreate env (UUIDSha1Prefix env 0).1 p).2 with
        | Some e =>
            err = Some e ∧ file (fCsv s') = None
            ∧ csvWriter (fCsv s') = None
            ∧ trace s' = [EvCreate p (Some e)]
        | None =>
            file (fCsv s') = Some p
            ∧ csvWriter (fCsv s')
              = Some {| Comma := default (CSV_SEP env)
                                   (firstByte (FieldSep cdrs)) |}
            ∧ ∃ evs,
                trace s' = EvCreate p None :: evs
                ∧ (HeaderFields cdrs = [] → evs = [] ∧ err = None)
                ∧ (writes evs = [] ∨ ∃ record, writes evs = [(record, err)])
        end.
Proof.
  apply (new_exporter (sampleEnv [cdrs]) 0 zeroCounters 0 cdrs).
  reflexivity.
Defined.

Lemma totals_follow_exports_witness :
  let env := sampleEnv [cdrs] in
  let s := fresh (Some zeroCounters) in
  let s' := (ExportEvent env call s).1 in
  match FieldAsFloat64 env call (Cost env) with
  | Ok cost =>
      ∃ total,
        dc (fCsv s) !! TotalCost env = Some (DCFloat64 total)
        ∧ dc (fCsv s') !! TotalCost env
          = Some (DCFloat64 (addFloat64 env total cost))
  | Err _ => dc (fCsv s') !! TotalCost env = dc (fCsv s) !! TotalCost env
  end
  ∧ ∀ name k, (name, k) ∈ usageTotals env →
      match FieldAsString env call (ToR env),
            FieldAsDuration env call (Usage env) with
      | Ok tor, Ok usage =>
          if decide (tor = name)
          then ∃ total,
                 dc (fCsv s) !! k = Some (DCDuration total)
                 ∧ dc (fCsv s') !! k
                   = Some (DCDuration (wrap64 (total + usage)))
          else dc (fCsv s') !! k = dc (fCsv s) !! k
      | _, _ => dc (fCsv s') !! k = dc (fCsv s) !! k
      end.
Proof.
  apply (totals_follow_exports (sampleEnv [cdrs]) call
           (fresh (Some zeroCounters))
           (ExportEvent (sampleEnv [cdrs]) call
              (fresh (Some zeroCounters))).1
           cdrs 0
           sample_distinctCounters (sample_readsCounters _)
           sample_distinctToRs);
    vm_compute; reflexivity.
Defined.

End AtSampleExporter.

End ExporterProps.
